(** * A shallow embedding of the Clarke-Wright savings solver

    Source: [src/savings-solver/savings-solver.ts] (classes
    [ClarkeWrightProblem], [Point] and [Route]).

    Modelling decisions.
    - A JavaScript [number] is an extended real: a finite real, one of the two
      infinities, or NaN.  Arithmetic on finite values is exact (no rounding,
      no signed zero); the special values follow IEEE-754 as JavaScript
      exposes it.  [Math.sqrt], [Math.acos] and [Math.cos] are the real
      functions of the same name, with NaN outside their domain.
      Rounding is outside this embedding: where the rounding of a sum
      decides a property, the methods of [Route] are embedded once more,
      on binary64 numbers (module [Binary64]).
    - Objects are references.  A [Point] object is a [pid]; the problem owns
      a store from [pid] to the point's fields, which [solve] never mutates.
      A [Route] object is identified with its [id] (the static counter
      [Route.id++] hands out a fresh one per object) and lives in a heap that
      [joinRoute] and [twoOptSwap] update in place, so that every alias of a
      route (in [solutions], in a savings record) sees the mutation.
    - Reading an array out of range yields [undefined], modelled by [None];
      calling a method or reading a field of [undefined] raises a
      [TypeError]; [WeakMap.get] on a missing key makes [getDistanceTo]
      answer [Infinity].
    - The [while] loop of [solve] runs on fuel; [solve] supplies one unit per
      customer plus one and [solve_returns] shows that this is enough. *)

From Stdlib Require Import Reals Lra Lia ZArith.
From Stdlib Require PrimFloat.
From stdpp Require Import base option list gmap.

(* [set_solver] clears hypotheses by names that are not always there. *)
Set Warnings "-clear-no-such-hyp".

(* A decimal literal stands for the binary64 number nearest to it, as in
   JavaScript. *)
Set Warnings "-inexact-float".

(** ** JavaScript numbers *)

Module JS.

Inductive num : Type :=
| Fin (r : R)
| PInf
| NInf
| NaN.

Definition zero : num := Fin 0%R.

(** [a + b] *)
Definition add (a b : num) : num :=
  match a, b with
  | NaN, _ | _, NaN => NaN
  | Fin x, Fin y => Fin (x + y)
  | PInf, NInf | NInf, PInf => NaN
  | PInf, _ | _, PInf => PInf
  | NInf, _ | _, NInf => NInf
  end.

(** unary [-a] *)
Definition neg (a : num) : num :=
  match a with
  | Fin x => Fin (- x)
  | PInf => NInf
  | NInf => PInf
  | NaN => NaN
  end.

(** [a - b] *)
Definition sub (a b : num) : num := add a (neg b).

(** an infinity of the sign of [x] ([pos]) or of the opposite sign; NaN at 0 *)
Definition signed_inf (x : R) (pos : bool) : num :=
  if Rlt_dec 0 x then (if pos then PInf else NInf)
  else if Rlt_dec x 0 then (if pos then NInf else PInf)
  else NaN.

(** [a * b] *)
Definition mul (a b : num) : num :=
  match a, b with
  | NaN, _ | _, NaN => NaN
  | Fin x, Fin y => Fin (x * y)
  | Fin x, PInf | PInf, Fin x => signed_inf x true
  | Fin x, NInf | NInf, Fin x => signed_inf x false
  | PInf, PInf | NInf, NInf => PInf
  | PInf, NInf | NInf, PInf => NInf
  end.

(** [a / b]; every zero is the positive zero *)
Definition div (a b : num) : num :=
  match a, b with
  | NaN, _ | _, NaN => NaN
  | Fin x, Fin y =>
      if Req_dec_T y 0 then signed_inf x true else Fin (x / y)
  | Fin _, PInf | Fin _, NInf => Fin 0
  | PInf, Fin y => if Rlt_dec y 0 then NInf else PInf
  | NInf, Fin y => if Rlt_dec y 0 then PInf else NInf
  | _, _ => NaN
  end.

(** [a < b] *)
Definition lt (a b : num) : bool :=
  match a, b with
  | NaN, _ | _, NaN => false
  | Fin x, Fin y => if Rlt_dec x y then true else false
  | NInf, NInf | PInf, _ | _, NInf => false
  | NInf, _ | _, PInf => true
  end.

(** [a > b] *)
Definition gt (a b : num) : bool := lt b a.

(** [a === b] on numbers *)
Definition strict_eq (a b : num) : bool :=
  match a, b with
  | Fin x, Fin y => if Req_dec_T x y then true else false
  | PInf, PInf | NInf, NInf => true
  | _, _ => false
  end.

(** [Math.abs] *)
Definition abs (a : num) : num :=
  match a with
  | Fin x => Fin (Rabs x)
  | PInf | NInf => PInf
  | NaN => NaN
  end.

(** [Math.max(a, b)] *)
Definition max (a b : num) : num :=
  match a, b with
  | NaN, _ | _, NaN => NaN
  | _, _ => if lt a b then b else a
  end.

(** [Math.pow(a, 2)] *)
Definition pow2 (a : num) : num := mul a a.

(** [Math.sqrt] *)
Definition sqrt (a : num) : num :=
  match a with
  | Fin x => if Rlt_dec x 0 then NaN else Fin (R_sqrt.sqrt x)
  | PInf => PInf
  | NInf | NaN => NaN
  end.

(** [Math.acos] *)
Definition acos (a : num) : num :=
  match a with
  | Fin x =>
      if Rlt_dec x (-1) then NaN
      else if Rlt_dec 1 x then NaN
      else Fin (Ratan.acos x)
  | _ => NaN
  end.

(** [Math.cos] *)
Definition cos (a : num) : num :=
  match a with
  | Fin x => Fin (Rtrigo_def.cos x)
  | _ => NaN
  end.

End JS.

Import JS.

(** ** Results of running JavaScript code *)

Inductive outcome (A : Type) : Type :=
| Done (a : A)
| TypeError
| OutOfFuel.
Arguments Done {A} a.
Arguments TypeError {A}.
Arguments OutOfFuel {A}.

Definition bind {A B : Type} (m : outcome A) (k : A -> outcome B) : outcome B :=
  match m with
  | Done a => k a
  | TypeError => TypeError
  | OutOfFuel => OutOfFuel
  end.

#[global] Instance outcome_ret : MRet outcome := @Done.
#[global] Instance outcome_bind : MBind outcome := fun A B k m => bind m k.

(** [Array.prototype.reduce] / [for ... of] with a body that may throw *)
Fixpoint foldM {A S : Type} (f : S -> A -> outcome S) (s : S) (l : list A)
  : outcome S :=
  match l with
  | [] => Done s
  | a :: l' => s' ← f s a; foldM f s' l'
  end.

(** [Array.prototype.filter] with a predicate that may throw *)
Fixpoint filterM {A : Type} (p : A -> outcome bool) (l : list A)
  : outcome (list A) :=
  match l with
  | [] => Done []
  | a :: l' =>
      b ← p a;
      r ← filterM p l';
      Done (if b : bool then a :: r else r)
  end.

(** ** Arrays *)

(** [l.slice(from, to)] for non-negative arguments *)
Definition slice {A : Type} (from to : nat) (l : list A) : list A :=
  take (to - from) (drop from l).

(** [l.indexOf(x)]: the first position of [x], or -1 *)
Fixpoint indexOf (l : list nat) (x : nat) : Z :=
  match l with
  | [] => (-1)%Z
  | y :: l' =>
      if decide (y = x) then 0%Z
      else let i := indexOf l' x in
           if (i <? 0)%Z then (-1)%Z else (i + 1)%Z
  end.

(** [l.splice(start, 1)]: a negative [start] counts from the end *)
Definition splice1 {A : Type} (start : Z) (l : list A) : list A :=
  let len := Z.of_nat (length l) in
  let s := if (start <? 0)%Z then Z.max (len + start) 0 else Z.min start len in
  take (Z.to_nat s) l ++ drop (S (Z.to_nat s)) l.

(** [Array.prototype.sort(cmp)]: a stable insertion sort.  [cmp a b] is the
    number the comparator returns (it may throw); [a] goes after [b] only
    when that number is positive, and a NaN counts as +0 (ECMAScript,
    SortCompare). *)
Section Sort.
Context {A : Type} (cmp : A -> A -> outcome num).

Fixpoint sort_insert (a : A) (l : list A) : outcome (list A) :=
  match l with
  | [] => Done [a]
  | b :: l' =>
      c ← cmp a b;
      if gt c zero then r ← sort_insert a l'; Done (b :: r)
      else Done (a :: l)
  end.

Fixpoint js_sort (l : list A) : outcome (list A) :=
  match l with
  | [] => Done []
  | a :: l' => s ← js_sort l'; sort_insert a s
  end.
End Sort.

(** ** Points, routes and the problem instance *)

(** References to [Point] objects and to [Route] objects. *)
Abbreviation pid := nat.
Abbreviation rid := nat.

Module Point.
(** [class Point]; [distances] is the [WeakMap<Point, number>]. *)
Record t : Type := mk {
  x : num;
  y : num;
  demand : num;
  distances : gmap nat num
}.
End Point.

Module Route.
(** [class Route]; [points] holds references, the depot first. *)
Record t : Type := mk {
  points : list nat;
  depot : nat;
  id : nat
}.
End Route.

Module CWWeights.
(** [interface CWWeights] *)
Record t : Type := mk {
  adjacency : num;
  asymmetry : num;
  demand : num;
  minSavings : num
}.
End CWWeights.

Module Savings.
(** [interface Savings]; the two routes are references. *)
Record t : Type := mk {
  savings : num;
  routeA : nat;
  routeB : nat
}.
End Savings.

Module CW.
(** The fields of [ClarkeWrightProblem] that [solve] only reads, with the
    store of the [Point] objects the constructor created. *)
Record t : Type := mk {
  store : nat -> Point.t;
  points : list nat;
  maxDistance : num;
  depot : nat;
  averageDemand : num;
  maxDemand : num;
  maxPointDistance : num
}.
End CW.

(** The fields [solve] mutates, the heap of [Route] objects and the static
    counter [Route.id]. *)
Record State : Type := mkState {
  heap : gmap nat Route.t;
  solutions : list nat;
  savings : list Savings.t;
  joinedRoutes : gmap nat bool;
  next_id : nat
}.

(** Following a reference to a route. *)
Definition deref (st : State) (r : rid) : outcome Route.t :=
  match heap st !! r with
  | Some o => Done o
  | None => TypeError
  end.

(** ** class Point *)

(** A field of a possibly undefined point. *)
Definition field {A : Type} (pb : CW.t) (f : Point.t -> A) (p : option pid)
  : outcome A :=
  match p with
  | Some i => Done (f (CW.store pb i))
  | None => TypeError
  end.

(** [this.getDistanceTo(point)] *)
Definition getDistanceTo (pb : CW.t) (this point : option pid) : outcome num :=
  match this with
  | None => TypeError
  | Some p =>
      Done (match point with
            | Some q => default PInf (Point.distances (CW.store pb p) !! q)
            | None => PInf
            end)
  end.

(** ** class Route *)

(** [new Route(a, depot)] with the id the static counter hands out. *)
Definition new_Route (a depot : pid) (fresh : nat) : Route.t :=
  {| Route.points := [depot; a]; Route.depot := depot; Route.id := fresh |}.

(** [getStart()]: [this.points[1]] *)
Definition getStart (r : Route.t) : option pid := Route.points r !! 1.

(** [getEnd()]: [this.points[this.points.length - 1]] *)
Definition getEnd (r : Route.t) : option pid := last (Route.points r).

(** [this.joinRoute(route)]: the receiver after the push. *)
Definition joinRoute (this route : Route.t) : Route.t :=
  {| Route.points := Route.points this ++ drop 1 (Route.points route);
     Route.depot := Route.depot this;
     Route.id := Route.id this |}.

(** The body of the [forEach] in [totalDistance], on the pair [(prev, cost)]. *)
Definition totalDistance_step (pb : CW.t) (acc : option pid * num) (point : pid)
  : outcome (option pid * num) :=
  let '(prev, cost) := acc in
  if decide (Some point = prev) then Done acc
  else d ← getDistanceTo pb prev (Some point);
       Done (Some point, add cost d).

(** [totalDistance()] *)
Definition totalDistance (pb : CW.t) (r : Route.t) : outcome num :=
  '(prev, cost) ← foldM (totalDistance_step pb)
                    (Route.points r !! 0, zero) (Route.points r);
  d ← getDistanceTo pb prev (Some (Route.depot r));
  Done (add cost d).

(** [totalDemand()] *)
Definition totalDemand (pb : CW.t) (r : Route.t) : num :=
  foldl (fun sum point =>
           add sum (if decide (point = Route.depot r) then zero
                    else Point.demand (CW.store pb point)))
        zero (Route.points r).

(** [twoOptSwap(i, k)] *)
Definition twoOptSwap (r : Route.t) (i k : nat) : Route.t :=
  {| Route.points :=
       slice 0 (i + 1) (Route.points r)
       ++ reverse (slice (i + 1) (k + 1) (Route.points r))
       ++ drop (k + 1) (Route.points r);
     Route.depot := Route.depot r;
     Route.id := Route.id r |}.

(** The comparison of both [if]s of [twoOpt]:
    [a.getDistanceTo(b) + c.getDistanceTo(d)
       > a.getDistanceTo(c) + d.getDistanceTo(b)]. *)
Definition twoOpt_test (pb : CW.t) (a b c d : option pid) : outcome bool :=
  ab ← getDistanceTo pb a b;
  cd ← getDistanceTo pb c d;
  ac ← getDistanceTo pb a c;
  db ← getDistanceTo pb d b;
  Done (gt (add ab cd) (add ac db)).

(** The inner loop [for (var j = ...; j < length - 1; j++)] with [n]
    iterations left: [inl j] when the test fires at [j], [inr j] with the
    value [j] has when the loop exits. *)
Fixpoint twoOpt_inner (pb : CW.t) (pts : list pid) (i j n : nat)
  : outcome (nat + nat) :=
  match n with
  | 0 => Done (inr j)
  | S n' =>
      if decide (j - i = 1) then twoOpt_inner pb pts i (S j) n'
      else
        b ← twoOpt_test pb (pts !! i) (pts !! (i + 1))
                           (pts !! j) (pts !! (j + 1));
        if b : bool then Done (inl j) else twoOpt_inner pb pts i (S j) n'
  end.

(** The outer loop [for (let i = ...; i < length - 2; i++)] with [n]
    iterations left: the arguments of the swap, if one is due. *)
Fixpoint twoOpt_outer (pb : CW.t) (pts : list pid) (i n : nat)
  : outcome (option (nat * nat)) :=
  match n with
  | 0 => Done None
  | S n' =>
      r ← twoOpt_inner pb pts i (i + 2) (length pts - 1 - (i + 2));
      match r with
      | inl j => Done (Some (i, j))
      | inr j =>
          b ← twoOpt_test pb (pts !! i) (pts !! (i + 1))
                             (pts !! j) (pts !! 0);
          if b : bool then Done (Some (i, j))
          else twoOpt_outer pb pts (S i) n'
      end
  end.

(** The scan of [twoOpt]: which swap, if any, it performs. *)
Definition twoOpt_scan (pb : CW.t) (r : Route.t) : outcome (option (nat * nat)) :=
  twoOpt_outer pb (Route.points r) 0 (length (Route.points r) - 2).

(** [twoOpt()]: the route afterwards and the distance returned. *)
Definition twoOpt (pb : CW.t) (r : Route.t) : outcome (Route.t * num) :=
  s ← twoOpt_scan pb r;
  let r' := match s with
            | Some (i, k) => twoOptSwap r i k
            | None => r
            end in
  d ← totalDistance pb r';
  Done (r', d).

(** The loop of [optimise] with [n] iterations left; besides the route it
    answers how many times [twoOpt] ran. *)
Fixpoint optimise_loop (pb : CW.t) (r : Route.t) (bestDistance : num) (n : nat)
  : outcome (Route.t * nat) :=
  match n with
  | 0 => Done (r, 0)
  | S n' =>
      '(r', distance) ← twoOpt pb r;
      if strict_eq distance bestDistance then Done (r', 1)
      else '(r'', k) ← optimise_loop pb r' distance n';
           Done (r'', S k)
  end.

(** [optimise(maxIter)] *)
Definition optimise (pb : CW.t) (r : Route.t) (maxIter : nat)
  : outcome (Route.t * nat) :=
  optimise_loop pb r zero maxIter.

(** ** class ClarkeWrightProblem *)

(** [angle(p0, p1, p2)] *)
Definition angle (pb : CW.t) (p0 p1 p2 : option pid) : outcome num :=
  x0 ← field pb Point.x p0; y0 ← field pb Point.y p0;
  x1 ← field pb Point.x p1; y1 ← field pb Point.y p1;
  x2 ← field pb Point.x p2; y2 ← field pb Point.y p2;
  let a := add (pow2 (sub x1 x0)) (pow2 (sub y1 y0)) in
  let b := add (pow2 (sub x1 x2)) (pow2 (sub y1 y2)) in
  let c := add (pow2 (sub x2 x0)) (pow2 (sub y2 y0)) in
  Done (cos (acos (div (sub (add a b) c) (sqrt (mul (mul (Fin 4) a) b))))).

(** [calculateSavings(routeA, routeB, weights)] *)
Definition calculateSavings (pb : CW.t) (routeA routeB : Route.t)
    (weights : CWWeights.t) : outcome num :=
  let customerA := getEnd routeA in
  let customerB := getStart routeB in
  let depot := Some (CW.depot pb) in
  distDA ← getDistanceTo pb depot customerA;
  distDB ← getDistanceTo pb depot customerB;
  distAB ← getDistanceTo pb customerA customerB;
  let savingsAdjacency :=
    div (sub (add distDA distDB) (mul (CWWeights.adjacency weights) distAB))
        (CW.maxPointDistance pb) in
  ang ← angle pb customerA depot customerB;
  let savingsAsymmetry :=
    div (mul (CWWeights.asymmetry weights)
             (mul ang
                  (abs (sub (CW.maxPointDistance pb)
                            (div (sub distDA distDB) (Fin 2))))))
        (CW.maxPointDistance pb) in
  demandA ← field pb Point.demand customerA;
  demandB ← field pb Point.demand customerB;
  let savingsDemand :=
    div (mul (CWWeights.demand weights)
             (abs (sub (CW.averageDemand pb)
                       (div (add demandA demandB) (Fin 2)))))
        (CW.maxDemand pb) in
  Done (add (add savingsAdjacency savingsAsymmetry) savingsDemand).

(** [verifyRouteJoin(routeA, routeB)] *)
Definition verifyRouteJoin (pb : CW.t) (routeA routeB : Route.t) : outcome bool :=
  let depot := Some (CW.depot pb) in
  totalA ← totalDistance pb routeA;
  endToDepot ← getDistanceTo pb (getEnd routeA) depot;
  endToStart ← getDistanceTo pb (getEnd routeA) (getStart routeB);
  totalB ← totalDistance pb routeB;
  startToDepot ← getDistanceTo pb (getStart routeB) depot;
  let distance :=
    sub (add (add (sub totalA endToDepot) endToStart) totalB) startToDepot in
  Done (lt distance (CW.maxDistance pb)).

(** [this.joinedRoutes[id]] as a condition *)
Definition joined (st : State) (r : rid) : bool :=
  default false (joinedRoutes st !! r).

(** [routeA.joinRoute(routeB)] on the heap: the receiver is updated in
    place, the argument is only read. *)
Definition joinRoute_at (st : State) (this route : rid)
  : outcome (gmap nat Route.t) :=
  a ← deref st this;
  b ← deref st route;
  Done (<[this := joinRoute a b]> (heap st)).

(** [joinRoutes(routeA, routeB)] *)
Definition joinRoutes (pb : CW.t) (st : State) (routeA routeB : rid)
  : outcome (State * bool) :=
  a ← deref st routeA;
  b ← deref st routeB;
  ok ← verifyRouteJoin pb a b;
  if negb ok then Done (st, false)
  else
    h ← joinRoute_at st routeA routeB;
    Done ({| heap := h;
             solutions := splice1 (indexOf (solutions st) routeB) (solutions st);
             savings := savings st;
             joinedRoutes := <[routeB := true]> (<[routeA := true]> (joinedRoutes st));
             next_id := next_id st |}, true).

(** The callback of the inner [forEach] of [findAllRouteSavingsPairs]: what
    the pair [(route, otherRoute)] pushes onto [arr]. *)
Definition savingsPair (pb : CW.t) (weights : CWWeights.t) (st : State)
    (route : rid) (arr : list Savings.t) (otherRoute : rid)
  : outcome (list Savings.t) :=
  if decide (otherRoute = route) then Done arr
  else
    r ← deref st route;
    o ← deref st otherRoute;
    savingsAB ← calculateSavings pb r o weights;
    savingsBA ← calculateSavings pb o r weights;
    let a := if gt savingsAB savingsBA then route else otherRoute in
    let b := if decide (a = route) then otherRoute else route in
    let savings := max savingsAB savingsBA in
    if lt savings (CWWeights.minSavings weights) then Done arr
    else
      ra ← deref st a;
      rb ← deref st b;
      ok ← verifyRouteJoin pb ra rb;
      if ok : bool
      then Done (arr ++ [{| Savings.savings := savings;
                            Savings.routeA := a;
                            Savings.routeB := b |}])
      else Done arr.

(** The list [reduce] builds, before it is sorted. *)
Definition savingsPairs (pb : CW.t) (weights : CWWeights.t) (st : State)
  : outcome (list Savings.t) :=
  foldM (fun arr route =>
           foldM (savingsPair pb weights st route) arr (solutions st))
        [] (solutions st).

(** [findAllRouteSavingsPairs(weights)] *)
Definition findAllRouteSavingsPairs (pb : CW.t) (weights : CWWeights.t)
    (st : State) : outcome State :=
  arr ← savingsPairs pb weights st;
  sorted ← js_sort
             (fun a b => Done (sub (Savings.savings b) (Savings.savings a))) arr;
  Done {| heap := heap st;
          solutions := solutions st;
          savings := sorted;
          joinedRoutes := joinedRoutes st;
          next_id := next_id st |}.

(** The body of [for (const savings of this.savings)]. *)
Definition mergeCandidate (pb : CW.t) (st : State) (s : Savings.t)
  : outcome State :=
  let routeA := Savings.routeA s in
  let routeB := Savings.routeB s in
  if negb (joined st routeA) && negb (joined st routeB) then
    '(st', _) ← joinRoutes pb st routeA routeB; Done st'
  else if negb (joined st routeA) then
    match solutions st !! 0 with
    | Some first =>
        f ← deref st first;
        b ← deref st routeB;
        if decide (getStart f = getStart b)
        then '(st', _) ← joinRoutes pb st routeA first; Done st'
        else Done st
    | None => Done st
    end
  else if negb (joined st routeB) then
    match solutions st !! 0 with
    | Some first =>
        f ← deref st first;
        a ← deref st routeA;
        if decide (getEnd f = getEnd a)
        then '(st', _) ← joinRoutes pb st first routeB; Done st'
        else Done st
    | None => Done st
    end
  else Done st.

(** The callback of [this.solutions.forEach(solution => solution.optimise())]. *)
Definition optimiseSolution (pb : CW.t) (st : State) (solution : rid)
  : outcome State :=
  r ← deref st solution;
  '(r', _) ← optimise pb r 100;
  Done {| heap := <[solution := r']> (heap st);
          solutions := solutions st;
          savings := savings st;
          joinedRoutes := joinedRoutes st;
          next_id := next_id st |}.

(** One turn of the [while] loop of [solve]. *)
Definition solveRound (pb : CW.t) (weights : CWWeights.t) (optimise : bool)
    (st : State) : outcome State :=
  st1 ← foldM (mergeCandidate pb) st (savings st);
  st2 ← (if optimise then foldM (optimiseSolution pb) st1 (solutions st1)
         else Done st1);
  findAllRouteSavingsPairs pb weights
    {| heap := heap st2; solutions := solutions st2; savings := savings st2;
       joinedRoutes := ∅; next_id := next_id st2 |}.

(** [while (this.savings.length) { ... }] *)
Fixpoint solveLoop (pb : CW.t) (weights : CWWeights.t) (optimise : bool)
    (fuel : nat) (st : State) : outcome State :=
  match savings st with
  | [] => Done st
  | _ :: _ =>
      match fuel with
      | 0 => OutOfFuel
      | S fuel' =>
          st' ← solveRound pb weights optimise st;
          solveLoop pb weights optimise fuel' st'
      end
  end.

(** [this.solutions = this.points.map(point => new Route(point, this.depot))]:
    the heap and the references of the new routes, [fresh] being the value of
    [Route.id] before the call. *)
Fixpoint newRoutes (depot : pid) (pts : list pid) (fresh : nat)
  : gmap nat Route.t * list rid :=
  match pts with
  | [] => (∅, [])
  | p :: pts' =>
      let '(h, ids) := newRoutes depot pts' (S fresh) in
      (<[fresh := new_Route p depot fresh]> h, fresh :: ids)
  end.

(** The state of [solve] once the singleton routes exist. *)
Definition initialState (pb : CW.t) (fresh : nat) : State :=
  let '(h, ids) := newRoutes (CW.depot pb) (CW.points pb) fresh in
  {| heap := h; solutions := ids; savings := []; joinedRoutes := ∅;
     next_id := fresh + length (CW.points pb) |}.

(** The predicate of the final [filter]. *)
Definition withinCap (pb : CW.t) (st : State) (route : rid) : outcome bool :=
  r ← deref st route;
  d ← totalDistance pb r;
  Done (lt d (CW.maxDistance pb)).

(** The comparator of the final [sort]. *)
Definition densityOrder (pb : CW.t) (st : State) (a b : rid) : outcome num :=
  rb ← deref st b;
  db ← totalDistance pb rb;
  ra ← deref st a;
  da ← totalDistance pb ra;
  Done (sub (div (totalDemand pb rb) db) (div (totalDemand pb ra) da)).

(** [solve(weights, optimise)]: the final state and the references of the
    routes returned.  [fresh] is the value of the static [Route.id] on
    entry; [joinedRoutes] is empty on entry, as the constructor and every
    completed turn of the loop leave it. *)
Definition solve (pb : CW.t) (weights : CWWeights.t) (optimise : bool)
    (fresh : nat) : outcome (State * list rid) :=
  st0 ← findAllRouteSavingsPairs pb weights (initialState pb fresh);
  st ← solveLoop pb weights optimise (S (length (CW.points pb))) st0;
  kept ← filterM (withinCap pb st) (solutions st);
  sorted ← js_sort (densityOrder pb st) kept;
  Done (st, sorted).

Module Customer.
(** [interface Customer] *)
Record t : Type := mk {
  lon : num;
  lat : num;
  demand : num
}.
End Customer.

Module Options.
(** [interface ClarkeWrightProblemOptions] *)
Record t : Type := mk {
  customers : list Customer.t;
  depot : num * num;
  maxDistance : num
}.
End Options.

(** ** The constructor of [ClarkeWrightProblem] *)
Section Constructor.
(** [getDistance(a, b, { units: 'degrees' })] of [@turf/distance]. *)
Variable getDistance : num * num → num * num → num.
(** The order [sort(() => Math.random() - 0.5)] leaves an array in. *)
Variable shuffle : list pid → list pid.

(** The [Point] objects under construction. *)
Definition coordinates (h : gmap nat Point.t) (p : pid) : num * num :=
  match h !! p with
  | Some o => (Point.x o, Point.y o)
  | None => (NaN, NaN)
  end.

(** [this.setDistanceTo(point, distance)] *)
Definition setDistanceTo (h : gmap nat Point.t) (this point : pid) (d : num)
  : gmap nat Point.t :=
  alter (fun o => {| Point.x := Point.x o; Point.y := Point.y o;
                     Point.demand := Point.demand o;
                     Point.distances := <[point := d]> (Point.distances o) |})
        this h.

(** [options.customers.map(customer => Point.fromCustomer(customer))]: the
    new objects get the references [first], [first + 1], ... *)
Fixpoint fromCustomers (cs : list Customer.t) (first : pid)
  : gmap nat Point.t * list pid :=
  match cs with
  | [] => (∅, [])
  | c :: cs' =>
      let '(h, ps) := fromCustomers cs' (S first) in
      (<[first := {| Point.x := Customer.lon c; Point.y := Customer.lat c;
                     Point.demand := Customer.demand c;
                     Point.distances := ∅ |}]> h,
       first :: ps)
  end.

(** The body of [for (const otherPoint of this.points)]. *)
Definition measurePair (point : pid) (acc : gmap nat Point.t * num)
    (otherPoint : pid) : gmap nat Point.t * num :=
  let '(h, maxPointDistance) := acc in
  let distance := getDistance (coordinates h point) (coordinates h otherPoint) in
  (setDistanceTo h point otherPoint distance,
   if gt distance maxPointDistance then distance else maxPointDistance).

(** The body of [for (const point of this.points)]. *)
Definition measurePoint (points : list pid) (depot : pid)
    (acc : gmap nat Point.t * num) (point : pid) : gmap nat Point.t * num :=
  let '(h, maxPointDistance) := foldl (measurePair point) acc points in
  let depotDistance := getDistance (coordinates h point) (coordinates h depot) in
  (setDistanceTo (setDistanceTo h point depot depotDistance)
                 depot point depotDistance,
   maxPointDistance).

(** [new ClarkeWrightProblem(options)]; the depot is the object [0], the
    customers are the objects from [1] on. *)
Definition construct (options : Options.t) : CW.t :=
  let depot := 0 in
  let depotPoint := {| Point.x := (Options.depot options).1;
                       Point.y := (Options.depot options).2;
                       Point.demand := zero; Point.distances := ∅ |} in
  let '(h0, created) := fromCustomers (Options.customers options) 1 in
  let points := shuffle created in
  let '(h, maxPointDistance) :=
    foldl (measurePoint points depot) (<[depot := depotPoint]> h0, NInf) points in
  let demandOf p := from_option Point.demand NaN (h !! p) in
  {| CW.store := fun p => default depotPoint (h !! p);
     CW.points := points;
     CW.maxDistance := Options.maxDistance options;
     CW.depot := depot;
     CW.averageDemand :=
       div (foldl (fun sum point => add sum (demandOf point)) zero points)
           (Fin (INR (length points)));
     CW.maxDemand :=
       foldl (fun max point => if lt max (demandOf point)
                               then demandOf point else max) NInf points;
     CW.maxPointDistance := maxPointDistance |}.
End Constructor.

(** ** What the specification calls things *)

(** The stored distance between two points, [Infinity] when unset. *)
Definition distance (pb : CW.t) (p q : pid) : num :=
  default PInf (Point.distances (CW.store pb p) !! q).

(** The merged-route estimate of the feasibility check, in the words of the
    specification: [routeA.totalDistance() - distance(A_end, depot)
    + distance(A_end, B_start) + routeB.totalDistance()
    - distance(depot, B_start)]. *)
Definition feasibilityEstimate (pb : CW.t) (routeA routeB : Route.t)
  : outcome num :=
  match getEnd routeA, getStart routeB with
  | Some aEnd, Some bStart =>
      totalA ← totalDistance pb routeA;
      totalB ← totalDistance pb routeB;
      Done (sub (add (add (sub totalA (distance pb aEnd (CW.depot pb)))
                          (distance pb aEnd bStart))
                     totalB)
                (distance pb (CW.depot pb) bStart))
  | _, _ => TypeError
  end.

(** Reversing the stretch between the edges leaving positions [i] and [j] of
    a tour (the edge leaving the last position returns to position 0)
    improves it: the two edges it removes cost strictly more than the two it
    adds. *)
Definition improving (pb : CW.t) (pts : list pid) (i j : nat) : Prop :=
  ∃ a b c d,
    pts !! i = Some a ∧ pts !! (i + 1) = Some b ∧
    pts !! j = Some c ∧ pts !! ((j + 1) mod length pts) = Some d ∧
    gt (add (distance pb a b) (distance pb c d))
       (add (distance pb a c) (distance pb d b)) = true.

(** No 2-opt reversal improves the route. *)
Definition locallyOptimal (pb : CW.t) (r : Route.t) : Prop :=
  ∀ i j, i + 2 ≤ j → j < length (Route.points r) →
         ¬ improving pb (Route.points r) i j.

(** The order in which [twoOpt] examines the pairs of positions. *)
Definition scannedBefore (p q : nat * nat) : Prop :=
  p.1 < q.1 ∨ (p.1 = q.1 ∧ p.2 < q.2).

(** [n] calls of [twoOpt] in a row, whatever they return: the route
    afterwards and the distances returned, the first call first. *)
Fixpoint twoOptPasses (pb : CW.t) (r : Route.t) (n : nat)
  : outcome (Route.t * list num) :=
  match n with
  | 0 => Done (r, [])
  | S n' =>
      '(r', d) ← twoOpt pb r;
      '(r'', ds) ← twoOptPasses pb r' n';
      Done (r'', d :: ds)
  end.

(** The distance the [k]-th pass (from 0) is compared with: [first] for the
    first pass, the distance of the pass before for the others. *)
Definition previousDistance (first : num) (ds : list num) (k : nat) : num :=
  match k with
  | 0 => first
  | S k' => default zero (ds !! k')
  end.

(** The points of a route other than its depot. *)
Definition customersOf (r : Route.t) : list pid :=
  filter (fun p => p ≠ Route.depot r) (Route.points r).

(** The routes a list of references stands for (a dangling reference stands
    for none). *)
Definition routesOf (st : State) (rs : list rid) : list Route.t :=
  omap (fun r => heap st !! r) rs.

(** The non-depot points of the active routes, route by route. *)
Definition activeCustomers (st : State) : list pid :=
  routesOf st (solutions st) ≫= customersOf.

(** The active routes partition the customers: their non-depot points are
    the customers, each once. *)
Definition partitionsCustomers (pb : CW.t) (st : State) : Prop :=
  activeCustomers st ≡ₚ CW.points pb.

(** What the constructor guarantees of the points it creates: the customers
    are distinct objects, none of them the depot. *)
Definition distinctPoints (pb : CW.t) : Prop :=
  NoDup (CW.points pb) ∧ CW.depot pb ∉ CW.points pb.

(** The states [solve] goes through. *)
Section Visited.
Context (pb : CW.t) (weights : CWWeights.t) (optimise : bool) (fresh : nat).

(** At the test of the [while] loop. *)
Inductive atLoopTest : State → Prop :=
| test_first st :
    findAllRouteSavingsPairs pb weights (initialState pb fresh) = Done st →
    atLoopTest st
| test_next st st' :
    atLoopTest st → savings st ≠ [] →
    solveRound pb weights optimise st = Done st' →
    atLoopTest st'.

Inductive visited : State → Prop :=
| visited_initial : visited (initialState pb fresh)
| visited_test st : atLoopTest st → visited st
| visited_merging st k st' :
    (* after [k] turns of the [for] loop over the candidates *)
    atLoopTest st → savings st ≠ [] →
    foldM (mergeCandidate pb) st (take k (savings st)) = Done st' →
    visited st'
| visited_optimising st st1 k st' :
    (* after [k] routes have been optimised *)
    atLoopTest st → savings st ≠ [] →
    foldM (mergeCandidate pb) st (savings st) = Done st1 →
    optimise = true →
    foldM (optimiseSolution pb) st1 (take k (solutions st1)) = Done st' →
    visited st'.
End Visited.

(** ** Notions the proofs use *)

(** The loop of [totalDistance] from a defined [prev]: the last point seen
    and the cost so far. *)
Fixpoint walk (pb : CW.t) (prev : pid) (cost : num) (l : list pid) : pid * num :=
  match l with
  | [] => (prev, cost)
  | q :: l' =>
      if decide (q = prev) then walk pb prev cost l'
      else walk pb q (add cost (distance pb prev q)) l'
  end.

(** Every two distinct points of [l] have a finite distance stored in both
    directions, the same in both: what the constructor leaves behind for the
    customers and the depot. *)
Definition populated (pb : CW.t) (l : list pid) : Prop :=
  ∀ p q, p ∈ l → q ∈ l → p ≠ q →
         ∃ x : R, distance pb p q = Fin x ∧ distance pb q p = Fin x.

(** A route of the problem: its depot is the problem's, it starts there and
    goes on through one customer at least, none of them the depot. *)
Definition shaped (pb : CW.t) (r : Route.t) : Prop :=
  Route.depot r = CW.depot pb ∧
  ∃ c t, Route.points r = CW.depot pb :: c :: t ∧ CW.depot pb ∉ c :: t.

(** The length of a leg and of a path, as reals. *)
Definition leg (pb : CW.t) (p q : pid) : R :=
  match distance pb p q with Fin x => x | _ => 0%R end.

Fixpoint pathLength (pb : CW.t) (prev : pid) (l : list pid) : R :=
  match l with
  | [] => 0%R
  | q :: l' =>
      if decide (q = prev) then pathLength pb prev l'
      else (leg pb prev q + pathLength pb q l')%R
  end.

(** What the scan of [twoOpt] from row [lo] on may answer. *)
Definition scanResult (pb : CW.t) (pts : list pid) (lo : nat)
    (res : option (nat * nat)) : Prop :=
  match res with
  | Some (i, k) =>
      lo ≤ i ∧ i + 2 ≤ k ∧ k < length pts ∧ improving pb pts i k ∧
      ∀ i' j', lo ≤ i' → i' + 2 ≤ j' → j' < length pts →
               scannedBefore (i', j') (i, k) → ¬ improving pb pts i' j'
  | None =>
      ∀ i' j', lo ≤ i' → i' + 2 ≤ j' → j' < length pts →
               ¬ improving pb pts i' j'
  end.

(** A route object the engine can use: it has a start and an end. *)
Definition usable (st : State) (r : rid) : Prop :=
  ∃ o, heap st !! r = Some o ∧ 2 ≤ length (Route.points o).

(** A candidate as [findAllRouteSavingsPairs] makes them: two different
    active routes that [verifyRouteJoin] accepts. *)
Definition verified (pb : CW.t) (st : State) (c : Savings.t) : Prop :=
  Savings.routeA c ∈ solutions st ∧ Savings.routeB c ∈ solutions st ∧
  Savings.routeA c ≠ Savings.routeB c ∧
  ∃ a b, heap st !! Savings.routeA c = Some a ∧
         heap st !! Savings.routeB c = Some b ∧
         verifyRouteJoin pb a b = Done true.

(** Every reference the engine holds leads to a usable route. *)
Definition sane (st : State) : Prop :=
  (∀ r, r ∈ solutions st → usable st r) ∧
  (∀ c, c ∈ savings st →
        usable st (Savings.routeA c) ∧ usable st (Savings.routeB c)).

(** The shape of the state at the test of the [while] loop. *)
Definition atTest (pb : CW.t) (st : State) : Prop :=
  (∀ r, r ∈ solutions st → usable st r) ∧
  joinedRoutes st = ∅ ∧
  ∀ c, c ∈ savings st → verified pb st c.

(** The non-depot points behind a reference. *)
Definition cust (st : State) (r : rid) : list pid :=
  from_option customersOf [] (heap st !! r).

(** The active routes are distinct well-shaped routes that partition the
    customers. *)
Definition wellRouted (pb : CW.t) (st : State) : Prop :=
  NoDup (solutions st) ∧
  (∀ r, r ∈ solutions st → ∃ o, heap st !! r = Some o ∧ shaped pb o) ∧
  partitionsCustomers pb st.

(** The bookkeeping of one turn of the [for] loop: the points of a route
    marked as joined sit in an active route marked as joined, and a
    candidate route not marked is still active. *)
Definition merging (pb : CW.t) (st : State) : Prop :=
  (∀ r, joined st r = true →
        ∃ o, heap st !! r = Some o ∧ shaped pb o ∧
             ∀ p, p ∈ customersOf o →
                  ∃ x, x ∈ solutions st ∧ joined st x = true ∧ p ∈ cust st x) ∧
  (∀ c, c ∈ savings st →
        Savings.routeA c ≠ Savings.routeB c ∧
        (joined st (Savings.routeA c) = false →
         Savings.routeA c ∈ solutions st) ∧
        (joined st (Savings.routeB c) = false →
         Savings.routeB c ∈ solutions st)).

(** The customer [p] is in exactly one active route. *)
Definition inOneActiveRoute (st : State) (p : pid) : Prop :=
  ∃ r, r ∈ solutions st ∧ p ∈ cust st r ∧
       ∀ r', r' ∈ solutions st → p ∈ cust st r' → r' = r.

(** A customer standing on the depot: depot [0] at (0, 0), customer [1] at
    (0, 0) and customer [2] at (1, 0), with the distances between them. *)
Definition onDepotStore (p : pid) : Point.t :=
  match p with
  | 0 => {| Point.x := Fin 0; Point.y := Fin 0; Point.demand := Fin 0;
            Point.distances := {[ 1 := Fin 0; 2 := Fin 1 ]} |}
  | 1 => {| Point.x := Fin 0; Point.y := Fin 0; Point.demand := Fin 1;
            Point.distances := {[ 0 := Fin 0; 1 := Fin 0; 2 := Fin 1 ]} |}
  | _ => {| Point.x := Fin 1; Point.y := Fin 0; Point.demand := Fin 1;
            Point.distances := {[ 0 := Fin 1; 1 := Fin 1; 2 := Fin 0 ]} |}
  end.

Definition onDepot : CW.t :=
  {| CW.store := onDepotStore;
     CW.points := [1; 2];
     CW.maxDistance := Fin 10;
     CW.depot := 0;
     CW.averageDemand := Fin 1;
     CW.maxDemand := Fin 1;
     CW.maxPointDistance := Fin 1 |}.

Definition unitWeights : CWWeights.t :=
  {| CWWeights.adjacency := Fin 1; CWWeights.asymmetry := Fin 1;
     CWWeights.demand := Fin 1; CWWeights.minSavings := Fin 0 |}.

(** A route through both customers of [onDepot]. *)
Definition bothCustomers : Route.t :=
  {| Route.points := [0; 1; 2]; Route.depot := 0; Route.id := 0 |}.

(** A route that crosses itself: the corners of a square, the depot at
    corner [0], visited in the order 0, 2, 1, 3 (sides 1, diagonals 1.5). *)
Definition squareStore (p : pid) : Point.t :=
  let side := Fin 1 in
  let diagonal := Fin (3 / 2) in
  match p with
  | 0 => {| Point.x := Fin 0; Point.y := Fin 0; Point.demand := Fin 0;
            Point.distances := {[ 1 := side; 2 := diagonal; 3 := side ]} |}
  | 1 => {| Point.x := Fin 1; Point.y := Fin 0; Point.demand := Fin 1;
            Point.distances := {[ 0 := side; 2 := side; 3 := diagonal ]} |}
  | 2 => {| Point.x := Fin 1; Point.y := Fin 1; Point.demand := Fin 1;
            Point.distances := {[ 0 := diagonal; 1 := side; 3 := side ]} |}
  | _ => {| Point.x := Fin 0; Point.y := Fin 1; Point.demand := Fin 1;
            Point.distances := {[ 0 := side; 1 := diagonal; 2 := side ]} |}
  end.

Definition square : CW.t :=
  {| CW.store := squareStore; CW.points := [1; 2; 3];
     CW.maxDistance := Fin 10; CW.depot := 0;
     CW.averageDemand := Fin 1; CW.maxDemand := Fin 1;
     CW.maxPointDistance := Fin (3 / 2) |}.

Definition crossed : Route.t :=
  {| Route.points := [0; 2; 1; 3]; Route.depot := 0; Route.id := 0 |}.

(** The same corners in the order 0, 1, 2, 3, along the sides. *)
Definition uncrossed : Route.t :=
  {| Route.points := [0; 1; 2; 3]; Route.depot := 0; Route.id := 0 |}.

(** ** The loops of the constructor, as the proofs see them *)

(** The distance object [p] stores for [q], if any. *)
Definition stored (h : gmap nat Point.t) (p q : pid) : option num :=
  o ← h !! p; Point.distances o !! q.

(** The state of the loops: the objects exist and keep the coordinates
    [c]. *)
Definition measuring (c : pid → num * num) (dom : list pid)
    (h : gmap nat Point.t) : Prop :=
  (∀ p, p ∈ dom → is_Some (h !! p)) ∧ (∀ p, coordinates h p = c p).

(** The distances from and to [p] are those of [getDistance]. *)
Definition measured (getDistance : num * num → num * num → num)
    (c : pid → num * num) (pts : list pid) (depot : pid)
    (h : gmap nat Point.t) (p : pid) : Prop :=
  (∀ q, q ∈ pts → stored h p q = Some (getDistance (c p) (c q))) ∧
  stored h p depot = Some (getDistance (c p) (c depot)) ∧
  stored h depot p = Some (getDistance (c p) (c depot)).

(** * The methods of [Route] over binary64

    The embedding above computes with exact reals.  Where the rounding of
    the additions decides a property, the methods of [Route] are embedded a
    second time, on IEEE-754 binary64 numbers, which is what a JavaScript
    [number] is: [+] is [PrimFloat.add], [a > b] is [PrimFloat.ltb b a],
    [===] on numbers is [PrimFloat.eqb], and a literal such as [0.3] is the
    binary64 number nearest to it.  Routes are the same objects as above,
    [twoOptSwap] included: they hold references and no numbers. *)

Module Binary64.
Import PrimFloat.

(** [class Point]; [distances] is the [WeakMap<Point, number>]. *)
Record Point : Type := mkPoint {
  x : float;
  y : float;
  demand : float;
  distances : gmap nat float
}.

(** The [Point] objects by reference. *)
Definition store : Type := pid → Point.

(** [this.getDistanceTo(point)] *)
Definition getDistanceTo (pb : store) (this point : option pid)
  : outcome float :=
  match this with
  | None => TypeError
  | Some p =>
      Done (match point with
            | Some q => default infinity (distances (pb p) !! q)
            | None => infinity
            end)
  end.

(** The body of the [forEach] in [totalDistance], on the pair [(prev, cost)]. *)
Definition totalDistance_step (pb : store) (acc : option pid * float)
    (point : pid) : outcome (option pid * float) :=
  let '(prev, cost) := acc in
  if decide (Some point = prev) then Done acc
  else d ← getDistanceTo pb prev (Some point);
       Done (Some point, (cost + d)%float).

(** [totalDistance()] *)
Definition totalDistance (pb : store) (r : Route.t) : outcome float :=
  '(prev, cost) ← foldM (totalDistance_step pb)
                    (Route.points r !! 0, 0%float) (Route.points r);
  d ← getDistanceTo pb prev (Some (Route.depot r));
  Done (cost + d)%float.

(** What [totalDemand()] adds for a point. *)
Definition summand (pb : store) (r : Route.t) (point : pid) : float :=
  if decide (point = Route.depot r) then 0%float else demand (pb point).

(** [totalDemand()] *)
Definition totalDemand (pb : store) (r : Route.t) : float :=
  foldl (fun sum point => (sum + summand pb r point)%float)
        0%float (Route.points r).

(** The comparison of both [if]s of [twoOpt]:
    [a.getDistanceTo(b) + c.getDistanceTo(d)
       > a.getDistanceTo(c) + d.getDistanceTo(b)]. *)
Definition twoOpt_test (pb : store) (a b c d : option pid) : outcome bool :=
  ab ← getDistanceTo pb a b;
  cd ← getDistanceTo pb c d;
  ac ← getDistanceTo pb a c;
  db ← getDistanceTo pb d b;
  Done (ltb (ac + db) (ab + cd)).

(** The inner loop [for (var j = ...; j < length - 1; j++)] with [n]
    iterations left: [inl j] when the test fires at [j], [inr j] with the
    value [j] has when the loop exits. *)
Fixpoint twoOpt_inner (pb : store) (pts : list pid) (i j n : nat)
  : outcome (nat + nat) :=
  match n with
  | 0 => Done (inr j)
  | S n' =>
      if decide (j - i = 1) then twoOpt_inner pb pts i (S j) n'
      else
        b ← twoOpt_test pb (pts !! i) (pts !! (i + 1))
                           (pts !! j) (pts !! (j + 1));
        if b : bool then Done (inl j) else twoOpt_inner pb pts i (S j) n'
  end.

(** The outer loop [for (let i = ...; i < length - 2; i++)] with [n]
    iterations left: the arguments of the swap, if one is due. *)
Fixpoint twoOpt_outer (pb : store) (pts : list pid) (i n : nat)
  : outcome (option (nat * nat)) :=
  match n with
  | 0 => Done None
  | S n' =>
      r ← twoOpt_inner pb pts i (i + 2) (length pts - 1 - (i + 2));
      match r with
      | inl j => Done (Some (i, j))
      | inr j =>
          b ← twoOpt_test pb (pts !! i) (pts !! (i + 1))
                             (pts !! j) (pts !! 0);
          if b : bool then Done (Some (i, j))
          else twoOpt_outer pb pts (S i) n'
      end
  end.

(** The scan of [twoOpt]: which swap, if any, it performs. *)
Definition twoOpt_scan (pb : store) (r : Route.t)
  : outcome (option (nat * nat)) :=
  twoOpt_outer pb (Route.points r) 0 (length (Route.points r) - 2).

(** [twoOpt()]: the route afterwards and the distance returned. *)
Definition twoOpt (pb : store) (r : Route.t) : outcome (Route.t * float) :=
  s ← twoOpt_scan pb r;
  let r' := match s with
            | Some (i, k) => twoOptSwap r i k
            | None => r
            end in
  d ← totalDistance pb r';
  Done (r', d).

(** The loop of [optimise] with [n] iterations left; besides the route it
    answers how many times [twoOpt] ran. *)
Fixpoint optimise_loop (pb : store) (r : Route.t) (bestDistance : float)
    (n : nat) : outcome (Route.t * nat) :=
  match n with
  | 0 => Done (r, 0)
  | S n' =>
      '(r', distance) ← twoOpt pb r;
      if eqb distance bestDistance then Done (r', 1)
      else '(r'', k) ← optimise_loop pb r' distance n';
           Done (r'', S k)
  end.

(** [optimise(maxIter)] *)
Definition optimise (pb : store) (r : Route.t) (maxIter : nat)
  : outcome (Route.t * nat) :=
  optimise_loop pb r 0%float maxIter.


(** The corners of the unit square: the depot [0] at (0, 0), the customers
    [1] at (0, 1), [2] at (1, 0) and [3] at (1, 1), with demands 0.3, 0.1
    and 0.2 and the Euclidean distances, rounded ([diagonal] is the binary64
    square root of 2). *)
Definition diagonal : float := sqrt 2%float.



End Binary64.

(** * The rest of the solver, and the predictive solver

    Sources: [src/savings-solver/savings-solver.ts] (the constructor and the
    methods of [Route] seen from their callers; the class
    [PredictiveSolver]) and [src/predictive-solver/target-interception.ts].

    Modelling decisions for [PredictiveSolver].
    - A position [[lon, lat]] is a pair of numbers; the arrays of positions
      that [solve] builds are objects, kept in a list in the order of their
      creation and referred to by their index, so that a [push] onto the
      active path shows in [paths] when the path is already there, and
      [paths.indexOf(activePath)] compares references.
    - The functions of [@turf] and of [vecta] are parameters: [getDistance]
      and the vector methods answer values, [lineSliceAlong] may throw
      (inside the [try] of [trimTargetPath]) or answer a geometry with or
      without coordinates. *)

(** ** Candidates and orders *)

(** The candidate the ordered pair [(route, otherRoute)] of two different
    routes stands for: its score is the larger of the two savings, its
    first route is [route] when the savings of [route] before [otherRoute]
    are strictly the larger and [otherRoute] when they are not; the test
    [savings < minSavings] is false for the score, as it is for a score
    that is NaN, and [verifyRouteJoin] accepts the two routes in that
    order. *)
Definition proposes (pb : CW.t) (w : CWWeights.t) (st : State)
    (route other : rid) (c : Savings.t) : Prop :=
  other ≠ route ∧
  ∃ r o sAB sBA ra rb,
    heap st !! route = Some r ∧ heap st !! other = Some o ∧
    calculateSavings pb r o w = Done sAB ∧
    calculateSavings pb o r w = Done sBA ∧
    Savings.savings c = max sAB sBA ∧
    Savings.routeA c = (if gt sAB sBA then route else other) ∧
    Savings.routeB c = (if gt sAB sBA then other else route) ∧
    lt (max sAB sBA) (CWWeights.minSavings w) = false ∧
    heap st !! Savings.routeA c = Some ra ∧
    heap st !! Savings.routeB c = Some rb ∧
    verifyRouteJoin pb ra rb = Done true.

(** A list in descending order of [key]: no element has a key strictly
    below the key of a later one. *)
Definition descending {A : Type} (key : A → num) (l : list A) : Prop :=
  ∀ i j x y, i < j → l !! i = Some x → l !! j = Some y →
             lt (key x) (key y) = false.

(** [route.totalDemand() / route.totalDistance()] of the route behind a
    reference. *)
Definition demandDensity (pb : CW.t) (st : State) (r : rid) : num :=
  match heap st !! r with
  | Some o =>
      match totalDistance pb o with
      | Done d => div (totalDemand pb o) d
      | _ => NaN
      end
  | None => NaN
  end.

(** Two customers in line with the depot: depot [0] at (0, 0), customer [1]
    at (1, 0) and customer [2] at (2, 0), with the distances between them. *)
Definition inLineStore (p : pid) : Point.t :=
  match p with
  | 0 => {| Point.x := Fin 0; Point.y := Fin 0; Point.demand := Fin 0;
            Point.distances := {[ 1 := Fin 1; 2 := Fin 2 ]} |}
  | 1 => {| Point.x := Fin 1; Point.y := Fin 0; Point.demand := Fin 1;
            Point.distances := {[ 0 := Fin 1; 1 := Fin 0; 2 := Fin 1 ]} |}
  | _ => {| Point.x := Fin 2; Point.y := Fin 0; Point.demand := Fin 1;
            Point.distances := {[ 0 := Fin 2; 1 := Fin 1; 2 := Fin 0 ]} |}
  end.

Definition inLine : CW.t :=
  {| CW.store := inLineStore;
     CW.points := [1; 2];
     CW.maxDistance := Fin 10;
     CW.depot := 0;
     CW.averageDemand := Fin 1;
     CW.maxDemand := Fin 1;
     CW.maxPointDistance := Fin 1 |}.

(** The problem [onDepot] with a vehicle that cannot move. *)
Definition noRange : CW.t :=
  {| CW.store := onDepotStore;
     CW.points := [1; 2];
     CW.maxDistance := Fin 0;
     CW.depot := 0;
     CW.averageDemand := Fin 1;
     CW.maxDemand := Fin 1;
     CW.maxPointDistance := Fin 1 |}.

(** The state of [onDepot] with its second route no longer active. *)
Definition oneActive : State :=
  {| heap := heap (initialState onDepot 0);
     solutions := [0];
     savings := [];
     joinedRoutes := ∅;
     next_id := 2 |}.

(** Where a point of the problem lies: [[point.x, point.y]]. *)
Definition position (pb : CW.t) (p : pid) : num * num :=
  (Point.x (CW.store pb p), Point.y (CW.store pb p)).

(** The fields of a [Point] object under construction other than its
    distances. *)
Definition fieldsOf (h : gmap nat Point.t) (p : pid)
  : option (num * num * num) :=
  (fun o => (Point.x o, Point.y o, Point.demand o)) <$> h !! p.

(** [getDistance] as the number of degrees between two longitudes on the
    equator, and a [sort] that leaves the array as it is. *)
Definition alongEquator (a b : num * num) : num := abs (sub a.1 b.1).

Definition unshuffled (l : list pid) : list pid := l.

(** The places the constructor measures distances between: the depot and
    the customers. *)
Definition places (options : Options.t) : list (num * num) :=
  Options.depot options
  :: map (fun cu => (Customer.lon cu, Customer.lat cu))
         (Options.customers options).

(** A depot at (0, 0) with customers at (1, 0) and (3, 0). *)
Definition twoCustomers : Options.t :=
  {| Options.customers :=
       [ {| Customer.lon := Fin 1; Customer.lat := Fin 0;
            Customer.demand := Fin 2 |};
         {| Customer.lon := Fin 3; Customer.lat := Fin 0;
            Customer.demand := Fin 4 |} ];
     Options.depot := (Fin 0, Fin 0);
     Options.maxDistance := Fin 10 |}.

(** The problem the constructor makes of them. *)
Definition equatorProblem : CW.t :=
  construct alongEquator unshuffled twoCustomers.

(** No customers at all. *)
Definition noCustomers : Options.t :=
  {| Options.customers := [];
     Options.depot := (Fin 0, Fin 0);
     Options.maxDistance := Fin 10 |}.

Definition emptyProblem : CW.t :=
  construct alongEquator unshuffled noCustomers.

(** ** class PredictiveSolver *)

(** The closure [permute(arr, m)] of [PredictiveSolver.solve], on the array
    [permutations] it pushes to.  [curr.splice(i, 1)] takes the element at
    [i] out of the copy [curr] and answers it in an array of its own.
    [depth] bounds the nesting of the calls: every call passes an array one
    element shorter, so that the length of the first array is enough. *)
Fixpoint permute_at {A : Type} (depth : nat) (arr m : list A)
    (permutations : list (list A)) : list (list A) :=
  match arr with
  | [] => permutations ++ [m]
  | _ :: _ =>
      match depth with
      | 0 => permutations
      | S depth' =>
          foldl (fun permutations i =>
                   let curr := delete i arr in
                   let next := take 1 (drop i arr) in
                   permute_at depth' curr (m ++ next) permutations)
                permutations (seq 0 (length arr))
      end
  end.

(** [permutations] after [permute(futurePaths)]. *)
Definition permute {A : Type} (futurePaths : list A) : list (list A) :=
  permute_at (length futurePaths) futurePaths [] [].

(** What the orderings [permute] lists are. *)
Definition orderings_of {A} (arr : list A) (new : list (list A)) : Prop :=
  (∀ t, t ∈ new ↔ t ≡ₚ arr) ∧
  length new = fact (length arr) ∧
  head new = Some arr ∧
  (NoDup arr → NoDup new).

(** A position: [[lon, lat]]. *)
Abbreviation place := (num * num)%type.

Section FeasibleRoutes.
(** [getDistance(a, b, { units: 'degrees' })] of [@turf/distance]. *)
Variable getDistance : place → place → num.

(** The callback of [route.reduce] in [filterFeasibleRoutes], on the sum and
    the index; [index === route.length - 1] is [index + 1 = length route].
    Passing [undefined] to [getDistance] makes it throw. *)
Definition routeDistance_step (route : list place) (acc : num * nat)
    (point : place) : outcome (num * nat) :=
  let '(sum, index) := acc in
  if decide (index + 1 = length route) then Done (sum, S index)
  else match route !! (index + 1) with
       | Some next => Done (add sum (getDistance point next), S index)
       | None => TypeError
       end.

(** [routeDistance] of [filterFeasibleRoutes] *)
Definition routeDistance (route : list place) : outcome num :=
  '(sum, _) ← foldM (routeDistance_step route) (zero, 0) route;
  Done sum.

(** The predicate of the [filter]. *)
Definition feasibleRoute (maxRouteDistanceDeg : num) (route : list place)
  : outcome bool :=
  if decide (length route ≤ 2) then Done false
  else routeDistance ← routeDistance route;
       Done (lt routeDistance maxRouteDistanceDeg).

(** [filterFeasibleRoutes(paths, maxRouteDistanceDeg)] *)
Definition filterFeasibleRoutes (paths : list (list place))
    (maxRouteDistanceDeg : num) : outcome (list (list place)) :=
  filterM (feasibleRoute maxRouteDistanceDeg) paths.

(** The distances between the consecutive points of a route, and their sum
    from the left. *)
Definition hops (route : list place) : list num :=
  zip_with getDistance route (drop 1 route).

Definition hopSum (route : list place) : num := foldl add zero (hops route).
End FeasibleRoutes.

(** The callback of [points.reduce] in [trimTargetPath], on the array of
    pairs and the index.  JavaScript would answer [undefined] for a read
    past the end of [points] and push a pair with it; such a pair is no
    segment, and the model stops with [TypeError] there.  The test on the
    index keeps the callback from ever reading past the end. *)
Definition pairUp_step (points : list place)
    (acc : list (place * place) * nat) (point : place)
  : outcome (list (place * place) * nat) :=
  let '(lineAcc, pointIndex) := acc in
  if decide (pointIndex + 1 = length points) then Done (lineAcc, S pointIndex)
  else match points !! (pointIndex + 1) with
       | Some next => Done (lineAcc ++ [(point, next)], S pointIndex)
       | None => TypeError
       end.

(** The line of point pairs [trimTargetPath] makes of the points of the
    trimmed path. *)
Definition pairUp (points : list place) : outcome (list (place * place)) :=
  '(lineAcc, _) ← foldM (pairUp_step points) ([], 0) points;
  Done lineAcc.

(** [solveQuadratic(a, b, c, multiplier)] of [target-interception.ts] *)
Definition solveQuadratic (a b c multiplier : num) : num :=
  div (add (mul (Fin (-1)) b)
           (mul multiplier (sqrt (sub (mul b b) (mul (mul (Fin 4) a) c)))))
      (mul (Fin 2) a).

(** [a <= b] *)
Definition lte (a b : num) : bool := lt a b || strict_eq a b.

(** ** target-interception.ts *)

Module Math.
(** [Math.sin] *)
Definition sin (a : num) : num :=
  match a with
  | Fin x => Fin (Rtrigo_def.sin x)
  | _ => NaN
  end.
End Math.

Module TargetInterception.
Section Vecta.
(** The methods of the [vecta] package the function calls.  A [Vecta] is
    the pair of its coordinates: [new Vecta(x, y)] is [(x, y)], [getX()] and
    [getY()] are the projections.  The methods are taken to answer a new
    vector and to leave their receiver as it is, as the function uses
    them. *)
Variable Vecta_angleToRad : place → place → num.
Variable Vecta_mulScalar : place → num → place.
Variable Vecta_invert : place → place.
Variable Vecta_add : place → place → place.
Variable Vecta_sub : place → place → place.
Variable Vecta_dotProduct : place → place → num.

(** [findTargetLineInterception(line, targetSpeed, interceptorPosition,
    interceptorSpeed, timeDelay)] *)
Definition findTargetLineInterception (line : place * place)
    (targetSpeed : num) (interceptorPosition : place)
    (interceptorSpeed timeDelay : num) : place :=
  let bearing := Vecta_angleToRad line.1 line.2 in
  let lineGradientVector := (cos bearing, Math.sin bearing) in
  let targetMovementVector := Vecta_mulScalar lineGradientVector targetSpeed in
  let targetStartVector :=
    Vecta_mulScalar (Vecta_invert lineGradientVector)
                    (mul timeDelay targetSpeed) in
  let targetStart := Vecta_add line.1 targetStartVector in
  let vehicleStart := interceptorPosition in
  let a := sub (Vecta_dotProduct targetMovementVector targetMovementVector)
               (mul interceptorSpeed interceptorSpeed) in
  let b := mul (Fin 2)
               (Vecta_dotProduct (Vecta_sub targetStart vehicleStart)
                                 targetMovementVector) in
  let c := Vecta_dotProduct (Vecta_sub targetStart vehicleStart)
                            (Vecta_sub targetStart vehicleStart) in
  let solutionA := solveQuadratic a b c (Fin 1) in
  let solutionB := solveQuadratic a b c (Fin (-1)) in
  let interceptTime := max solutionA solutionB in
  Vecta_add targetStart (Vecta_mulScalar targetMovementVector interceptTime).
End Vecta.
End TargetInterception.

(** ** class PredictiveSolver, continued *)

Module TargetPath.
(** [interface TargetPath] *)
Record t : Type := mk {
  speed : num;
  positions : list place
}.
End TargetPath.

Module PredictiveSolver.

(** The variables of one turn of the loop over the permutations.  The
    arrays [solve] creates are objects: [arrays] holds them in the order of
    their creation, [paths] and [activePath] hold references to them, so
    that a push onto the active path shows in [paths] when it is there. *)
Record Build : Type := mkBuild {
  arrays : list (list place);
  paths : list nat;
  totalDistance : num;
  distanceElapsed : num;
  activePath : nat;
  lastPosition : place
}.

(** [bestNumPointsReached], [bestDistance] and [bestPath] ([None] for
    [null]). *)
Record Best : Type := mkBest {
  bestNumPointsReached : num;
  bestDistance : num;
  bestPath : option (list (list place))
}.

Section Solver.
(** [getDistance(a, b, { units: 'degrees' })] of [@turf/distance]. *)
Variable getDistance : place → place → num.
(** [lineSliceAlong(lineString(positions), start, stop, { units: 'degrees' })]
    of [@turf/line-slice-along] and [@turf/helpers]: [None] when one of the
    two throws, else the coordinates of the geometry answered, if it has
    any. *)
Variable lineSliceAlong : list place → num → num → option (option (list place)).
(** The import from [./target-interception]. *)
Variable findTargetLineInterception :
  place * place → num → place → num → num → place.

(** [trimTargetPath(timeElapsed, targetPath)]; [None] is [undefined]. *)
Definition trimTargetPath (timeElapsed : num) (targetPath : TargetPath.t)
  : outcome (option (list (place * place))) :=
  let targetDistanceTravelled := mul timeElapsed (TargetPath.speed targetPath) in
  match lineSliceAlong (TargetPath.positions targetPath)
                       targetDistanceTravelled PInf with
  | None => Done None
  | Some None => Done None
  | Some (Some points) => lines ← pairUp points; Done (Some lines)
  end.

(** The loop [for (const line of lines)] of [findLineIntercept]. *)
Fixpoint interceptOnLines (vehiclePosition : place) (vehicleSpeedDeg : num)
    (targetPath : TargetPath.t) (elapsedDistance : num)
    (lines : list (place * place)) : option place :=
  match lines with
  | [] => None
  | line :: lines' =>
      let interception :=
        findTargetLineInterception line (TargetPath.speed targetPath)
          vehiclePosition vehicleSpeedDeg
          (div elapsedDistance (TargetPath.speed targetPath)) in
      let lineDistance := getDistance line.1 line.2 in
      let interceptionDistance :=
        getDistance line.1 (interception.1, interception.2) in
      let elapsedDistance := add elapsedDistance lineDistance in
      if gt interceptionDistance lineDistance
      then interceptOnLines vehiclePosition vehicleSpeedDeg targetPath
                            elapsedDistance lines'
      else Some (interception.1, interception.2)
  end.

(** [findLineIntercept(vehiclePosition, timeElapsed, vehicleSpeedDeg,
    targetPath)] *)
Definition findLineIntercept (vehiclePosition : place) (timeElapsed : num)
    (vehicleSpeedDeg : num) (targetPath : TargetPath.t)
  : outcome (option place) :=
  lines ← trimTargetPath timeElapsed targetPath;
  match lines with
  | None => Done None
  | Some lines =>
      Done (interceptOnLines vehiclePosition vehicleSpeedDeg targetPath
                             zero lines)
  end.

(** [array.push(x)] on the array object [r]. *)
Definition push (arrays : list (list place)) (r : nat) (x : place)
  : list (list place) :=
  alter (fun a => a ++ [x]) r arrays.

(** The body of [for (const predictedPath of permutation)]. *)
Definition visit (vehicleSpeedDeg maxRouteDistanceDeg : num) (depot : place)
    (st : Build) (predictedPath : TargetPath.t) : outcome Build :=
  interceptPoint ← findLineIntercept (lastPosition st)
                      (div (distanceElapsed st) vehicleSpeedDeg)
                      vehicleSpeedDeg predictedPath;
  match interceptPoint with
  | None => Done st
  | Some interceptPoint =>
      let pointDistance := getDistance (lastPosition st) interceptPoint in
      let distanceBackToDepot := getDistance interceptPoint depot in
      if gt (add (add (distanceElapsed st) pointDistance) distanceBackToDepot)
            maxRouteDistanceDeg
      then
        let st1 :=
          {| arrays := push (arrays st) (activePath st) depot;
             paths := paths st ++ [activePath st];
             totalDistance :=
               add (totalDistance st) (getDistance (lastPosition st) depot);
             distanceElapsed := distanceElapsed st;
             activePath := activePath st;
             lastPosition := lastPosition st |} in
        newInterceptPoint ← findLineIntercept depot zero vehicleSpeedDeg
                               predictedPath;
        match newInterceptPoint with
        | None => Done st1
        | Some newInterceptPoint =>
            let distanceDepotToNewIntercept :=
              getDistance depot newInterceptPoint in
            Done {| arrays := arrays st1 ++ [[depot; newInterceptPoint]];
                    paths := paths st1;
                    totalDistance :=
                      add (totalDistance st1) distanceDepotToNewIntercept;
                    distanceElapsed := distanceDepotToNewIntercept;
                    activePath := length (arrays st1);
                    lastPosition := newInterceptPoint |}
        end
      else
        Done {| arrays := push (arrays st) (activePath st) interceptPoint;
                paths := paths st;
                totalDistance := add (totalDistance st) pointDistance;
                distanceElapsed := add (distanceElapsed st) pointDistance;
                activePath := activePath st;
                lastPosition := interceptPoint |}
  end.

(** The paths of one permutation, once the last active path is closed. *)
Definition buildPaths (vehicleSpeedDeg maxRouteDistanceDeg : num)
    (depot : place) (permutation : list TargetPath.t) : outcome Build :=
  st ← foldM (visit vehicleSpeedDeg maxRouteDistanceDeg depot)
         {| arrays := [[depot]]; paths := []; totalDistance := zero;
            distanceElapsed := zero; activePath := 0;
            lastPosition := depot |}
         permutation;
  if bool_decide (activePath st ∉ paths st)
     && bool_decide (1 < length (default [] (arrays st !! activePath st)))
  then Done {| arrays := push (arrays st) (activePath st) depot;
               paths := paths st ++ [activePath st];
               totalDistance := totalDistance st;
               distanceElapsed := distanceElapsed st;
               activePath := activePath st;
               lastPosition := lastPosition st |}
  else Done st.

(** The arrays [paths] refers to. *)
Definition pathsOf (st : Build) : list (list place) :=
  omap (fun r => arrays st !! r) (paths st).

(** [feasiblePaths.reduce((total, route) => total + route.length - 2, 0)] *)
Definition numPointsReached (feasiblePaths : list (list place)) : num :=
  foldl (fun total route =>
           sub (add total (Fin (INR (length route)))) (Fin 2))
        zero feasiblePaths.

(** The body of [for (const permutation of permutations)]. *)
Definition consider (vehicleSpeedDeg maxRouteDistanceDeg : num)
    (depot : place) (best : Best) (permutation : list TargetPath.t)
  : outcome Best :=
  st ← buildPaths vehicleSpeedDeg maxRouteDistanceDeg depot permutation;
  feasiblePaths ← filterFeasibleRoutes getDistance (pathsOf st)
                     maxRouteDistanceDeg;
  let numPointsReached := numPointsReached feasiblePaths in
  if match bestPath best with None => true | Some _ => false end
     || gt numPointsReached (bestNumPointsReached best)
     || (strict_eq numPointsReached (bestNumPointsReached best)
         && lt (totalDistance st) (bestDistance best))
  then Done {| bestNumPointsReached := numPointsReached;
               bestDistance := totalDistance st;
               bestPath := Some feasiblePaths |}
  else Done best.

(** [solve(vehicleSpeedDeg, maxRouteDistanceDeg, depotLon, depotLat,
    futurePaths)]; [None] is [null]. *)
Definition solve (vehicleSpeedDeg maxRouteDistanceDeg depotLon depotLat : num)
    (futurePaths : list TargetPath.t)
  : outcome (option (list (list place))) :=
  if lte vehicleSpeedDeg zero then Done (Some [])
  else
    let permutations := permute futurePaths in
    best ← foldM (consider vehicleSpeedDeg maxRouteDistanceDeg
                    (depotLon, depotLat))
             {| bestNumPointsReached := NInf; bestDistance := PInf;
                bestPath := None |}
             permutations;
    Done (bestPath best).
End Solver.
End PredictiveSolver.

(** The methods of [vecta] as the usual operations on vectors, and a
    bearing that points east whatever the line. *)
Module Vecta.
Definition mulScalar (v : place) (k : num) : place := (mul v.1 k, mul v.2 k).
Definition invert (v : place) : place := (neg v.1, neg v.2).
Definition add (v w : place) : place := (JS.add v.1 w.1, JS.add v.2 w.2).
Definition sub (v w : place) : place := (JS.sub v.1 w.1, JS.sub v.2 w.2).
Definition dotProduct (v w : place) : num :=
  JS.add (mul v.1 w.1) (mul v.2 w.2).
Definition eastward (v w : place) : num := Fin 0.
End Vecta.

(** A path that is not trimmed, and an interception at the start of the
    line. *)
Definition untrimmed (positions : list place) (start stop : num)
  : option (option (list place)) := Some (Some positions).

Definition atLineStart (line : place * place) (targetSpeed : num)
    (interceptorPosition : place) (interceptorSpeed timeDelay : num) : place :=
  line.1.

(** One target that moves east along the equator. *)
Definition oneTarget : list TargetPath.t :=
  [ {| TargetPath.speed := Fin 1;
       TargetPath.positions := [(Fin 1, Fin 0); (Fin 2, Fin 0)] |} ].

(** The arrays all start at the depot, and the references lead to them. *)
Definition built (depot : place) (st : PredictiveSolver.Build) : Prop :=
  (∀ a, a ∈ PredictiveSolver.arrays st → head a = Some depot) ∧
  PredictiveSolver.activePath st < length (PredictiveSolver.arrays st) ∧
  ∀ r, r ∈ PredictiveSolver.paths st →
       r < length (PredictiveSolver.arrays st).

Section Plans.
Context (getDistance : place → place → num).
Context (lineSliceAlong : list place → num → num → option (option (list place))).
Context (findTargetLineInterception :
           place * place → num → place → num → num → place).

(** The plan [solve] makes for one permutation: the feasible paths and the
    total distance. *)
Definition planned (speed max : num) (depot : place)
    (permutation : list TargetPath.t) (routes : list (list place))
    (total : num) : Prop :=
  ∃ st, PredictiveSolver.buildPaths getDistance lineSliceAlong
          findTargetLineInterception speed max depot permutation = Done st ∧
        filterFeasibleRoutes getDistance (PredictiveSolver.pathsOf st) max
        = Done routes ∧
        total = PredictiveSolver.totalDistance st.

(** What [best] holds once the permutations [seen] have been considered. *)
Definition bestOf (speed max : num) (depot : place)
    (seen : list (list TargetPath.t)) (best : PredictiveSolver.Best) : Prop :=
  match seen with
  | [] => best = {| PredictiveSolver.bestNumPointsReached := NInf;
                    PredictiveSolver.bestDistance := PInf;
                    PredictiveSolver.bestPath := None |}
  | _ :: _ =>
      ∃ permutation routes,
        permutation ∈ seen ∧
        planned speed max depot permutation routes
                (PredictiveSolver.bestDistance best) ∧
        PredictiveSolver.bestPath best = Some routes ∧
        PredictiveSolver.bestNumPointsReached best
        = PredictiveSolver.numPointsReached routes ∧
        ∀ permutation' routes' total',
          permutation' ∈ seen →
          planned speed max depot permutation' routes' total' →
          gt (PredictiveSolver.numPointsReached routes')
             (PredictiveSolver.bestNumPointsReached best) = false
  end.
End Plans.

(** * Theorems *)

(** The operations on numbers unfold on request only. *)
#[global] Arguments add : simpl never.
#[global] Arguments sub : simpl never.
#[global] Arguments mul : simpl never.
#[global] Arguments div : simpl never.
#[global] Arguments lt : simpl never.
#[global] Arguments gt : simpl never.
#[global] Arguments strict_eq : simpl never.
#[global] Arguments max : simpl never.
#[global] Arguments abs : simpl never.
#[global] Arguments sqrt : simpl never.
#[global] Arguments acos : simpl never.
#[global] Arguments cos : simpl never.

(** ** The error monad *)

Lemma bind_Done {A B : Type} (m : outcome A) (k : A → outcome B) (b : B) :
  m ≫= k = Done b ↔ ∃ a, m = Done a ∧ k a = Done b.
Proof.
  destruct m; simpl; split; try (intros [a [? ?]]); try discriminate; eauto.
  intros [a' [[= <-] ?]]. assumption.
Qed.

(** Splits a hypothesis [m ≫= k = Done b] into its two runs. *)
Ltac inv_bind H :=
  let a := fresh "v" in
  let H1 := fresh H "_run" in
  apply bind_Done in H; destruct H as [a [H1 H]].

Lemma getDistanceTo_Some pb p q :
  getDistanceTo pb (Some p) (Some q) = Done (distance pb p q).
Proof. reflexivity. Qed.

Lemma getDistanceTo_Done pb p q d :
  getDistanceTo pb p q = Done d → ∃ p', p = Some p'.
Proof. destruct p; [eauto | discriminate]. Qed.

(** ** JavaScript numbers *)

Lemma lt_NaN_l a : lt NaN a = false.
Proof. reflexivity. Qed.

Lemma lt_NaN_r a : lt a NaN = false.
Proof. by destruct a. Qed.

Lemma add_NaN_r a : add a NaN = NaN.
Proof. by destruct a. Qed.

Lemma mul_NaN_r a : mul a NaN = NaN.
Proof. by destruct a. Qed.

Lemma div_NaN_r a : div a NaN = NaN.
Proof. by destruct a. Qed.

Lemma max_NaN_r a : max a NaN = NaN.
Proof. by destruct a. Qed.

Lemma add_Fin x y : add (Fin x) (Fin y) = Fin (x + y).
Proof. reflexivity. Qed.

Lemma sub_Fin x y : sub (Fin x) (Fin y) = Fin (x + - y).
Proof. reflexivity. Qed.

Lemma lt_Fin x y : lt (Fin x) (Fin y) = true ↔ (x < y)%R.
Proof. unfold lt. destruct (Rlt_dec x y); split; intros; try done. Qed.

Lemma strict_eq_Fin x y : strict_eq (Fin x) (Fin y) = true ↔ x = y.
Proof. unfold strict_eq. destruct (Req_dec_T x y); split; intros; try done. Qed.

Lemma cos_acos_id x :
  (-1 <= x <= 1)%R → cos (acos (Fin x)) = Fin x.
Proof.
  intros [Hlo Hhi]. unfold acos.
  destruct (Rlt_dec x (-1)) as [?|_]; [lra|].
  destruct (Rlt_dec 1 x) as [?|_]; [lra|].
  unfold cos. f_equal. apply cos_acos. lra.
Qed.

Lemma foldM_totalDistance_step pb p c l :
  foldM (totalDistance_step pb) (Some p, c) l
  = Done (Some (walk pb p c l).1, (walk pb p c l).2).
Proof.
  revert p c. induction l as [|q l IH]; intros p c; simpl; [done|].
  destruct (decide (q = p)) as [->|Hne].
  - rewrite decide_True by done. simpl. apply IH.
  - rewrite decide_False by congruence. simpl. apply IH.
Qed.

Lemma totalDistance_cons pb r p l :
  Route.points r = p :: l →
  totalDistance pb r
  = Done (add (walk pb p zero l).2
              (distance pb (walk pb p zero l).1 (Route.depot r))).
Proof.
  intros Hpts. unfold totalDistance. rewrite Hpts. simpl.
  rewrite decide_True by done. simpl.
  rewrite foldM_totalDistance_step. reflexivity.
Qed.

Lemma totalDistance_nil pb r :
  Route.points r = [] → totalDistance pb r = TypeError.
Proof. intros Hpts. unfold totalDistance. by rewrite Hpts. Qed.

Lemma totalDistance_Done pb r :
  Route.points r ≠ [] → ∃ d, totalDistance pb r = Done d.
Proof.
  destruct (Route.points r) as [|p l] eqn:Hpts; [done|]. intros _.
  erewrite totalDistance_cons by eassumption. eauto.
Qed.

Lemma walk_last pb p c l : (walk pb p c l).1 = default p (last l).
Proof.
  revert p c. induction l as [|q l IH]; intros p c; simpl; [done|].
  destruct (decide (q = p)) as [->|Hne]; rewrite IH, last_cons;
    by destruct (last l).
Qed.

Lemma getEnd_cons r p l :
  Route.points r = p :: l → getEnd r = Some (default p (last l)).
Proof.
  intros Hpts. unfold getEnd. rewrite Hpts.
  rewrite last_cons. by destruct (last l).
Qed.

Lemma getEnd_None r : getEnd r = None ↔ Route.points r = [].
Proof. unfold getEnd. apply last_None. Qed.

Lemma verifyRouteJoin_estimate pb ra rb :
  (∀ b, getStart rb = Some b →
        distance pb (CW.depot pb) b = distance pb b (CW.depot pb)) →
  verifyRouteJoin pb ra rb
  = (e ← feasibilityEstimate pb ra rb; Done (lt e (CW.maxDistance pb))).
Proof.
  intros Hsym. unfold verifyRouteJoin, feasibilityEstimate.
  destruct (Route.points ra) as [|pa la] eqn:Ha.
  { rewrite (totalDistance_nil pb ra Ha).
    by rewrite (proj2 (getEnd_None ra) Ha). }
  rewrite (getEnd_cons _ _ _ Ha).
  rewrite (totalDistance_cons _ _ _ _ Ha). simpl.
  destruct (Route.points rb) as [|pb0 lb] eqn:Hpb.
  { rewrite (totalDistance_nil pb rb Hpb).
    unfold getStart. rewrite Hpb. reflexivity. }
  rewrite (totalDistance_cons _ _ _ _ Hpb).
  destruct (getStart rb) as [b|] eqn:Hb; [|reflexivity].
  rewrite (Hsym b eq_refl). reflexivity.
Qed.

(** C4.  [verifyRouteJoin] answers [true] exactly when the estimate
    [routeA.totalDistance() - distance(A_end, depot) + distance(A_end, B_start)
    + routeB.totalDistance() - distance(depot, B_start)] is strictly below
    [maxDistance], and [false] exactly when it is not; the depot and the start
    of [routeB] are as far from each other in both directions, as the
    constructor stores it. *)
Theorem verifyRouteJoin_iff_estimate_below_cap pb ra rb (ok : bool) :
  (∀ b, getStart rb = Some b →
        distance pb (CW.depot pb) b = distance pb b (CW.depot pb)) →
  verifyRouteJoin pb ra rb = Done ok ↔
  ∃ e, feasibilityEstimate pb ra rb = Done e ∧ lt e (CW.maxDistance pb) = ok.
Proof.
  intros Hsym. rewrite verifyRouteJoin_estimate by done.
  rewrite bind_Done. split; intros [e [He Hlt]]; exists e; split; try done.
  - by injection Hlt.
  - by rewrite Hlt.
Qed.

(** C10.  [this.joinRoute(other)] mutates only the receiver: every other
    route object is left as it was, and when [other] is not the receiver its
    point sequence, id and depot, hence its [getStart()] and [getEnd()], are
    those from before the call. *)
Theorem joinRoute_mutates_only_receiver st this other h' :
  joinRoute_at st this other = Done h' →
  (∀ r, r ≠ this → h' !! r = heap st !! r) ∧
  (other ≠ this →
   ∃ o o', heap st !! other = Some o ∧ h' !! other = Some o' ∧
           Route.points o' = Route.points o ∧ Route.id o' = Route.id o ∧
           Route.depot o' = Route.depot o ∧
           getStart o' = getStart o ∧ getEnd o' = getEnd o).
Proof.
  unfold joinRoute_at, deref. intros Hrun.
  destruct (heap st !! this) as [a|] eqn:Ha; [|done].
  destruct (heap st !! other) as [b|] eqn:Hb; [|done].
  simpl in Hrun. injection Hrun as <-.
  split.
  - intros r Hne. by rewrite lookup_insert_ne.
  - intros Hne. exists b, b. rewrite lookup_insert_ne by done.
    by split_and!.
Qed.

Lemma populated_leg pb l p q :
  populated pb l → p ∈ l → q ∈ l → p ≠ q → distance pb p q = Fin (leg pb p q).
Proof.
  intros Hpop Hp Hq Hne. destruct (Hpop p q Hp Hq Hne) as [x [Hx _]].
  unfold leg. by rewrite Hx.
Qed.

Lemma populated_weaken pb l l' :
  populated pb l → l' ⊆ l → populated pb l'.
Proof. intros Hpop Hsub p q Hp Hq. apply Hpop; by apply Hsub. Qed.

Lemma walk_populated pb p c l :
  populated pb (p :: l) →
  walk pb p (Fin c) l = (default p (last l), Fin (c + pathLength pb p l)).
Proof.
  revert p c. induction l as [|q l IH]; intros p c Hpop; simpl.
  { f_equal. f_equal. lra. }
  destruct (decide (q = p)) as [->|Hne].
  - rewrite IH.
    + rewrite last_cons. by destruct (last l).
    + eapply populated_weaken; [done|]. set_solver.
  - rewrite (populated_leg pb (p :: q :: l)) by set_solver.
    rewrite add_Fin, IH.
    + rewrite last_cons. destruct (last l); simpl; do 2 f_equal; lra.
    + eapply populated_weaken; [done|]. set_solver.
Qed.

Lemma walk_app pb p c l1 l2 :
  walk pb p c (l1 ++ l2)
  = walk pb (walk pb p c l1).1 (walk pb p c l1).2 l2.
Proof.
  revert p c. induction l1 as [|q l1 IH]; intros p c; simpl; [done|].
  destruct (decide (q = p)); apply IH.
Qed.

(** C5.  Right after [routeA.joinRoute(routeB)], before any optimisation,
    [routeA.totalDistance()] is exactly the estimate the feasibility check
    computed before the merge, for two routes of the problem that share no
    point and whose pairwise distances are populated and symmetric. *)
Theorem joined_distance_is_estimate pb ra rb :
  shaped pb ra → shaped pb rb →
  populated pb (Route.points ra ++ Route.points rb) →
  getEnd ra ≠ getStart rb →
  ∃ e : R, feasibilityEstimate pb ra rb = Done (Fin e) ∧
           totalDistance pb (joinRoute ra rb) = Done (Fin e).
Proof.
  intros [HdA (ca & ta & HptsA & HnA)] [HdB (cb & tb & HptsB & HnB)] Hpop Hjoint.
  set (dep := CW.depot pb) in *.
  rewrite HptsA, HptsB in Hpop.
  assert (Hend : getEnd ra = Some (default ca (last ta))).
  { rewrite (getEnd_cons _ _ _ HptsA). simpl. f_equal.
    rewrite last_cons. by destruct (last ta). }
  assert (Hstart : getStart rb = Some cb).
  { unfold getStart. by rewrite HptsB. }
  set (aEnd := default ca (last ta)) in *.
  assert (HaEnd : aEnd ∈ ca :: ta).
  { unfold aEnd. destruct (last ta) as [z|] eqn:E; simpl; [|set_solver].
    apply elem_of_cons. right. apply last_Some in E as [l' ->]. set_solver. }
  assert (Hne_end : aEnd ≠ dep) by (intros E; apply HnA; by rewrite <- E).
  assert (Hne_start : cb ≠ dep) by (intros E; apply HnB; rewrite <- E; set_solver).
  assert (Hne_joint : cb ≠ aEnd) by (intros E; apply Hjoint; congruence).
  assert (Hlast : ∀ c t, default dep (last (c :: t)) = default c (last t)).
  { intros c t. rewrite last_cons. by destruct (last t). }
  assert (HwalkA : walk pb dep zero (ca :: ta)
                   = (aEnd, Fin (0 + pathLength pb dep (ca :: ta)))).
  { unfold zero. rewrite walk_populated, Hlast; [done|].
    eapply populated_weaken; [done|]. set_solver. }
  assert (HwalkB : walk pb dep zero (cb :: tb)
                   = (default cb (last tb), Fin (0 + pathLength pb dep (cb :: tb)))).
  { unfold zero. rewrite walk_populated, Hlast; [done|].
    eapply populated_weaken; [done|]. set_solver. }
  assert (HbEnd : default cb (last tb) ∈ cb :: tb).
  { destruct (last tb) as [z|] eqn:E; simpl; [|set_solver].
    apply elem_of_cons. right. apply last_Some in E as [l' ->]. set_solver. }
  set (bEnd := default cb (last tb)) in *.
  assert (Hne_bend : bEnd ≠ dep) by (intros E; apply HnB; by rewrite <- E).
  exists (pathLength pb dep (ca :: ta) + leg pb aEnd cb
          + pathLength pb cb tb + leg pb bEnd dep)%R.
  split.
  - unfold feasibilityEstimate. rewrite Hend, Hstart.
    rewrite (totalDistance_cons _ _ _ _ HptsA), (totalDistance_cons _ _ _ _ HptsB).
    rewrite HwalkA, HwalkB, HdA, HdB. cbn [fst snd mbind outcome_bind bind].
    change (CW.depot pb) with dep.
    rewrite (populated_leg pb _ aEnd dep Hpop) by set_solver.
    rewrite (populated_leg pb _ bEnd dep Hpop) by set_solver.
    rewrite (populated_leg pb _ aEnd cb Hpop) by set_solver.
    rewrite (populated_leg pb _ dep cb Hpop) by set_solver.
    assert (HplB : pathLength pb dep (cb :: tb)
                   = (leg pb dep cb + pathLength pb cb tb)%R).
    { simpl. by rewrite decide_False. }
    rewrite HplB. repeat (rewrite add_Fin || rewrite sub_Fin).
    do 2 f_equal. lra.
  - assert (Hpts : Route.points (joinRoute ra rb)
                   = dep :: (ca :: ta) ++ (cb :: tb)).
    { simpl. by rewrite HptsA, HptsB. }
    rewrite (totalDistance_cons _ _ _ _ Hpts).
    rewrite walk_app, HwalkA. cbn [fst snd Route.depot joinRoute].
    cbn [walk]. rewrite decide_False by done.
    rewrite (populated_leg pb _ aEnd cb Hpop) by set_solver.
    rewrite add_Fin, walk_populated.
    2:{ eapply populated_weaken; [done|]. set_solver. }
    cbn [fst snd]. fold bEnd. rewrite HdA.
    rewrite (populated_leg pb _ bEnd dep Hpop) by set_solver.
    rewrite add_Fin. do 2 f_equal. lra.
Qed.

Lemma twoOpt_test_Some pb a b c d :
  twoOpt_test pb (Some a) (Some b) (Some c) (Some d)
  = Done (gt (add (distance pb a b) (distance pb c d))
             (add (distance pb a c) (distance pb d b))).
Proof. reflexivity. Qed.

Lemma twoOpt_test_improving pb pts i j :
  i + 1 < length pts → j < length pts →
  ∃ t, twoOpt_test pb (pts !! i) (pts !! (i + 1)) (pts !! j)
                      (pts !! ((j + 1) mod length pts)) = Done t ∧
       (t = true ↔ improving pb pts i j).
Proof.
  intros Hi Hj.
  assert (Hk : (j + 1) mod length pts < length pts)
    by (apply Nat.mod_upper_bound; lia).
  destruct (lookup_lt_is_Some_2 pts i ltac:(lia)) as [a Ha].
  destruct (lookup_lt_is_Some_2 pts (i + 1) Hi) as [b Hb].
  destruct (lookup_lt_is_Some_2 pts j Hj) as [c Hc].
  destruct (lookup_lt_is_Some_2 pts _ Hk) as [d Hd].
  rewrite Ha, Hb, Hc, Hd, twoOpt_test_Some.
  eexists; split; [reflexivity|]. split.
  - intros Ht. exists a, b, c, d. by rewrite Ha, Hb, Hc, Hd.
  - intros (a' & b' & c' & d' & Ha' & Hb' & Hc' & Hd' & Ht).
    congruence.
Qed.

Lemma twoOpt_inner_spec pb pts i j n :
  i + 2 ≤ j → j + n = length pts - 1 →
  (∃ k, twoOpt_inner pb pts i j n = Done (inl k) ∧
        j ≤ k ∧ k < j + n ∧ improving pb pts i k ∧
        ∀ j', j ≤ j' → j' < k → ¬ improving pb pts i j') ∨
  (twoOpt_inner pb pts i j n = Done (inr (j + n)) ∧
   ∀ j', j ≤ j' → j' < j + n → ¬ improving pb pts i j').
Proof.
  revert j. induction n as [|n IH]; intros j Hij Hlen; simpl.
  { right. split; [by rewrite Nat.add_0_r | intros; lia]. }
  rewrite decide_False by lia.
  destruct (twoOpt_test_improving pb pts i j ltac:(lia) ltac:(lia))
    as [t [Ht Himp]].
  rewrite Nat.mod_small in Ht by lia. rewrite Ht. simpl.
  destruct t.
  - left. exists j. repeat split; try lia. by apply Himp.
  - assert (Hno : ¬ improving pb pts i j) by (intros H; by apply Himp in H).
    destruct (IH (S j) ltac:(lia) ltac:(lia)) as [(k & -> & ? & ? & ? & Hk)|[-> Hk]].
    + left. exists k. repeat split; try lia; [done|].
      intros j' ? ?. destruct (decide (j' = j)) as [->|]; [done|].
      apply Hk; lia.
    + right. split; [f_equal; f_equal; lia|].
      intros j' ? ?. destruct (decide (j' = j)) as [->|]; [done|].
      apply Hk; lia.
Qed.

Lemma twoOpt_outer_spec pb pts i n :
  i + n = length pts - 2 →
  ∃ res, twoOpt_outer pb pts i n = Done res ∧ scanResult pb pts i res.
Proof.
  revert i. induction n as [|n IH]; intros i Hlen; simpl.
  { exists None. split; [done|]. intros i' j' ? ? ?. lia. }
  destruct (twoOpt_inner_spec pb pts i (i + 2) (length pts - 1 - (i + 2))
              ltac:(lia) ltac:(lia))
    as [(k & -> & ? & ? & ? & Hk)|[-> Hk]]; simpl.
  { exists (Some (i, k)). split; [done|]. repeat split; try lia; [done|].
    intros i' j' ? ? ? [Hlt|[Heq Hlt]]; simpl in *; [lia|].
    subst i'. apply Hk; lia. }
  replace (i + 2 + (length pts - 1 - (i + 2))) with (length pts - 1) in * by lia.
  destruct (twoOpt_test_improving pb pts i (length pts - 1) ltac:(lia) ltac:(lia))
    as [t [Ht Himp]].
  replace ((length pts - 1 + 1) mod length pts) with 0 in Ht.
  2:{ replace (length pts - 1 + 1) with (length pts) by lia.
      by rewrite Nat.Div0.mod_same. }
  rewrite Ht. simpl.
  assert (Hrow : ∀ j', i + 2 ≤ j' → j' < length pts - 1 →
                       ¬ improving pb pts i j') by (intros; apply Hk; lia).
  destruct t.
  - exists (Some (i, length pts - 1)). split; [done|].
    repeat split; try lia; [by apply Himp|].
    intros i' j' ? ? ? [Hlt|[Heq Hlt]]; simpl in *; [lia|].
    subst i'. apply Hrow; lia.
  - assert (Hno : ¬ improving pb pts i (length pts - 1))
      by (intros H; by apply Himp in H).
    destruct (IH (S i) ltac:(lia)) as [res [-> Hres]].
    exists res. split; [done|].
    assert (Hi : ∀ j', i + 2 ≤ j' → j' < length pts → ¬ improving pb pts i j').
    { intros j' ? ?. destruct (decide (j' = length pts - 1)) as [->|]; [done|].
      apply Hrow; lia. }
    destruct res as [[i0 k0]|]; simpl in *.
    + destruct Hres as (? & ? & ? & ? & Hbefore).
      repeat split; try lia; [done|].
      intros i' j' ? ? ? Hsc. destruct (decide (i' = i)) as [->|].
      * by apply Hi.
      * apply Hbefore; try lia. done.
    + intros i' j' ? ? ?. destruct (decide (i' = i)) as [->|].
      * by apply Hi.
      * apply Hres; lia.
Qed.

Lemma twoOpt_scan_spec pb r :
  ∃ res, twoOpt_scan pb r = Done res ∧ scanResult pb (Route.points r) 0 res.
Proof. apply twoOpt_outer_spec. lia. Qed.

(** [twoOptSwap] *)

Lemma slice_0 {A} (n : nat) (l : list A) : slice 0 n l = take n l.
Proof. unfold slice. by rewrite Nat.sub_0_r. Qed.

Lemma twoOptSwap_points r i k :
  Route.points (twoOptSwap r i k)
  = take (i + 1) (Route.points r)
    ++ reverse (take (k - i) (drop (i + 1) (Route.points r)))
    ++ drop (k + 1) (Route.points r).
Proof.
  simpl. rewrite slice_0. unfold slice. do 4 f_equal. lia.
Qed.

Lemma twoOptSwap_perm r i k :
  i ≤ k → Route.points (twoOptSwap r i k) ≡ₚ Route.points r.
Proof.
  intros Hik. rewrite twoOptSwap_points.
  rewrite <- (take_drop (i + 1) (Route.points r)) at 4.
  apply Permutation_app_head.
  rewrite <- (take_drop (k - i) (drop (i + 1) (Route.points r))) at 2.
  rewrite drop_drop. replace (i + 1 + (k - i)) with (k + 1) by lia.
  apply Permutation_app_tail. apply reverse_Permutation.
Qed.

Lemma twoOptSwap_first r i k :
  Route.points (twoOptSwap r i k) !! 0 = Route.points r !! 0.
Proof.
  rewrite twoOptSwap_points.
  destruct (Route.points r) as [|p l]; simpl.
  - by rewrite !drop_nil, !take_nil.
  - by rewrite Nat.add_1_r.
Qed.

Lemma twoOptSwap_tail r i k :
  i ≤ k → tail (Route.points (twoOptSwap r i k)) ≡ₚ tail (Route.points r).
Proof.
  intros Hik. pose proof (twoOptSwap_perm r i k Hik) as Hperm.
  pose proof (twoOptSwap_first r i k) as Hfirst.
  destruct (Route.points (twoOptSwap r i k)) as [|p l],
           (Route.points r) as [|p' l']; simpl in *; try done.
  injection Hfirst as ->. by apply (inj (cons p')) in Hperm.
Qed.

(** [twoOpt] *)

Lemma twoOpt_spec pb r :
  Route.points r ≠ [] →
  ∃ r' d res, twoOpt pb r = Done (r', d) ∧
    twoOpt_scan pb r = Done res ∧ scanResult pb (Route.points r) 0 res ∧
    r' = match res with Some (i, k) => twoOptSwap r i k | None => r end ∧
    totalDistance pb r' = Done d ∧
    Route.points r' ≡ₚ Route.points r ∧
    Route.points r' !! 0 = Route.points r !! 0 ∧
    Route.depot r' = Route.depot r ∧ Route.id r' = Route.id r.
Proof.
  intros Hne. destruct (twoOpt_scan_spec pb r) as [res [Hscan Hres]].
  unfold twoOpt. rewrite Hscan. simpl.
  set (r' := match res with Some (i, k) => twoOptSwap r i k | None => r end).
  assert (Hperm : Route.points r' ≡ₚ Route.points r).
  { unfold r'. destruct res as [[i k]|]; [|done].
    apply twoOptSwap_perm. simpl in Hres. lia. }
  assert (Hne' : Route.points r' ≠ []).
  { intros E. rewrite E in Hperm. by apply Permutation_nil_l in Hperm. }
  destruct (totalDistance_Done pb r' Hne') as [d Hd]. rewrite Hd. simpl.
  exists r', d, res. repeat split; try done;
    unfold r'; destruct res as [[i k]|]; try done.
  apply twoOptSwap_first.
Qed.

(** What a run of [optimise_loop] does. *)
Lemma optimise_loop_spec pb r best n :
  Route.points r ≠ [] →
  ∃ r' k ds,
    optimise_loop pb r best n = Done (r', k) ∧
    k ≤ n ∧
    twoOptPasses pb r k = Done (r', ds) ∧ length ds = k ∧
    (∀ i d, S i < k → ds !! i = Some d →
            strict_eq d (previousDistance best ds i) = false) ∧
    (k < n → ∃ d, 0 < k ∧ ds !! (k - 1) = Some d ∧
                  strict_eq d (previousDistance best ds (k - 1)) = true) ∧
    Route.points r' ≡ₚ Route.points r ∧
    Route.points r' !! 0 = Route.points r !! 0 ∧
    Route.depot r' = Route.depot r ∧ Route.id r' = Route.id r.
Proof.
  revert r best. induction n as [|n IH]; intros r best Hne.
  { exists r, 0, []. simpl. repeat split; try done; try lia. }
  destruct (twoOpt_spec pb r Hne)
    as (r1 & d & res & Hrun & _ & _ & _ & _ & Hperm1 & Hfirst1 & Hdep1 & Hid1).
  assert (Hne1 : Route.points r1 ≠ []).
  { intros E. rewrite E in Hperm1. by apply Permutation_nil_l in Hperm1. }
  simpl. rewrite Hrun. simpl.
  destruct (strict_eq d best) eqn:Heq.
  - exists r1, 1, [d]. simpl. rewrite Hrun. simpl.
    repeat split; try done; try lia.
    intros _. exists d. split; [lia|done].
  - destruct (IH r1 d Hne1)
      as (r2 & k & ds & -> & Hk & Hpasses & Hlen & Hgo & Hstop
          & Hperm2 & Hfirst2 & Hdep2 & Hid2).
    exists r2, (S k), (d :: ds). simpl. rewrite Hrun. simpl. rewrite Hpasses.
    split_and!; try done; try lia; try congruence.
    + intros i d' Hi Hd'. destruct i as [|i]; simpl in *.
      * by injection Hd' as <-.
      * pose proof (Hgo i d' ltac:(lia) Hd') as Hgo'. by destruct i.
    + intros Hlt. destruct (Hstop ltac:(lia)) as (d' & Hpos & Hd' & Heq').
      exists d'. rewrite Nat.sub_0_r.
      destruct k as [|k]; [lia|]. simpl in *. rewrite Nat.sub_0_r in *.
      split_and!; [lia|done|by destruct k].
    + by rewrite Hperm2.
Qed.

(** C6.  [optimise(maxIter)] terminates on every route and for all distance
    values: it runs [twoOpt] at most [maxIter] times, never stops while a
    pass returns a distance that differs ([===]) from the one before (0 for
    the first pass), and when it stops before [maxIter] passes the last pass
    returned the same distance as the one before. *)
Theorem optimise_terminates pb r maxIter :
  Route.points r ≠ [] →
  ∃ r' passes ds,
    optimise pb r maxIter = Done (r', passes) ∧
    passes ≤ maxIter ∧
    twoOptPasses pb r passes = Done (r', ds) ∧ length ds = passes ∧
    (∀ i d, S i < passes → ds !! i = Some d →
            strict_eq d (previousDistance zero ds i) = false) ∧
    (passes < maxIter →
     ∃ d, 0 < passes ∧ ds !! (passes - 1) = Some d ∧
          strict_eq d (previousDistance zero ds (passes - 1)) = true).
Proof.
  intros Hne.
  destruct (optimise_loop_spec pb r zero maxIter Hne)
    as (r' & k & ds & ? & ? & ? & ? & ? & ? & _).
  by exists r', k, ds.
Qed.

Lemma twoOpt_locallyOptimal pb r :
  Route.points r ≠ [] → locallyOptimal pb r →
  ∃ d, twoOpt pb r = Done (r, d) ∧ totalDistance pb r = Done d.
Proof.
  intros Hne Hopt.
  destruct (twoOpt_spec pb r Hne)
    as (r1 & d & res & Hrun & _ & Hres & -> & Hd & _).
  destruct res as [[i k]|].
  - destruct Hres as (_ & ? & ? & Himp & _). by apply Hopt in Himp.
  - by exists d.
Qed.

Lemma optimise_loop_locallyOptimal pb r best n :
  Route.points r ≠ [] → locallyOptimal pb r →
  ∃ k, optimise_loop pb r best n = Done (r, k).
Proof.
  intros Hne Hopt. revert best. induction n as [|n IH]; intros best; simpl.
  { by exists 0. }
  destruct (twoOpt_locallyOptimal pb r Hne Hopt) as [d [-> _]]. simpl.
  destruct (strict_eq d best); [by exists 1|].
  destruct (IH d) as [k ->]. by exists (S k).
Qed.

(** C7.  On a route that no 2-opt reversal improves, [optimise()] leaves the
    route, hence its point order and its [totalDistance()], unchanged.  A
    call of [twoOpt()] returns the [totalDistance()] of the route it leaves
    behind, and that route is the one it found exactly when no reversal
    improves it; otherwise [twoOpt()] has performed one reversal and no
    more: at the first pair of positions in scanning order at which the two
    removed edges cost strictly more than the two added ones, the points
    between the two edges now come in reverse order. *)
Theorem optimise_fixes_local_optimum pb r maxIter :
  Route.points r ≠ [] →
  (locallyOptimal pb r →
   ∃ passes, optimise pb r maxIter = Done (r, passes)) ∧
  (∃ r' d, twoOpt pb r = Done (r', d) ∧ totalDistance pb r' = Done d ∧
     ((locallyOptimal pb r ∧ r' = r) ∨
      ∃ i j, i + 2 ≤ j ∧ j < length (Route.points r) ∧
             improving pb (Route.points r) i j ∧
             (∀ i' j', i' + 2 ≤ j' → j' < length (Route.points r) →
                       scannedBefore (i', j') (i, j) →
                       ¬ improving pb (Route.points r) i' j') ∧
             Route.points r'
             = take (i + 1) (Route.points r)
               ++ reverse (take (j - i) (drop (i + 1) (Route.points r)))
               ++ drop (j + 1) (Route.points r) ∧
             Route.depot r' = Route.depot r ∧ Route.id r' = Route.id r)).
Proof.
  intros Hne. split.
  - intros Hopt. by apply optimise_loop_locallyOptimal.
  - destruct (twoOpt_spec pb r Hne)
      as (r1 & d & res & Hrun & _ & Hres & -> & Hd & _).
    eexists _, d. split; [exact Hrun|]. split; [exact Hd|].
    destruct res as [[i k]|].
    + right. destruct Hres as (_ & ? & ? & ? & Hbefore).
      exists i, k. split_and!; try done.
      * intros i' j' ? ? ?. apply Hbefore; [lia|done..].
      * apply twoOptSwap_points.
    + left. split; [|done]. intros i j ? ?. apply Hres; [lia|done..].
Qed.

(** ** Loops and arrays *)

Lemma foldM_invariant {A S : Type} (f : S → A → outcome S) (I : S → Prop)
    (l : list A) (s : S) :
  I s →
  (∀ s a, a ∈ l → I s → ∃ s', f s a = Done s' ∧ I s') →
  ∃ s', foldM f s l = Done s' ∧ I s'.
Proof.
  revert s. induction l as [|a l IH]; intros s Hs Hstep; simpl; [eauto|].
  destruct (Hstep s a ltac:(left) Hs) as [s1 [-> Hs1]]. simpl.
  apply IH; [done|]. intros s2 b Hb. apply Hstep. by right.
Qed.

Lemma foldM_app {A S : Type} (f : S → A → outcome S) (l1 l2 : list A) (s : S) :
  foldM f s (l1 ++ l2) = (s' ← foldM f s l1; foldM f s' l2).
Proof.
  revert s. induction l1 as [|a l1 IH]; intros s; simpl; [done|].
  destruct (f s a); simpl; [apply IH|done..].
Qed.

Lemma foldM_preserved {A S : Type} (f : S → A → outcome S) (I : S → Prop)
    (l : list A) (s s' : S) :
  I s →
  (∀ s a s', a ∈ l → I s → f s a = Done s' → I s') →
  foldM f s l = Done s' → I s'.
Proof.
  revert s. induction l as [|a l IH]; intros s Hs Hstep Hrun; simpl in Hrun.
  { by injection Hrun as <-. }
  inv_bind Hrun. apply (IH v); [|intros s2 b s3 Hb; apply Hstep; by right|done].
  eapply Hstep; [by left|done..].
Qed.

Lemma indexOf_range l x : ((-1) ≤ indexOf l x < Z.of_nat (length l))%Z.
Proof.
  induction l as [|y l IH]; simpl; [lia|].
  destruct (decide (y = x)); [lia|].
  destruct (Z.ltb_spec (indexOf l x) 0); lia.
Qed.

Lemma indexOf_elem l x :
  x ∈ l →
  ∃ l1 l2, l = l1 ++ x :: l2 ∧ (x ∉ l1) ∧ indexOf l x = Z.of_nat (length l1).
Proof.
  induction l as [|y l IH]; intros Hin; [by apply elem_of_nil in Hin|].
  simpl. destruct (decide (y = x)) as [->|Hne].
  { exists [], l. split_and!; [done|apply not_elem_of_nil|done]. }
  apply elem_of_cons in Hin as [?|Hin]; [congruence|].
  destruct (IH Hin) as (l1 & l2 & -> & Hnot & ->).
  exists (y :: l1), l2. split_and!; [done| |].
  - intros [?|?]%elem_of_cons; [congruence|done].
  - destruct (Z.ltb_spec (Z.of_nat (length l1)) 0); simpl; lia.
Qed.

Lemma splice1_length {A} (i : Z) (l : list A) :
  ((-1) ≤ i < Z.of_nat (length l))%Z →
  length (splice1 i l) = length l - 1.
Proof.
  intros Hi. unfold splice1. cbv zeta.
  rewrite length_app, length_take, length_drop.
  destruct (Z.ltb_spec i 0); lia.
Qed.

Lemma splice1_at {A} (l1 l2 : list A) (x : A) :
  splice1 (Z.of_nat (length l1)) (l1 ++ x :: l2) = l1 ++ l2.
Proof.
  unfold splice1. cbv zeta.
  destruct (Z.ltb_spec (Z.of_nat (length l1)) 0); [lia|].
  rewrite length_app. simpl.
  replace (Z.to_nat (Z.min (Z.of_nat (length l1))
                           (Z.of_nat (length l1 + S (length l2)))))
    with (length l1) by lia.
  rewrite take_app_length.
  rewrite drop_app_ge by lia.
  by replace (S (length l1) - length l1) with 1 by lia.
Qed.

Lemma sort_insert_perm {A} (cmp : A → A → outcome num) (a : A) (l : list A) :
  (∀ b, b ∈ l → ∃ c, cmp a b = Done c) →
  ∃ l', sort_insert cmp a l = Done l' ∧ l' ≡ₚ a :: l.
Proof.
  induction l as [|b l IH]; intros Hcmp; simpl; [eauto|].
  destruct (Hcmp b ltac:(left)) as [c ->]. simpl.
  destruct (gt c zero); [|eauto].
  destruct IH as [l' [-> Hperm]]; [intros; apply Hcmp; by right|].
  simpl. eexists; split; [reflexivity|]. rewrite Hperm. apply Permutation_swap.
Qed.

Lemma js_sort_perm {A} (cmp : A → A → outcome num) (l : list A) :
  (∀ a b, a ∈ l → b ∈ l → ∃ c, cmp a b = Done c) →
  ∃ l', js_sort cmp l = Done l' ∧ l' ≡ₚ l.
Proof.
  induction l as [|a l IH]; intros Hcmp; simpl; [eauto|].
  destruct IH as [s [-> Hperm]].
  { intros; apply Hcmp; by right. }
  simpl. destruct (sort_insert_perm cmp a s) as [l' [-> Hperm']].
  { intros b Hb. apply Hcmp; [by left|]. right. by rewrite <- Hperm. }
  eexists; split; [reflexivity|]. by rewrite Hperm', Hperm.
Qed.

Lemma filterM_spec {A} (p : A → outcome bool) (l : list A) :
  (∀ a, a ∈ l → ∃ b, p a = Done b) →
  ∃ l', filterM p l = Done l' ∧ l' `sublist_of` l ∧
        ∀ a, a ∈ l' ↔ a ∈ l ∧ p a = Done true.
Proof.
  induction l as [|a l IH]; intros Hp; simpl.
  { exists []. split_and!; [done..|]. intros a. set_solver. }
  destruct (Hp a ltac:(left)) as [b Hb]. rewrite Hb. simpl.
  destruct IH as (l' & -> & Hsub & Htrue); [intros; apply Hp; by right|].
  simpl. destruct b.
  - exists (a :: l'). split_and!; [done|by constructor|].
    intros a'. rewrite !elem_of_cons, Htrue. split.
    + intros [->|[? ?]]; split; auto.
    + intros [[->|?] ?]; auto.
  - exists l'. split_and!; [done|by constructor|].
    intros a'. rewrite elem_of_cons, Htrue. split.
    + intros [? ?]; split; auto.
    + intros [[->|?] ?]; [congruence|auto].
Qed.

(** ** No call of [solve] fails *)

Lemma usable_deref st r :
  usable st r → ∃ o, deref st r = Done o ∧ heap st !! r = Some o ∧
                     2 ≤ length (Route.points o).
Proof. intros (o & Ho & Hlen). exists o. unfold deref. by rewrite Ho. Qed.

Lemma long_route_ends o :
  2 ≤ length (Route.points o) →
  ∃ s e, getStart o = Some s ∧ getEnd o = Some e ∧ Route.points o ≠ [].
Proof.
  unfold getStart, getEnd. destruct (Route.points o) as [|p [|q l]]; simpl;
    try lia. intros _. exists q.
  destruct (last (p :: q :: l)) as [e|] eqn:E; [by eauto|].
  by apply last_None in E.
Qed.

Lemma verifyRouteJoin_Done pb a b :
  2 ≤ length (Route.points a) → 2 ≤ length (Route.points b) →
  ∃ ok, verifyRouteJoin pb a b = Done ok.
Proof.
  intros (sa & ea & _ & Hea & Hna)%long_route_ends
         (sb & eb & Hsb & _ & Hnb)%long_route_ends.
  unfold verifyRouteJoin. rewrite Hea, Hsb.
  destruct (totalDistance_Done pb a Hna) as [ta ->].
  destruct (totalDistance_Done pb b Hnb) as [tb ->].
  simpl. eauto.
Qed.

Lemma calculateSavings_Done pb a b w :
  2 ≤ length (Route.points a) → 2 ≤ length (Route.points b) →
  ∃ s, calculateSavings pb a b w = Done s.
Proof.
  intros (sa & ea & _ & Hea & Hna)%long_route_ends
         (sb & eb & Hsb & _ & Hnb)%long_route_ends.
  unfold calculateSavings, angle. rewrite Hea, Hsb. simpl. eauto.
Qed.

Lemma joinRoute_length a b :
  2 ≤ length (Route.points a) → 2 ≤ length (Route.points (joinRoute a b)).
Proof. simpl. rewrite length_app. lia. Qed.

Lemma usable_insert st st' r r' o :
  heap st' = <[r' := o]> (heap st) → 2 ≤ length (Route.points o) →
  usable st r → usable st' r.
Proof.
  intros Hheap Hlen (o' & Ho' & Hlen'). unfold usable. rewrite Hheap.
  destruct (decide (r' = r)) as [->|Hne].
  - exists o. by rewrite lookup_insert_eq.
  - exists o'. by rewrite lookup_insert_ne.
Qed.

Lemma splice1_subseteq {A} (i : Z) (l : list A) : splice1 i l ⊆ l.
Proof.
  unfold splice1. intros x [Hx|Hx]%elem_of_app.
  - by eapply subseteq_take.
  - by eapply subseteq_drop.
Qed.

(** What a call of [joinRoutes] on two usable routes does. *)
Lemma joinRoutes_spec pb st routeA routeB :
  sane st → usable st routeA → usable st routeB →
  ∃ a b ok st',
    heap st !! routeA = Some a ∧ heap st !! routeB = Some b ∧
    verifyRouteJoin pb a b = Done ok ∧
    joinRoutes pb st routeA routeB = Done (st', ok) ∧
    sane st' ∧ savings st' = savings st ∧
    (if ok
     then heap st' = <[routeA := joinRoute a b]> (heap st) ∧
          solutions st' = splice1 (indexOf (solutions st) routeB) (solutions st) ∧
          joinedRoutes st'
          = <[routeB := true]> (<[routeA := true]> (joinedRoutes st))
     else st' = st).
Proof.
  intros [Hsol Hsav] Ha Hb.
  destruct (usable_deref st routeA Ha) as (a & Hda & Hha & Hla).
  destruct (usable_deref st routeB Hb) as (b & Hdb & Hhb & Hlb).
  destruct (verifyRouteJoin_Done pb a b Hla Hlb) as [ok Hok].
  unfold joinRoutes, joinRoute_at. rewrite Hda, Hdb. simpl. rewrite Hok. simpl.
  exists a, b, ok. destruct ok; simpl.
  - eexists. split_and!; try done. split.
    + intros r Hr%splice1_subseteq. simpl.
      eapply usable_insert; [done|by apply joinRoute_length|by apply Hsol].
    + intros c Hc. simpl in *. destruct (Hsav c Hc).
      split; (eapply usable_insert; [done|by apply joinRoute_length|done]).
  - exists st. by split_and!.
Qed.

(** [findAllRouteSavingsPairs] *)

Lemma savingsPair_spec pb w st route arr other :
  route ∈ solutions st → other ∈ solutions st →
  usable st route → usable st other →
  Forall (verified pb st) arr →
  ∃ arr', savingsPair pb w st route arr other = Done arr' ∧
          Forall (verified pb st) arr'.
Proof.
  intros Hr Ho Hur Huo Harr. unfold savingsPair.
  destruct (decide (other = route)) as [->|Hne]; [eauto|].
  destruct (usable_deref st route Hur) as (r & Hdr & Hhr & Hlr).
  destruct (usable_deref st other Huo) as (o & Hdo & Hho & Hlo).
  rewrite Hdr, Hdo. simpl.
  destruct (calculateSavings_Done pb r o w Hlr Hlo) as [sAB ->].
  destruct (calculateSavings_Done pb o r w Hlo Hlr) as [sBA ->]. simpl.
  destruct (lt (max sAB sBA) (CWWeights.minSavings w)); [eauto|].
  set (a := if gt sAB sBA then route else other).
  set (b := if decide (a = route) then other else route).
  assert (Hab : (a = route ∧ b = other) ∨ (a = other ∧ b = route)).
  { unfold b, a. destruct (gt sAB sBA).
    - left. by rewrite decide_True.
    - right. by rewrite decide_False. }
  assert (∃ ra rb, deref st a = Done ra ∧ deref st b = Done rb ∧
                   heap st !! a = Some ra ∧ heap st !! b = Some rb ∧
                   2 ≤ length (Route.points ra) ∧
                   2 ≤ length (Route.points rb) ∧ a ≠ b ∧
                   a ∈ solutions st ∧ b ∈ solutions st)
    as (ra & rb & -> & -> & Hra & Hrb & Hla & Hlb & Hneq & Ha & Hb).
  { destruct Hab as [[-> ->]|[-> ->]]; [exists r, o|exists o, r];
      by split_and!. }
  simpl. destruct (verifyRouteJoin_Done pb ra rb Hla Hlb) as [ok Hok].
  rewrite Hok. simpl. destruct ok; [|eauto].
  eexists; split; [reflexivity|]. apply Forall_app. split; [done|].
  apply Forall_singleton. unfold verified. simpl.
  split_and!; try done. by exists ra, rb.
Qed.

Lemma savingsPairs_spec pb w st :
  (∀ r, r ∈ solutions st → usable st r) →
  ∃ arr, savingsPairs pb w st = Done arr ∧ Forall (verified pb st) arr.
Proof.
  intros Hsol. unfold savingsPairs.
  apply (foldM_invariant _ (Forall (verified pb st))); [done|].
  intros arr route Hroute Harr.
  apply (foldM_invariant _ (Forall (verified pb st))); [done|].
  intros arr' other Hother Harr'.
  apply savingsPair_spec; auto.
Qed.

Lemma findAllRouteSavingsPairs_spec pb w st :
  (∀ r, r ∈ solutions st → usable st r) →
  ∃ st', findAllRouteSavingsPairs pb w st = Done st' ∧
         heap st' = heap st ∧ solutions st' = solutions st ∧
         joinedRoutes st' = joinedRoutes st ∧ next_id st' = next_id st ∧
         ∀ c, c ∈ savings st' → verified pb st' c.
Proof.
  intros Hsol. unfold findAllRouteSavingsPairs.
  destruct (savingsPairs_spec pb w st Hsol) as [arr [-> Harr]]. simpl.
  destruct (js_sort_perm
              (fun a b => Done (sub (Savings.savings b) (Savings.savings a))) arr)
    as [sorted [-> Hperm]]; [eauto|].
  simpl. eexists; split_and!; try reflexivity. simpl.
  intros c Hc. rewrite Hperm in Hc.
  rewrite Forall_forall in Harr. apply Harr in Hc. exact Hc.
Qed.

Lemma verified_usable pb st c :
  (∀ r, r ∈ solutions st → usable st r) → verified pb st c →
  usable st (Savings.routeA c) ∧ usable st (Savings.routeB c).
Proof. intros Hsol (Ha & Hb & _). split; by apply Hsol. Qed.

Lemma atTest_sane pb st : atTest pb st → sane st.
Proof.
  intros (Hsol & _ & Hver). split; [done|].
  intros c Hc. eapply verified_usable; eauto.
Qed.

(** [mergeCandidate] *)

Lemma mergeCandidate_spec pb st c :
  sane st → c ∈ savings st →
  ∃ st', mergeCandidate pb st c = Done st' ∧ sane st' ∧
         savings st' = savings st ∧
         length (solutions st') ≤ length (solutions st).
Proof.
  intros Hsane Hc. pose proof Hsane as [Hsol Hsav].
  destruct (Hsav c Hc) as [Ha Hb].
  assert (Hjoin : ∀ x y, usable st x → usable st y →
            ∃ st', ('(st', _) ← joinRoutes pb st x y; Done st') = Done st' ∧
                   sane st' ∧ savings st' = savings st ∧
                   length (solutions st') ≤ length (solutions st)).
  { intros x y Hx Hy.
    destruct (joinRoutes_spec pb st x y Hsane Hx Hy)
      as (a & b & ok & st' & _ & _ & _ & -> & Hsane' & Hsav' & Hok).
    simpl. exists st'. split_and!; try done.
    destruct ok; [|by subst].
    destruct Hok as (_ & -> & _).
    rewrite splice1_length by apply indexOf_range. lia. }
  unfold mergeCandidate.
  destruct (negb (joined st (Savings.routeA c)) &&
            negb (joined st (Savings.routeB c))); [by apply Hjoin|].
  destruct (negb (joined st (Savings.routeA c))).
  { destruct (solutions st !! 0) as [first|] eqn:Hfirst; [|by eauto].
    assert (Hf : usable st first)
      by (apply Hsol; by eapply list_elem_of_lookup_2).
    destruct (usable_deref st first Hf) as (f & -> & _).
    destruct (usable_deref st _ Hb) as (b & -> & _). simpl.
    case_decide; [by apply Hjoin|by eauto]. }
  destruct (negb (joined st (Savings.routeB c))); [|by eauto].
  destruct (solutions st !! 0) as [first|] eqn:Hfirst; [|by eauto].
  assert (Hf : usable st first)
    by (apply Hsol; by eapply list_elem_of_lookup_2).
  destruct (usable_deref st first Hf) as (f & -> & _).
  destruct (usable_deref st _ Ha) as (a & -> & _). simpl.
  case_decide; [by apply Hjoin|by eauto].
Qed.

(** The first candidate of a turn is always merged. *)
Lemma mergeCandidate_first pb st c :
  atTest pb st → c ∈ savings st →
  ∃ st', mergeCandidate pb st c = Done st' ∧
         length (solutions st') < length (solutions st).
Proof.
  intros Htest Hc. pose proof (atTest_sane pb st Htest) as Hsane.
  destruct Htest as (Hsol & Hempty & Hver).
  destruct (Hver c Hc) as (HA & HB & Hne & a & b & Ha & Hb & Hok).
  unfold mergeCandidate, joined. rewrite Hempty, !lookup_empty. simpl.
  destruct (joinRoutes_spec pb st _ _ Hsane (Hsol _ HA) (Hsol _ HB))
    as (a' & b' & ok & st' & Ha' & Hb' & Hok' & -> & _ & _ & Hres).
  simpl. exists st'. split; [done|].
  assert (ok = true) as -> by congruence.
  destruct Hres as (_ & -> & _).
  rewrite splice1_length by apply indexOf_range.
  destruct (solutions st); [by apply elem_of_nil in HA|simpl; lia].
Qed.

(** [optimiseSolution] *)

Lemma optimiseSolution_spec pb st r :
  usable st r →
  ∃ st' o o' k,
    optimiseSolution pb st r = Done st' ∧
    heap st !! r = Some o ∧ optimise pb o 100 = Done (o', k) ∧
    heap st' = <[r := o']> (heap st) ∧
    solutions st' = solutions st ∧ savings st' = savings st ∧
    joinedRoutes st' = joinedRoutes st ∧
    Route.points o' ≡ₚ Route.points o ∧
    Route.points o' !! 0 = Route.points o !! 0 ∧
    Route.depot o' = Route.depot o.
Proof.
  intros Hr. destruct (usable_deref st r Hr) as (o & Hd & Ho & Hlen).
  assert (Hne : Route.points o ≠ []) by (destruct (Route.points o); simpl in *; [lia|done]).
  destruct (optimise_loop_spec pb o zero 100 Hne)
    as (o' & k & ds & Hrun & _ & _ & _ & _ & _ & Hperm & Hfirst & Hdep & _).
  unfold optimiseSolution. rewrite Hd. simpl.
  unfold optimise. rewrite Hrun. simpl.
  eexists _, o, o', k. by split_and!.
Qed.

Lemma usable_preserved st st' :
  (∀ r, usable st r → usable st' r) → solutions st' ⊆ solutions st →
  savings st' = savings st → sane st → sane st'.
Proof.
  intros Huse Hsol Hsav [H1 H2]. split.
  - intros r Hr. apply Huse, H1, Hsol, Hr.
  - intros c Hc. rewrite Hsav in Hc. destruct (H2 c Hc). split; by apply Huse.
Qed.

Lemma optimiseSolution_sane pb st r :
  sane st → r ∈ solutions st →
  ∃ st', optimiseSolution pb st r = Done st' ∧ sane st' ∧
         solutions st' = solutions st.
Proof.
  intros Hsane Hr.
  destruct (optimiseSolution_spec pb st r (proj1 Hsane r Hr))
    as (st' & o & o' & k & Hrun & Ho & _ & Hheap & Hsol & Hsav & _ & Hperm & _).
  exists st'. split_and!; try done.
  apply (usable_preserved st); try done; [|by rewrite Hsol].
  intros r' Hr'. eapply usable_insert; [done| |done].
  destruct (proj1 Hsane r Hr) as (o0 & Ho0 & Hlen).
  rewrite Hperm. congruence.
Qed.

(** One turn of the loop *)

Lemma mergeCandidates_spec pb st l :
  sane st → l ⊆ savings st →
  ∃ st', foldM (mergeCandidate pb) st l = Done st' ∧ sane st' ∧
         savings st' = savings st ∧
         length (solutions st') ≤ length (solutions st).
Proof.
  intros Hsane Hl.
  destruct (foldM_invariant (mergeCandidate pb)
              (fun s => sane s ∧ savings s = savings st ∧
                        length (solutions s) ≤ length (solutions st)) l st)
    as (st' & Hrun & ?); [by split_and!| |by exists st'].
  intros s c Hc (Hs & Hsav & Hlen).
  destruct (mergeCandidate_spec pb s c Hs) as (s' & -> & ? & ? & ?).
  { rewrite Hsav. by apply Hl. }
  exists s'. split_and!; try done; [congruence|lia].
Qed.

Lemma optimiseSolutions_spec pb st l :
  sane st → l ⊆ solutions st →
  ∃ st', foldM (optimiseSolution pb) st l = Done st' ∧ sane st' ∧
         solutions st' = solutions st.
Proof.
  intros Hsane Hl.
  destruct (foldM_invariant (optimiseSolution pb)
              (fun s => sane s ∧ solutions s = solutions st) l st)
    as (st' & Hrun & ?); [by split_and!| |by exists st'].
  intros s r Hr (Hs & Hsol).
  destruct (optimiseSolution_sane pb s r Hs) as (s' & -> & ? & ?).
  { rewrite Hsol. by apply Hl. }
  exists s'. split_and!; try done; congruence.
Qed.

Lemma solveRound_spec pb w opt st :
  atTest pb st → savings st ≠ [] →
  ∃ st', solveRound pb w opt st = Done st' ∧ atTest pb st' ∧
         length (solutions st') < length (solutions st).
Proof.
  intros Htest Hne. pose proof (atTest_sane pb st Htest) as Hsane.
  destruct (savings st) as [|c cs] eqn:Hsav; [done|].
  unfold solveRound. rewrite Hsav. simpl.
  destruct (mergeCandidate_spec pb st c Hsane) as (s1 & Hrun1 & Hs1 & Hsav1 & _).
  { rewrite Hsav. by left. }
  destruct (mergeCandidate_first pb st c Htest) as (s1' & Hrun1' & Hlt).
  { rewrite Hsav. by left. }
  assert (s1' = s1) as -> by congruence.
  rewrite Hrun1. simpl.
  destruct (mergeCandidates_spec pb s1 cs Hs1) as (s2 & -> & Hs2 & Hsav2 & Hle).
  { rewrite Hsav1, Hsav. set_solver. }
  simpl.
  assert (∃ s3, (if opt then foldM (optimiseSolution pb) s2 (solutions s2)
                 else Done s2) = Done s3 ∧ sane s3 ∧
                solutions s3 = solutions s2) as (s3 & -> & Hs3 & Hsol3).
  { destruct opt; [|by eauto]. by apply optimiseSolutions_spec. }
  simpl.
  destruct (findAllRouteSavingsPairs_spec pb w
              {| heap := heap s3; solutions := solutions s3;
                 savings := savings s3; joinedRoutes := ∅;
                 next_id := next_id s3 |})
    as (s4 & -> & Hheap & Hsol & Hjoined & _ & Hver).
  { intros r Hr. destruct (proj1 Hs3 r Hr) as (o & ? & ?). by exists o. }
  exists s4. split_and!; try done.
  - split_and!; try done.
    intros r Hr. rewrite Hsol in Hr. destruct (proj1 Hs3 r Hr) as (o & ? & ?).
    exists o. by rewrite Hheap.
  - rewrite Hsol. simpl. rewrite Hsol3. lia.
Qed.

(** The loop ends before the fuel does. *)
Lemma solveLoop_spec pb w opt fuel st :
  atTest pb st → length (solutions st) ≤ fuel →
  ∃ st', solveLoop pb w opt fuel st = Done st' ∧ atTest pb st' ∧
         savings st' = [].
Proof.
  revert st. induction fuel as [|fuel IH]; intros st Htest Hfuel.
  - destruct (savings st) as [|c cs] eqn:Hsav.
    { exists st. simpl. by rewrite Hsav. }
    destruct Htest as (_ & _ & Hver).
    destruct (Hver c) as (HA & _); [rewrite Hsav; by left|].
    destruct (solutions st); [by apply elem_of_nil in HA|simpl in *; lia].
  - simpl. destruct (savings st) as [|c cs] eqn:Hsav.
    { by exists st. }
    destruct (solveRound_spec pb w opt st Htest) as (st1 & -> & Htest1 & Hlt).
    { by rewrite Hsav. }
    simpl. apply IH; [done|lia].
Qed.

(** The singleton routes *)

Lemma newRoutes_spec depot pts fresh :
  (newRoutes depot pts fresh).2 = seq fresh (length pts) ∧
  (∀ i p, pts !! i = Some p →
          (newRoutes depot pts fresh).1 !! (fresh + i)
          = Some (new_Route p depot (fresh + i))) ∧
  (∀ r, r < fresh → (newRoutes depot pts fresh).1 !! r = None).
Proof.
  revert fresh. induction pts as [|p pts IH]; intros fresh; simpl.
  { split_and!; [done|by intros i p ?|by intros]. }
  destruct (IH (S fresh)) as (Hids & Hheap & Hbelow).
  destruct (newRoutes depot pts (S fresh)) as [h ids] eqn:E. simpl in *.
  split_and!.
  - by rewrite Hids.
  - intros [|i] q Hq; simpl in *.
    + injection Hq as ->. by rewrite Nat.add_0_r, lookup_insert_eq.
    + rewrite lookup_insert_ne by lia.
      replace (fresh + S i) with (S fresh + i) by lia. by apply Hheap.
  - intros r Hr. rewrite lookup_insert_ne by lia. apply Hbelow. lia.
Qed.

Lemma initialState_spec pb fresh :
  solutions (initialState pb fresh) = seq fresh (length (CW.points pb)) ∧
  savings (initialState pb fresh) = [] ∧
  joinedRoutes (initialState pb fresh) = ∅ ∧
  ∀ i p, CW.points pb !! i = Some p →
         heap (initialState pb fresh) !! (fresh + i)
         = Some (new_Route p (CW.depot pb) (fresh + i)).
Proof.
  unfold initialState.
  destruct (newRoutes_spec (CW.depot pb) (CW.points pb) fresh) as (Hids & Hheap & _).
  destruct (newRoutes (CW.depot pb) (CW.points pb) fresh) as [h ids]. simpl in *.
  by split_and!.
Qed.

Lemma initialState_usable pb fresh r :
  r ∈ solutions (initialState pb fresh) → usable (initialState pb fresh) r.
Proof.
  destruct (initialState_spec pb fresh) as (-> & _ & _ & Hheap).
  intros [Hlo Hhi]%elem_of_seq.
  destruct (lookup_lt_is_Some_2 (CW.points pb) (r - fresh) ltac:(lia)) as [p Hp].
  apply Hheap in Hp. replace (fresh + (r - fresh)) with r in Hp by lia.
  eexists. split; [done|]. simpl. lia.
Qed.

Lemma firstTest_spec pb w fresh :
  ∃ st, findAllRouteSavingsPairs pb w (initialState pb fresh) = Done st ∧
        atTest pb st ∧
        heap st = heap (initialState pb fresh) ∧
        solutions st = solutions (initialState pb fresh).
Proof.
  destruct (findAllRouteSavingsPairs_spec pb w (initialState pb fresh))
    as (st & Hrun & Hheap & Hsol & Hjoined & _ & Hver).
  { apply initialState_usable. }
  exists st. split; [done|]. split; [|done]. unfold atTest. split_and!.
  - intros r Hr. rewrite Hsol in Hr.
    destruct (initialState_usable pb fresh r Hr) as (o & ? & ?).
    exists o. by rewrite Hheap.
  - rewrite Hjoined. apply initialState_spec.
  - done.
Qed.

Lemma withinCap_spec pb st r :
  usable st r →
  ∃ o d, heap st !! r = Some o ∧ totalDistance pb o = Done d ∧
         withinCap pb st r = Done (lt d (CW.maxDistance pb)).
Proof.
  intros Hr. destruct (usable_deref st r Hr) as (o & Hd & Ho & Hlen).
  destruct (totalDistance_Done pb o) as [d Hdist].
  { destruct (Route.points o); simpl in *; [lia|done]. }
  exists o, d. unfold withinCap. rewrite Hd. simpl. by rewrite Hdist.
Qed.

Lemma densityOrder_Done pb st a b :
  usable st a → usable st b → ∃ c, densityOrder pb st a b = Done c.
Proof.
  intros Ha Hb.
  destruct (withinCap_spec pb st a Ha) as (oa & da & Hoa & Hda & _).
  destruct (withinCap_spec pb st b Hb) as (ob & db & Hob & Hdb & _).
  unfold densityOrder, deref. rewrite Hoa, Hob. simpl.
  rewrite Hdb. simpl. rewrite Hda. simpl. eauto.
Qed.

(** [solve] returns: no [TypeError], and the loop is over before the fuel. *)
Lemma solve_returns pb w opt fresh :
  ∃ st0 st kept res,
    findAllRouteSavingsPairs pb w (initialState pb fresh) = Done st0 ∧
    solveLoop pb w opt (S (length (CW.points pb))) st0 = Done st ∧
    solve pb w opt fresh = Done (st, res) ∧
    atTest pb st ∧ savings st = [] ∧
    kept `sublist_of` solutions st ∧ res ≡ₚ kept ∧
    ∀ r, r ∈ res ↔ r ∈ solutions st ∧ withinCap pb st r = Done true.
Proof.
  destruct (firstTest_spec pb w fresh) as (st0 & Hrun0 & Htest0 & _ & Hsol0).
  destruct (solveLoop_spec pb w opt (S (length (CW.points pb))) st0 Htest0)
    as (st & Hloop & Htest & Hsav).
  { rewrite Hsol0. destruct (initialState_spec pb fresh) as (-> & _).
    rewrite length_seq. lia. }
  pose proof Htest as (Hsol & _ & _).
  destruct (filterM_spec (withinCap pb st) (solutions st))
    as (kept & Hkept & Hsub & Hin).
  { intros r Hr. destruct (withinCap_spec pb st r (Hsol r Hr)) as (o & d & _ & _ & ->).
    eauto. }
  destruct (js_sort_perm (densityOrder pb st) kept) as (res & Hres & Hperm).
  { intros a b Ha Hb. apply densityOrder_Done; apply Hsol.
    - by apply Hin in Ha as [? _].
    - by apply Hin in Hb as [? _]. }
  exists st0, st, kept, res. unfold solve.
  rewrite Hrun0. cbn [mbind outcome_bind bind].
  rewrite Hloop. cbn [mbind outcome_bind bind].
  rewrite Hkept. cbn [mbind outcome_bind bind].
  rewrite Hres. split_and!; try done.
  intros r. by rewrite Hperm.
Qed.

(** C1.  [solve] returns, and every route it returns has a [totalDistance()]
    strictly below [maxDistance]; an active route whose total distance is not
    strictly below the cap is not in the output. *)
Theorem solve_routes_below_cap pb w opt fresh :
  ∃ st res,
    solve pb w opt fresh = Done (st, res) ∧
    (∀ r, r ∈ res →
          ∃ o d, heap st !! r = Some o ∧ totalDistance pb o = Done d ∧
                 lt d (CW.maxDistance pb) = true) ∧
    (∀ r o d, r ∈ solutions st → heap st !! r = Some o →
              totalDistance pb o = Done d →
              lt d (CW.maxDistance pb) = false → r ∉ res).
Proof.
  destruct (solve_returns pb w opt fresh)
    as (st0 & st & kept & res & _ & _ & Hsolve & (Hsol & _) & _ & _ & _ & Hres).
  exists st, res. split_and!; [done| |].
  - intros r [Hr Hcap]%Hres.
    destruct (withinCap_spec pb st r (Hsol r Hr)) as (o & d & Ho & Hd & Hcap').
    exists o, d. split_and!; try done. congruence.
  - intros r o d Hr Ho Hd Hlt [_ Hcap]%Hres.
    destruct (withinCap_spec pb st r (Hsol r Hr)) as (o' & d' & Ho' & Hd' & Hcap').
    congruence.
Qed.

(** ** The routes partition the customers *)

Lemma routesOf_bind st (l : list rid) :
  routesOf st l ≫= customersOf = l ≫= cust st.
Proof.
  unfold routesOf, cust. induction l as [|r l IH]; [done|].
  rewrite bind_cons, <- IH. cbn [omap list_omap].
  destruct (heap st !! r); [by rewrite bind_cons|done].
Qed.

Lemma filter_id {A} (P : A → Prop) `{∀ x, Decision (P x)} (l : list A) :
  (∀ x, x ∈ l → P x) → filter P l = l.
Proof.
  induction l as [|x l IH]; intros HP; [done|].
  rewrite filter_cons_True by (apply HP; by left).
  f_equal. apply IH. intros y Hy. apply HP. by right.
Qed.

Lemma shaped_customers pb o :
  shaped pb o →
  Route.points o = CW.depot pb :: customersOf o ∧
  customersOf o ≠ [] ∧ CW.depot pb ∉ customersOf o.
Proof.
  intros [Hdep (c & t & Hpts & Hnot)].
  assert (customersOf o = c :: t) as ->.
  { unfold customersOf. rewrite Hpts, Hdep.
    rewrite filter_cons_False by (intros E; by apply E).
    apply filter_id. intros x Hx ->. by apply Hnot. }
  by split_and!.
Qed.

Lemma customers_shaped pb o cs :
  Route.depot o = CW.depot pb → Route.points o = CW.depot pb :: cs →
  cs ≠ [] → CW.depot pb ∉ cs → shaped pb o.
Proof.
  intros Hdep Hpts Hne Hnot. split; [done|].
  destruct cs as [|c t]; [done|]. by exists c, t.
Qed.

Lemma shaped_usable pb o : shaped pb o → 2 ≤ length (Route.points o).
Proof. intros [_ (c & t & -> & _)]. simpl. lia. Qed.

Lemma shaped_start pb o :
  shaped pb o → ∃ p, getStart o = Some p ∧ p ∈ customersOf o.
Proof.
  intros Hs. pose proof (shaped_customers pb o Hs) as (Hpts & Hne & _).
  unfold getStart. rewrite Hpts.
  destruct (customersOf o) as [|c t]; [done|]. exists c. split; [done|by left].
Qed.

Lemma shaped_end pb o :
  shaped pb o → ∃ p, getEnd o = Some p ∧ p ∈ customersOf o.
Proof.
  intros Hs. pose proof (shaped_customers pb o Hs) as (Hpts & Hne & _).
  unfold getEnd. rewrite Hpts.
  destruct (customersOf o) as [|c t]; [done|].
  rewrite last_cons. destruct (last (c :: t)) as [e|] eqn:E.
  - exists e. split; [done|]. by apply last_Some_elem_of.
  - by apply last_None in E.
Qed.

Lemma shaped_joinRoute pb a b :
  shaped pb a → shaped pb b →
  shaped pb (joinRoute a b) ∧
  customersOf (joinRoute a b) = customersOf a ++ customersOf b.
Proof.
  intros Ha Hb.
  pose proof (shaped_customers pb a Ha) as (Hpa & Hna & Hda).
  pose proof (shaped_customers pb b Hb) as (Hpb & Hnb & Hdb).
  assert (Hpts : Route.points (joinRoute a b)
                 = CW.depot pb :: (customersOf a ++ customersOf b)).
  { simpl. by rewrite Hpa, Hpb. }
  assert (Hs : shaped pb (joinRoute a b)).
  { eapply customers_shaped; [apply Ha|done| |].
    - by destruct (customersOf a).
    - intros [?|?]%elem_of_app; done. }
  split; [done|].
  pose proof (shaped_customers pb _ Hs) as (Hpts' & _).
  rewrite Hpts in Hpts'. by injection Hpts' as <-.
Qed.

Lemma shaped_permuted pb o o' :
  shaped pb o → Route.points o' ≡ₚ Route.points o →
  Route.points o' !! 0 = Route.points o !! 0 →
  Route.depot o' = Route.depot o →
  shaped pb o' ∧ customersOf o' ≡ₚ customersOf o.
Proof.
  intros Hs Hperm Hfirst Hdep.
  pose proof (shaped_customers pb o Hs) as (Hpts & Hne & Hnot).
  rewrite Hpts in Hperm, Hfirst.
  destruct (Route.points o') as [|d cs] eqn:Hpts'; [done|].
  simpl in Hfirst. injection Hfirst as ->.
  apply (inj (cons (CW.depot pb))) in Hperm.
  assert (Hs' : shaped pb o').
  { eapply customers_shaped; [by rewrite Hdep; apply Hs|done| |].
    - intros ->. apply Permutation_nil_l in Hperm. done.
    - by rewrite Hperm. }
  split; [done|].
  pose proof (shaped_customers pb o' Hs') as (Hpts'' & _).
  rewrite Hpts' in Hpts''. by injection Hpts'' as <-.
Qed.

(** Lists of lists *)

Lemma bind_ext_perm {A B} (f g : A → list B) (l : list A) :
  (∀ x, x ∈ l → f x ≡ₚ g x) → l ≫= f ≡ₚ l ≫= g.
Proof.
  induction l as [|x l IH]; intros Hfg; [done|].
  rewrite !bind_cons. rewrite (Hfg x) by (by left).
  apply Permutation_app_head, IH. intros y Hy. apply Hfg. by right.
Qed.

Lemma bind_absorb {A B} `{EqDecision A} (f g : A → list B) (a : A) (extra : list B)
    (l : list A) :
  NoDup l → a ∈ l → g a = f a ++ extra → (∀ x, x ≠ a → g x = f x) →
  l ≫= g ≡ₚ (l ≫= f) ++ extra.
Proof.
  intros Hnd Ha Hga Hother. induction l as [|x l IH]; [by apply elem_of_nil in Ha|].
  apply NoDup_cons in Hnd as [Hx Hnd]. rewrite !bind_cons.
  destruct (decide (x = a)) as [->|Hne].
  - rewrite Hga.
    rewrite (bind_ext_perm g f l).
    + rewrite <- !(assoc (++)). apply Permutation_app_head, Permutation_app_comm.
    + intros y Hy. rewrite Hother; [done|]. intros ->. done.
  - apply elem_of_cons in Ha as [?|Ha]; [congruence|].
    rewrite (Hother x Hne), IH by done. by rewrite (assoc (++)).
Qed.

Lemma bind_disjoint {A B} (f : A → list B) (l : list A) (x y : A) (p : B) :
  NoDup (l ≫= f) → NoDup l → x ∈ l → y ∈ l → x ≠ y →
  p ∈ f x → p ∈ f y → False.
Proof.
  intros Hnd Hl. revert x y. induction l as [|z l IH]; intros x y Hx Hy Hne Hpx Hpy.
  { by apply elem_of_nil in Hx. }
  rewrite bind_cons in Hnd. apply NoDup_app in Hnd as (_ & Hdisj & Hnd).
  apply NoDup_cons in Hl as [Hz Hl].
  assert (Hin : ∀ w, w ∈ l → p ∈ f w → p ∈ l ≫= f).
  { intros w Hw Hpw. apply list_elem_of_bind. by exists w. }
  apply elem_of_cons in Hx as [->|Hx]; apply elem_of_cons in Hy as [->|Hy].
  - done.
  - eapply Hdisj; [exact Hpx|]. by eapply Hin.
  - eapply Hdisj; [exact Hpy|]. by eapply Hin.
  - by eapply (IH Hnd Hl x y).
Qed.

Lemma sublist_bind {A B} (f : A → list B) (l1 l2 : list A) :
  l1 `sublist_of` l2 → (l1 ≫= f) `sublist_of` (l2 ≫= f).
Proof.
  induction 1 as [|x l1 l2 _ IH|x l1 l2 _ IH]; rewrite ?bind_cons.
  - done.
  - by apply sublist_app.
  - by apply sublist_inserts_l.
Qed.

Lemma activeCustomers_cust st : activeCustomers st = solutions st ≫= cust st.
Proof. apply routesOf_bind. Qed.

Lemma wellRouted_disjoint pb st x y p :
  distinctPoints pb → wellRouted pb st →
  x ∈ solutions st → y ∈ solutions st → x ≠ y →
  p ∈ cust st x → p ∈ cust st y → False.
Proof.
  intros [Hnd _] (Hsol & _ & Hpart). apply bind_disjoint; [|done].
  rewrite <- activeCustomers_cust. unfold partitionsCustomers in Hpart.
  by rewrite Hpart.
Qed.

Lemma joined_insert st st' a b r :
  joinedRoutes st' = <[b := true]> (<[a := true]> (joinedRoutes st)) →
  joined st' r = true ↔ r = a ∨ r = b ∨ joined st r = true.
Proof.
  intros Hj. unfold joined. rewrite Hj.
  destruct (decide (r = b)) as [->|Hb].
  { rewrite lookup_insert_eq. simpl. naive_solver. }
  rewrite lookup_insert_ne by done.
  destruct (decide (r = a)) as [->|Ha].
  { rewrite lookup_insert_eq. simpl. naive_solver. }
  rewrite lookup_insert_ne by done. naive_solver.
Qed.

Lemma wellRouted_merging_sane pb st :
  wellRouted pb st → merging pb st → sane st.
Proof.
  intros (_ & Hshape & _) (Hjoined & Hcand).
  assert (Hsol : ∀ r, r ∈ solutions st → usable st r).
  { intros r Hr. destruct (Hshape r Hr) as (o & Ho & Hs).
    exists o. split; [done|]. by eapply shaped_usable. }
  assert (Hj : ∀ r, joined st r = true → usable st r).
  { intros r Hr. destruct (Hjoined r Hr) as (o & Ho & Hs & _).
    exists o. split; [done|]. by eapply shaped_usable. }
  split; [done|]. intros c Hc. destruct (Hcand c Hc) as (_ & HA & HB).
  split.
  - destruct (joined st (Savings.routeA c)) eqn:E; [by apply Hj|by apply Hsol, HA].
  - destruct (joined st (Savings.routeB c)) eqn:E; [by apply Hj|by apply Hsol, HB].
Qed.

Lemma cust_insert st st' a o r :
  heap st' = <[a := o]> (heap st) →
  cust st' r = if decide (r = a) then customersOf o else cust st r.
Proof.
  intros Hheap. unfold cust. rewrite Hheap.
  case_decide as E; [subst; by rewrite lookup_insert_eq|].
  by rewrite lookup_insert_ne.
Qed.

(** A successful [joinRoutes] of two different active routes keeps the
    partition. *)
Lemma joinRoutes_partition pb st a b st' ok :
  distinctPoints pb → wellRouted pb st → merging pb st →
  a ∈ solutions st → b ∈ solutions st → a ≠ b →
  joinRoutes pb st a b = Done (st', ok) →
  wellRouted pb st' ∧ merging pb st'.
Proof.
  intros Hdist Hwell Hmerg Ha Hb Hne Hrun.
  pose proof (wellRouted_merging_sane pb st Hwell Hmerg) as Hsane.
  destruct (joinRoutes_spec pb st a b Hsane (proj1 Hsane a Ha) (proj1 Hsane b Hb))
    as (oa & ob & ok' & st'' & Hoa & Hob & _ & Hrun' & _ & Hsav & Hres).
  rewrite Hrun in Hrun'. injection Hrun' as <- <-.
  destruct ok; [|by subst].
  destruct Hres as (Hheap & Hsols & Hjoined).
  destruct Hwell as (Hnd & Hshape & Hpart).
  destruct Hmerg as (Hmarked & Hcand).
  destruct (Hshape a Ha) as (oa' & Hoa' & Hsa).
  destruct (Hshape b Hb) as (ob' & Hob' & Hsb).
  assert (oa' = oa) as -> by congruence. assert (ob' = ob) as -> by congruence.
  destruct (shaped_joinRoute pb oa ob Hsa Hsb) as [Hsj Hcj].
  destruct (indexOf_elem (solutions st) b Hb) as (l1 & l2 & Hsplit & Hb1 & Hidx).
  rewrite Hidx, Hsplit, splice1_at in Hsols.
  assert (Hb2 : b ∉ l2).
  { rewrite Hsplit in Hnd. apply NoDup_app in Hnd as (_ & _ & Hnd).
    by apply NoDup_cons in Hnd as [? _]. }
  assert (Hin' : ∀ r, r ∈ solutions st' ↔ r ∈ solutions st ∧ r ≠ b).
  { intros r. rewrite Hsols, Hsplit. rewrite !elem_of_app, elem_of_cons.
    split; [|naive_solver]. intros [?|?]; split; auto; by intros ->. }
  assert (Hnd' : NoDup (solutions st')).
  { rewrite Hsols. rewrite Hsplit in Hnd.
    apply (sublist_NoDup (l1 ++ l2) (l1 ++ b :: l2)); [done|].
    apply sublist_app; [done|]. by apply sublist_cons. }
  assert (Hcust : ∀ r, cust st' r
                       = if decide (r = a) then cust st a ++ cust st b
                         else cust st r).
  { intros r. rewrite (cust_insert st st' a _ r Hheap).
    case_decide; [|done]. unfold cust at 1 2. by rewrite Hoa, Hob. }
  assert (Hcust_a : cust st' a = cust st a ++ cust st b)
    by (by rewrite Hcust, decide_True).
  split.
  - split_and!; [done| |].
    + intros r [Hr Hrb]%Hin'. rewrite Hheap.
      destruct (decide (r = a)) as [->|Hra].
      * exists (joinRoute oa ob). by rewrite lookup_insert_eq.
      * rewrite lookup_insert_ne by done. by apply Hshape.
    + unfold partitionsCustomers in *. rewrite <- Hpart.
      rewrite !activeCustomers_cust, Hsols, Hsplit.
      rewrite (bind_absorb (cust st) (cust st') a (cust st b) (l1 ++ l2)).
      * rewrite !bind_app, bind_cons. rewrite <- !(assoc (++)).
        apply Permutation_app_head. apply Permutation_app_comm.
      * by rewrite <- Hsols.
      * rewrite <- Hsols. by apply Hin'.
      * done.
      * intros r Hr. by rewrite Hcust, decide_False.
  - split.
    + intros r [->|[->|Hr]]%(joined_insert st st' a b _ Hjoined).
      * exists (joinRoute oa ob). rewrite Hheap, lookup_insert_eq.
        split_and!; [done..|]. intros p Hp. exists a. split_and!.
        -- by apply Hin'.
        -- apply (joined_insert st st' a b _ Hjoined). by left.
        -- by rewrite (cust_insert st st' a _ a Hheap), decide_True.
      * exists ob. rewrite Hheap, lookup_insert_ne by done.
        split_and!; [done..|]. intros p Hp. exists a. split_and!.
        -- by apply Hin'.
        -- apply (joined_insert st st' a b _ Hjoined). by left.
        -- rewrite Hcust_a. apply elem_of_app. right.
           unfold cust. by rewrite Hob.
      * destruct (decide (r = a)) as [->|Hra].
        { exists (joinRoute oa ob). rewrite Hheap, lookup_insert_eq.
          split_and!; [done..|]. intros p Hp. exists a. split_and!.
          -- by apply Hin'.
          -- apply (joined_insert st st' a b _ Hjoined). by left.
          -- by rewrite (cust_insert st st' a _ a Hheap), decide_True. }
        destruct (Hmarked r Hr) as (o & Ho & Hso & Hpts).
        exists o. rewrite Hheap, lookup_insert_ne by done.
        split_and!; [done..|]. intros p Hp.
        destruct (Hpts p Hp) as (x & Hx & Hjx & Hpx).
        destruct (decide (x = a ∨ x = b)) as [Hab|Hnab].
        -- exists a. split_and!.
           ++ by apply Hin'.
           ++ apply (joined_insert st st' a b _ Hjoined). by left.
           ++ rewrite Hcust_a. apply elem_of_app.
              destruct Hab as [->| ->]; auto.
        -- exists x. split_and!.
           ++ apply Hin'. split; [done|]. intros ->. apply Hnab. by right.
           ++ apply (joined_insert st st' a b _ Hjoined). auto.
           ++ rewrite Hcust, decide_False; [done|].
              intros ->. apply Hnab. by left.
    + intros c Hc. rewrite Hsav in Hc. destruct (Hcand c Hc) as (Hdiff & HA & HB).
      split_and!; [done| |].
      * intros Hnj. apply Hin'.
        destruct (joined st (Savings.routeA c)) eqn:E.
        { assert (joined st' (Savings.routeA c) = true)
            by (apply (joined_insert st st' a b _ Hjoined); auto).
          congruence. }
        split; [by apply HA|]. intros Heq.
        assert (joined st' (Savings.routeA c) = true)
          by (apply (joined_insert st st' a b _ Hjoined); auto).
        congruence.
      * intros Hnj. apply Hin'.
        destruct (joined st (Savings.routeB c)) eqn:E.
        { assert (joined st' (Savings.routeB c) = true)
            by (apply (joined_insert st st' a b _ Hjoined); auto).
          congruence. }
        split; [by apply HB|]. intros Heq.
        assert (joined st' (Savings.routeB c) = true)
          by (apply (joined_insert st st' a b _ Hjoined); auto).
        congruence.
Qed.

Lemma joined_false_not_true st r : joined st r = false → joined st r ≠ true.
Proof. by intros ->. Qed.

(** One turn of the [for] loop keeps the partition, the fallback merges
    against [solutions[0]] included. *)
Lemma mergeCandidate_partition pb st c st' :
  distinctPoints pb → wellRouted pb st → merging pb st →
  c ∈ savings st → mergeCandidate pb st c = Done st' →
  wellRouted pb st' ∧ merging pb st' ∧ savings st' = savings st.
Proof.
  intros Hdist Hwell Hmerg Hc Hrun.
  pose proof (wellRouted_merging_sane pb st Hwell Hmerg) as Hsane.
  destruct (mergeCandidate_spec pb st c Hsane Hc) as (st'' & Hrun' & _ & Hsav & _).
  assert (st'' = st') as -> by congruence. clear Hrun'.
  cut (wellRouted pb st' ∧ merging pb st'); [by intros []|].
  pose proof Hmerg as (Hmarked & Hcand).
  destruct (Hcand c Hc) as (Hdiff & HA & HB).
  pose proof Hwell as (Hnd & Hshape & _).
  assert (Hjoin : ∀ x y s, x ∈ solutions st → y ∈ solutions st → x ≠ y →
            ('(s', _) ← joinRoutes pb st x y; Done s') = Done s →
            wellRouted pb s ∧ merging pb s).
  { intros x y s Hx Hy Hxy Hs. inv_bind Hs. destruct v as [s' ok].
    injection Hs as ->. by apply (joinRoutes_partition pb st x y s ok). }
  unfold mergeCandidate in Hrun.
  destruct (joined st (Savings.routeA c)) eqn:EA;
    destruct (joined st (Savings.routeB c)) eqn:EB; simpl in Hrun.
  - by injection Hrun as <-.
  - (* the fallback that appends routeB to the first active route *)
    destruct (solutions st !! 0) as [first|] eqn:Hfirst;
      [|by injection Hrun as <-].
    assert (Hf : first ∈ solutions st) by (by eapply list_elem_of_lookup_2).
    destruct (Hshape first Hf) as (f & Hhf & Hsf).
    destruct (Hmarked _ EA) as (a & Hha & Hsa & Hpts).
    unfold deref in Hrun. rewrite Hhf, Hha in Hrun. simpl in Hrun.
    case_decide as Hends; [|by injection Hrun as <-].
    apply (Hjoin first (Savings.routeB c)); [done|by apply HB| |done].
    intros ->. destruct (Hshape _ (HB eq_refl)) as (b & Hhb & Hsb).
    assert (f = b) as -> by congruence.
    destruct (shaped_end pb a Hsa) as (p & Hpa & Hpin).
    destruct (shaped_end pb b Hsb) as (p' & Hpb & Hpin').
    assert (p' = p) as -> by congruence.
    destruct (Hpts p Hpin) as (x & Hx & Hjx & Hpx).
    eapply (wellRouted_disjoint pb st x (Savings.routeB c) p); try done.
    + intros ->. congruence.
    + unfold cust. by rewrite Hhb.
  - (* the fallback that appends the first active route to routeA *)
    destruct (solutions st !! 0) as [first|] eqn:Hfirst;
      [|by injection Hrun as <-].
    assert (Hf : first ∈ solutions st) by (by eapply list_elem_of_lookup_2).
    destruct (Hshape first Hf) as (f & Hhf & Hsf).
    destruct (Hmarked _ EB) as (b & Hhb & Hsb & Hpts).
    unfold deref in Hrun. rewrite Hhf, Hhb in Hrun. simpl in Hrun.
    case_decide as Hstarts; [|by injection Hrun as <-].
    apply (Hjoin (Savings.routeA c) first); [by apply HA|done| |done].
    intros <-. destruct (Hshape _ (HA eq_refl)) as (a & Hha & Hsa).
    assert (f = a) as -> by congruence.
    destruct (shaped_start pb a Hsa) as (p & Hpa & Hpin).
    destruct (shaped_start pb b Hsb) as (p' & Hpb & Hpin').
    assert (p' = p) as -> by congruence.
    destruct (Hpts p Hpin') as (x & Hx & Hjx & Hpx).
    eapply (wellRouted_disjoint pb st x (Savings.routeA c) p); try done.
    + intros ->. congruence.
    + unfold cust. by rewrite Hha.
  - apply (Hjoin (Savings.routeA c) (Savings.routeB c)); auto.
Qed.

Lemma mergeCandidates_partition pb st l st' :
  distinctPoints pb → wellRouted pb st → merging pb st →
  l ⊆ savings st → foldM (mergeCandidate pb) st l = Done st' →
  wellRouted pb st' ∧ merging pb st' ∧ savings st' = savings st.
Proof.
  intros Hdist Hwell Hmerg Hl Hrun.
  apply (foldM_preserved (mergeCandidate pb)
           (fun s => wellRouted pb s ∧ merging pb s ∧ savings s = savings st)
           l st st'); [done| |done].
  intros s c s' Hc (Hw & Hm & Hsav) Hstep.
  destruct (mergeCandidate_partition pb s c s' Hdist Hw Hm) as (? & ? & ?);
    [rewrite Hsav; by apply Hl|done|].
  split_and!; [done..|congruence].
Qed.

(** Optimising a route keeps the partition. *)
Lemma optimiseSolution_partition pb st r st' :
  wellRouted pb st → r ∈ solutions st →
  optimiseSolution pb st r = Done st' →
  wellRouted pb st' ∧ solutions st' = solutions st.
Proof.
  intros (Hnd & Hshape & Hpart) Hr Hrun.
  destruct (Hshape r Hr) as (o & Ho & Hso).
  destruct (optimiseSolution_spec pb st r) as
    (st'' & o0 & o' & k & Hrun' & Ho0 & _ & Hheap & Hsol & _ & _
     & Hperm & Hfirst & Hdep).
  { exists o. split; [done|]. by eapply shaped_usable. }
  assert (st'' = st') as -> by congruence.
  assert (o0 = o) as -> by congruence.
  destruct (shaped_permuted pb o o' Hso Hperm Hfirst Hdep) as [Hso' Hcust].
  split; [|done]. split_and!.
  - by rewrite Hsol.
  - intros x Hx. rewrite Hsol in Hx. rewrite Hheap.
    destruct (decide (x = r)) as [->|Hne].
    + exists o'. by rewrite lookup_insert_eq.
    + rewrite lookup_insert_ne by done. by apply Hshape.
  - unfold partitionsCustomers in *. rewrite <- Hpart.
    rewrite !activeCustomers_cust, Hsol. apply bind_ext_perm.
    intros x Hx. rewrite (cust_insert st st' r o' x Hheap).
    case_decide as E; [|done]. subst x. unfold cust. by rewrite Ho.
Qed.

Lemma optimiseSolutions_partition pb st l st' :
  wellRouted pb st → l ⊆ solutions st →
  foldM (optimiseSolution pb) st l = Done st' →
  wellRouted pb st' ∧ solutions st' = solutions st.
Proof.
  intros Hwell Hl Hrun.
  apply (foldM_preserved (optimiseSolution pb)
           (fun s => wellRouted pb s ∧ solutions s = solutions st)
           l st st'); [done| |done].
  intros s r s' Hr (Hw & Hsol) Hstep.
  destruct (optimiseSolution_partition pb s r s' Hw) as (? & ?);
    [rewrite Hsol; by apply Hl|done|].
  split; [done|congruence].
Qed.

Lemma wellRouted_same pb st st' :
  heap st' = heap st → solutions st' = solutions st →
  wellRouted pb st → wellRouted pb st'.
Proof.
  intros Hheap Hsol (Hnd & Hshape & Hpart). split_and!.
  - by rewrite Hsol.
  - intros r. rewrite Hsol, Hheap. apply Hshape.
  - unfold partitionsCustomers in *. rewrite <- Hpart.
    rewrite !activeCustomers_cust, Hsol. apply bind_ext_perm.
    intros x _. unfold cust. by rewrite Hheap.
Qed.

Lemma atTest_merging pb st : atTest pb st → merging pb st.
Proof.
  intros (_ & Hempty & Hver). split.
  - intros r. unfold joined. by rewrite Hempty, lookup_empty.
  - intros c Hc. destruct (Hver c Hc) as (HA & HB & Hne & _). by split_and!.
Qed.

Lemma seq_bind_singletons {B} (f : nat → list B) (pts : list B) (fresh : nat) :
  (∀ i p, pts !! i = Some p → f (fresh + i) = [p]) →
  seq fresh (length pts) ≫= f = pts.
Proof.
  revert fresh. induction pts as [|p pts IH]; intros fresh Hf; [done|].
  cbn [length seq]. rewrite bind_cons.
  rewrite <- (Nat.add_0_r fresh) at 1. rewrite (Hf 0 p eq_refl).
  simpl. f_equal. apply IH. intros i q Hq.
  replace (S fresh + i) with (fresh + S i) by lia. by apply Hf.
Qed.

(** The singleton routes partition the customers. *)
Lemma initialState_wellRouted pb fresh :
  distinctPoints pb → wellRouted pb (initialState pb fresh).
Proof.
  intros [Hnd Hdep].
  destruct (initialState_spec pb fresh) as (Hsol & _ & _ & Hheap).
  assert (Hcust : ∀ i p, CW.points pb !! i = Some p →
            cust (initialState pb fresh) (fresh + i) = [p]).
  { intros i p Hp. unfold cust. rewrite (Hheap i p Hp). simpl.
    unfold customersOf. cbn [new_Route Route.points Route.depot].
    rewrite filter_cons_False by (intros E; by apply E).
    rewrite filter_cons_True; [done|].
    intros ->. apply Hdep. by eapply list_elem_of_lookup_2. }
  split_and!.
  - rewrite Hsol. apply NoDup_seq.
  - intros r. rewrite Hsol. intros [Hlo Hhi]%elem_of_seq.
    destruct (lookup_lt_is_Some_2 (CW.points pb) (r - fresh) ltac:(lia)) as [p Hp].
    pose proof (Hheap _ _ Hp) as Hr.
    replace (fresh + (r - fresh)) with r in Hr by lia.
    eexists. split; [done|]. split; [done|]. exists p, []. split; [done|].
    intros E%list_elem_of_singleton. apply Hdep. rewrite E.
    by eapply list_elem_of_lookup_2.
  - unfold partitionsCustomers. rewrite activeCustomers_cust, Hsol.
    by rewrite (seq_bind_singletons _ _ _ Hcust).
Qed.

(** At every test of the loop the routes partition the customers. *)
Lemma atLoopTest_partition pb w opt fresh st :
  distinctPoints pb → atLoopTest pb w opt fresh st →
  wellRouted pb st ∧ atTest pb st.
Proof.
  intros Hdist. induction 1 as [st Hrun|st st' _ [Hwell Htest] Hne Hrun].
  - destruct (firstTest_spec pb w fresh) as (st0 & Hrun0 & Htest0 & Hheap & Hsol).
    assert (st0 = st) as -> by congruence. split; [|done].
    eapply wellRouted_same; [done..|]. by apply initialState_wellRouted.
  - destruct (solveRound_spec pb w opt st Htest Hne) as (st'' & Hrun' & Htest' & _).
    assert (st'' = st') as -> by congruence. split; [|done].
    unfold solveRound in Hrun. inv_bind Hrun. inv_bind Hrun.
    rename v into st1, v0 into st2.
    destruct (mergeCandidates_partition pb st (savings st) st1)
      as (Hw1 & _ & _); [done..|by apply atTest_merging|done|done|].
    assert (Hw2 : wellRouted pb st2).
    { destruct opt; [|by injection Hrun_run0 as <-].
      by eapply optimiseSolutions_partition. }
    destruct (findAllRouteSavingsPairs_spec pb w
                {| heap := heap st2; solutions := solutions st2;
                   savings := savings st2; joinedRoutes := ∅;
                   next_id := next_id st2 |})
      as (st3 & Hrun3 & Hheap & Hsol & _).
    { simpl. intros r Hr. destruct (proj1 (proj2 Hw2) r Hr) as (o & Ho & Hs).
      exists o. split; [done|]. by eapply shaped_usable. }
    assert (st3 = st') as -> by congruence.
    by eapply wellRouted_same.
Qed.

Lemma visited_partition pb w opt fresh st :
  distinctPoints pb → visited pb w opt fresh st → wellRouted pb st.
Proof.
  intros Hdist Hvis.
  destruct Hvis as [|st Htest|st k st' Htest Hne Hrun
                    |st st1 k st' Htest Hne Hrun1 Hopt Hrun].
  - by apply initialState_wellRouted.
  - by eapply atLoopTest_partition.
  - destruct (atLoopTest_partition pb w opt fresh st Hdist Htest) as [Hw Ht].
    eapply (mergeCandidates_partition pb st (take k (savings st)) st');
      [done..|by apply atTest_merging|apply subseteq_take|done].
  - destruct (atLoopTest_partition pb w opt fresh st Hdist Htest) as [Hw Ht].
    destruct (mergeCandidates_partition pb st (savings st) st1)
      as (Hw1 & _ & _); [done..|by apply atTest_merging|done|done|].
    eapply (optimiseSolutions_partition pb st1 (take k (solutions st1)) st');
      [done|apply subseteq_take|done].
Qed.

Lemma solveLoop_atLoopTest pb w opt fresh fuel st st' :
  atLoopTest pb w opt fresh st →
  solveLoop pb w opt fuel st = Done st' →
  atLoopTest pb w opt fresh st'.
Proof.
  revert st. induction fuel as [|fuel IH]; intros st Htest Hrun; simpl in Hrun.
  - destruct (savings st); [by injection Hrun as <-|done].
  - destruct (savings st) eqn:Hsav; [by injection Hrun as <-|].
    inv_bind Hrun. apply (IH v); [|done].
    eapply test_next; [done| |done]. by rewrite Hsav.
Qed.

Lemma wellRouted_one_route pb st p :
  distinctPoints pb → wellRouted pb st → p ∈ CW.points pb →
  inOneActiveRoute st p.
Proof.
  intros Hdist Hwell Hp. pose proof Hwell as (_ & _ & Hpart).
  unfold partitionsCustomers in Hpart. rewrite <- Hpart in Hp.
  rewrite activeCustomers_cust in Hp.
  apply list_elem_of_bind in Hp as (r & Hpr & Hr).
  exists r. split_and!; [done..|]. intros r' Hr' Hpr'.
  destruct (decide (r' = r)) as [|Hne]; [done|].
  by destruct (wellRouted_disjoint pb st r' r p).
Qed.

(** C2.  In every state [solve] goes through (the singleton routes, every
    turn of the merge loop with its fallback merges, every optimisation) the
    non-depot points of the active routes are the customers, each once, and
    each customer is in exactly one active route; and the non-depot points of
    the routes returned are customers, without duplicates. *)
Theorem routes_partition_customers pb w opt fresh :
  distinctPoints pb →
  (∀ st, visited pb w opt fresh st →
         partitionsCustomers pb st ∧
         ∀ p, p ∈ CW.points pb → inOneActiveRoute st p) ∧
  (∃ st res,
     solve pb w opt fresh = Done (st, res) ∧
     visited pb w opt fresh st ∧
     NoDup (routesOf st res ≫= customersOf) ∧
     routesOf st res ≫= customersOf ⊆ CW.points pb).
Proof.
  intros Hdist. split.
  - intros st Hvis.
    pose proof (visited_partition pb w opt fresh st Hdist Hvis) as Hwell.
    split; [apply Hwell|]. intros p Hp. by eapply wellRouted_one_route.
  - destruct (solve_returns pb w opt fresh)
      as (st0 & st & kept & res & Hrun0 & Hloop & Hsolve & _ & _ & Hsub & Hperm & _).
    assert (Htest : atLoopTest pb w opt fresh st).
    { eapply solveLoop_atLoopTest; [|done]. by apply test_first. }
    destruct (atLoopTest_partition pb w opt fresh st Hdist Htest)
      as [(_ & _ & Hpart) _].
    exists st, res. split_and!; [done|by apply visited_test| |].
    + rewrite routesOf_bind, Hperm.
      apply (sublist_NoDup _ (solutions st ≫= cust st)).
      * rewrite <- activeCustomers_cust. unfold partitionsCustomers in Hpart.
        rewrite Hpart. apply Hdist.
      * by apply sublist_bind.
    + rewrite routesOf_bind, Hperm.
      unfold partitionsCustomers in Hpart. rewrite <- Hpart.
      rewrite activeCustomers_cust.
      apply sublist_subseteq. by apply sublist_bind.
Qed.

Lemma div_zero_zero x y : x = 0%R → y = 0%R → div (Fin x) (Fin y) = NaN.
Proof.
  intros -> ->. unfold div. destruct (Req_dec_T 0 0) as [_|?]; [|done].
  unfold signed_inf. destruct (Rlt_dec 0 0) as [?|_]; [lra|done].
Qed.

Lemma sqrt_Fin_zero x : x = 0%R → sqrt (Fin x) = Fin 0.
Proof.
  intros ->. unfold sqrt. destruct (Rlt_dec 0 0) as [?|_]; [lra|].
  by rewrite sqrt_0.
Qed.

Lemma mul_Fin x y : mul (Fin x) (Fin y) = Fin (x * y).
Proof. reflexivity. Qed.

Lemma pow2_Fin x : pow2 (Fin x) = Fin (x * x).
Proof. reflexivity. Qed.

Lemma angle_onDepot_12 : angle onDepot (Some 1) (Some 0) (Some 2) = Done NaN.
Proof.
  unfold angle, field. simpl.
  repeat (rewrite sub_Fin || rewrite pow2_Fin || rewrite add_Fin || rewrite mul_Fin).
  rewrite sqrt_Fin_zero by lra. rewrite div_zero_zero by lra. reflexivity.
Qed.

Lemma angle_onDepot_21 : angle onDepot (Some 2) (Some 0) (Some 1) = Done NaN.
Proof.
  unfold angle, field. simpl.
  repeat (rewrite sub_Fin || rewrite pow2_Fin || rewrite add_Fin || rewrite mul_Fin).
  rewrite sqrt_Fin_zero by lra. rewrite div_zero_zero by lra. reflexivity.
Qed.

Lemma mul_NaN_l a : mul NaN a = NaN.
Proof. by destruct a. Qed.
Lemma div_NaN_l a : div NaN a = NaN.
Proof. by destruct a. Qed.
Lemma add_NaN_l a : add NaN a = NaN.
Proof. by destruct a. Qed.

Lemma calculateSavings_NaN pb a b w ea sb :
  getEnd a = Some ea → getStart b = Some sb →
  angle pb (Some ea) (Some (CW.depot pb)) (Some sb) = Done NaN →
  calculateSavings pb a b w = Done NaN.
Proof.
  intros Hea Hsb Hang. unfold calculateSavings. rewrite Hea, Hsb, Hang. simpl.
  by rewrite mul_NaN_l, mul_NaN_r, div_NaN_l, add_NaN_r, add_NaN_l.
Qed.

Lemma max_is_NaN a b : max a b = NaN → gt a b = false.
Proof.
  destruct a as [x| | |], b as [y| | |]; try done; unfold max, gt, lt;
    try (destruct (Rlt_dec x y); discriminate); try discriminate.
Qed.

(** What a pair whose score is NaN pushes. *)
Lemma savingsPair_NaN pb w st route other r o arr sAB sBA ok :
  other ≠ route →
  heap st !! route = Some r → heap st !! other = Some o →
  calculateSavings pb r o w = Done sAB →
  calculateSavings pb o r w = Done sBA →
  max sAB sBA = NaN →
  verifyRouteJoin pb o r = Done ok →
  savingsPair pb w st route arr other
  = Done (if ok
          then arr ++ [{| Savings.savings := NaN;
                          Savings.routeA := other;
                          Savings.routeB := route |}]
          else arr).
Proof.
  intros Hne Hr Ho HAB HBA Hmax Hok. unfold savingsPair, deref.
  rewrite decide_False by done. rewrite Hr, Ho. simpl.
  rewrite HAB, HBA. simpl. rewrite Hmax, (max_is_NaN _ _ Hmax).
  rewrite decide_False by done. rewrite lt_NaN_l, Ho, Hr. simpl.
  rewrite Hok. simpl. by destruct ok.
Qed.

(** C3, amended.  A NaN score is never below [minSavings], so the threshold
    test does not discard the candidate: it is pushed, with [routeA] the
    other route and [routeB] the route at hand, exactly when
    [verifyRouteJoin] accepts that join. *)
Theorem nan_score_passes_threshold pb w st route other r o arr sAB sBA ok :
  other ≠ route →
  heap st !! route = Some r → heap st !! other = Some o →
  calculateSavings pb r o w = Done sAB →
  calculateSavings pb o r w = Done sBA →
  max sAB sBA = NaN →
  verifyRouteJoin pb o r = Done ok →
  lt (max sAB sBA) (CWWeights.minSavings w) = false ∧
  savingsPair pb w st route arr other
  = Done (if ok
          then arr ++ [{| Savings.savings := NaN;
                          Savings.routeA := other;
                          Savings.routeB := route |}]
          else arr).
Proof.
  intros Hne Hr Ho HAB HBA Hmax Hok. split.
  - by rewrite Hmax.
  - by eapply savingsPair_NaN.
Qed.

Lemma verifyRouteJoin_onDepot_10 :
  verifyRouteJoin onDepot (new_Route 2 0 1) (new_Route 1 0 0) = Done true.
Proof.
  unfold verifyRouteJoin, totalDistance. simpl.
  change (default PInf (Point.distances (onDepotStore 0) !! 2)) with (Fin 1).
  change (default PInf (Point.distances (onDepotStore 0) !! 1)) with (Fin 0).
  change (default PInf (Point.distances (onDepotStore 2) !! 0)) with (Fin 1).
  change (default PInf (Point.distances (onDepotStore 2) !! 1)) with (Fin 1).
  change (default PInf (Point.distances (onDepotStore 1) !! 0)) with (Fin 0).
  unfold zero. repeat (rewrite add_Fin || rewrite sub_Fin).
  f_equal. apply lt_Fin. lra.
Qed.

Lemma verifyRouteJoin_onDepot_01 :
  verifyRouteJoin onDepot (new_Route 1 0 0) (new_Route 2 0 1) = Done true.
Proof.
  unfold verifyRouteJoin, totalDistance. simpl.
  change (default PInf (Point.distances (onDepotStore 0) !! 2)) with (Fin 1).
  change (default PInf (Point.distances (onDepotStore 0) !! 1)) with (Fin 0).
  change (default PInf (Point.distances (onDepotStore 1) !! 0)) with (Fin 0).
  change (default PInf (Point.distances (onDepotStore 1) !! 2)) with (Fin 1).
  change (default PInf (Point.distances (onDepotStore 2) !! 0)) with (Fin 1).
  unfold zero. repeat (rewrite add_Fin || rewrite sub_Fin).
  f_equal. apply lt_Fin. lra.
Qed.

(** C3, as stated, fails.  In [onDepot] the angle at the depot between the
    two customers is NaN, both candidates have a NaN score, and both are in
    the sorted list [findAllRouteSavingsPairs] leaves in [savings]. *)
Lemma nan_candidates_are_listed :
  angle onDepot (Some 1) (Some 0) (Some 2) = Done NaN ∧
  ∃ st, findAllRouteSavingsPairs onDepot unitWeights (initialState onDepot 0)
        = Done st ∧
        savings st
        = [ {| Savings.savings := NaN; Savings.routeA := 1; Savings.routeB := 0 |};
            {| Savings.savings := NaN; Savings.routeA := 0; Savings.routeB := 1 |} ].
Proof.
  split; [exact angle_onDepot_12|].
  set (st0 := initialState onDepot 0).
  assert (H0 : heap st0 !! 0 = Some (new_Route 1 0 0)) by reflexivity.
  assert (H1 : heap st0 !! 1 = Some (new_Route 2 0 1)) by reflexivity.
  assert (HAB : calculateSavings onDepot (new_Route 1 0 0) (new_Route 2 0 1)
                  unitWeights = Done NaN).
  { by apply (calculateSavings_NaN _ _ _ _ 1 2), angle_onDepot_12. }
  assert (HBA : calculateSavings onDepot (new_Route 2 0 1) (new_Route 1 0 0)
                  unitWeights = Done NaN).
  { by apply (calculateSavings_NaN _ _ _ _ 2 1), angle_onDepot_21. }
  unfold findAllRouteSavingsPairs, savingsPairs.
  change (solutions st0) with [0; 1]. cbn [foldM].
  change (savingsPair onDepot unitWeights st0 0 [] 0) with (Done (@nil Savings.t)).
  cbn [mbind outcome_bind bind].
  rewrite (savingsPair_NaN onDepot unitWeights st0 0 1 _ _ [] NaN NaN true
             ltac:(done) H0 H1 HAB HBA eq_refl verifyRouteJoin_onDepot_10).
  cbn [mbind outcome_bind bind app].
  rewrite (savingsPair_NaN onDepot unitWeights st0 1 0 _ _ _ NaN NaN true
             ltac:(done) H1 H0 HBA HAB eq_refl verifyRouteJoin_onDepot_01).
  cbn [mbind outcome_bind bind app].
  eexists. split; reflexivity.
Qed.

(** ** What the constructor leaves behind *)
Section ConstructorFacts.
Context (getDistance : num * num → num * num → num).
Context (shuffle : list pid → list pid).
Hypothesis shuffle_perm : ∀ l, shuffle l ≡ₚ l.

Lemma coordinates_setDistanceTo h a b d p :
  coordinates (setDistanceTo h a b d) p = coordinates h p.
Proof.
  unfold coordinates, setDistanceTo.
  destruct (decide (p = a)) as [->|Hne].
  - rewrite lookup_alter_eq. by destruct (h !! a).
  - by rewrite lookup_alter_ne.
Qed.

Lemma stored_setDistanceTo h a b d p q :
  is_Some (h !! a) →
  stored (setDistanceTo h a b d) p q
  = if decide (p = a ∧ q = b) then Some d else stored h p q.
Proof.
  intros [o Ho]. unfold stored, setDistanceTo.
  destruct (decide (p = a)) as [->|Hne].
  - rewrite lookup_alter_eq, Ho. simpl.
    destruct (decide (q = b)) as [->|Hq].
    + rewrite decide_True by done. by rewrite lookup_insert_eq.
    + rewrite decide_False by (intros []; done). by rewrite lookup_insert_ne.
  - rewrite lookup_alter_ne by done. by rewrite decide_False by (intros []; done).
Qed.

Lemma is_Some_setDistanceTo h a b d p :
  is_Some (setDistanceTo h a b d !! p) ↔ is_Some (h !! p).
Proof.
  unfold setDistanceTo. destruct (decide (p = a)) as [->|Hne].
  - rewrite lookup_alter_eq. by rewrite fmap_is_Some.
  - by rewrite lookup_alter_ne.
Qed.

Lemma measuring_setDistanceTo c dom h a b d :
  measuring c dom h → measuring c dom (setDistanceTo h a b d).
Proof.
  intros [Hdom Hc]. split.
  - intros p Hp. apply is_Some_setDistanceTo. by apply Hdom.
  - intros p. by rewrite coordinates_setDistanceTo.
Qed.

Lemma measurePair_fold c dom point l h m :
  measuring c dom h → point ∈ dom →
  ∃ h' m',
    foldl (measurePair getDistance point) (h, m) l = (h', m') ∧
    measuring c dom h' ∧
    ∀ p q, stored h' p q
           = if decide (p = point ∧ q ∈ l)
             then Some (getDistance (c point) (c q)) else stored h p q.
Proof.
  revert h m. induction l as [|o l IH]; intros h m Hm Hpoint; simpl.
  { exists h, m. split_and!; [done..|]. intros p q.
    rewrite decide_False; [done|]. intros [_ ?%elem_of_nil]. done. }
  destruct Hm as [Hdom Hc]. rewrite !Hc.
  destruct (IH (setDistanceTo h point o (getDistance (c point) (c o)))
               (if gt (getDistance (c point) (c o)) m
                then getDistance (c point) (c o) else m))
    as (h' & m' & -> & Hm' & Hst);
    [by apply measuring_setDistanceTo|done|].
  exists h', m'. split_and!; [done..|]. intros p q. rewrite Hst.
  rewrite stored_setDistanceTo by (by apply Hdom).
  destruct (decide (p = point)) as [->|Hp].
  - destruct (decide (q ∈ l)) as [Hq|Hq].
    + rewrite !decide_True; [done|split; [done|by right]|done].
    + rewrite decide_False by (intros []; done).
      destruct (decide (q = o)) as [->|Hqo].
      * rewrite !decide_True; [done|split; [done|by left]|done].
      * rewrite !decide_False; [done| |intros []; done].
        intros [_ [?|?]%elem_of_cons]; done.
  - rewrite !decide_False; [done|intros []; done..].
Qed.

Lemma measurePoint_spec c pts depot h m point :
  measuring c (depot :: pts) h → point ∈ pts → depot ∉ pts →
  ∃ h' m',
    measurePoint getDistance pts depot (h, m) point = (h', m') ∧
    measuring c (depot :: pts) h' ∧
    measured getDistance c pts depot h' point ∧
    ∀ p, p ∈ pts → measured getDistance c pts depot h p → measured getDistance c pts depot h' p.
Proof.
  intros Hm Hpoint Hdepot. unfold measurePoint.
  destruct (measurePair_fold c (depot :: pts) point pts h m Hm)
    as (h1 & m1 & -> & Hm1 & Hst1); [by right|].
  destruct Hm1 as [Hdom1 Hc1]. rewrite !Hc1.
  set (dd := getDistance (c point) (c depot)).
  set (h2 := setDistanceTo h1 point depot dd).
  assert (Hm2 : measuring c (depot :: pts) h2)
    by (by apply measuring_setDistanceTo).
  assert (Hne : point ≠ depot) by (intros ->; done).
  assert (Hst : ∀ p q, stored (setDistanceTo h2 depot point dd) p q
            = if decide (p = depot ∧ q = point) then Some dd
              else if decide (p = point ∧ q = depot) then Some dd
              else if decide (p = point ∧ q ∈ pts)
                   then Some (getDistance (c point) (c q))
                   else stored h p q).
  { intros p q. rewrite stored_setDistanceTo by (apply Hm2; by left).
    unfold h2. rewrite stored_setDistanceTo by (apply Hdom1; by right).
    by rewrite Hst1. }
  eexists _, m1. split_and!; [done|by apply measuring_setDistanceTo| |].
  - split_and!.
    + intros q Hq. rewrite Hst.
      rewrite decide_False by (intros []; done).
      rewrite decide_False by (intros [_ ->]; done).
      by rewrite decide_True.
    + rewrite Hst. rewrite decide_False by (intros []; done).
      by rewrite decide_True.
    + rewrite Hst. by rewrite decide_True.
  - intros p Hp (Hp1 & Hp2 & Hp3).
    assert (Hpd : p ≠ depot) by (intros ->; done).
    split_and!.
    + intros q Hq. rewrite Hst.
      rewrite decide_False by (intros [? _]; done).
      rewrite decide_False by (intros [_ ->]; done).
      case_decide as E; [by destruct E as [-> _]|by apply Hp1].
    + rewrite Hst. rewrite decide_False by (intros [_ ?]; done).
      case_decide as E; [by destruct E as [-> _]|].
      rewrite decide_False by (intros [_ ?]; done). done.
    + rewrite Hst. case_decide as E; [by destruct E as [_ ->]|].
      rewrite decide_False by (intros [? _]; done).
      rewrite decide_False by (intros [? _]; done). done.
Qed.

Lemma measurePoint_fold c pts depot l h m :
  measuring c (depot :: pts) h → l ⊆ pts → depot ∉ pts →
  ∃ h' m',
    foldl (measurePoint getDistance pts depot) (h, m) l = (h', m') ∧
    measuring c (depot :: pts) h' ∧
    (∀ p, p ∈ l → measured getDistance c pts depot h' p) ∧
    ∀ p, p ∈ pts → measured getDistance c pts depot h p → measured getDistance c pts depot h' p.
Proof.
  revert h m. induction l as [|x l IH]; intros h m Hm Hl Hdepot; simpl.
  { exists h, m. split_and!; [done..| |done]. by intros p ?%elem_of_nil. }
  destruct (measurePoint_spec c pts depot h m x Hm) as (h1 & m1 & -> & Hm1 & Hx & Hkeep1);
    [apply Hl; by left|done|].
  destruct (IH h1 m1 Hm1) as (h' & m' & -> & Hm' & Hall & Hkeep);
    [intros y Hy; apply Hl; by right|done|].
  exists h', m'. split_and!; [done..| |].
  - intros p [->|Hp]%elem_of_cons; [|by apply Hall].
    apply Hkeep; [apply Hl; by left|done].
  - intros p Hp Hmp. by apply Hkeep, Hkeep1.
Qed.

Lemma fromCustomers_spec cs first :
  (fromCustomers cs first).2 = seq first (length cs) ∧
  (∀ p, p ∈ seq first (length cs) → is_Some ((fromCustomers cs first).1 !! p)) ∧
  (∀ p, p < first → (fromCustomers cs first).1 !! p = None).
Proof.
  revert first. induction cs as [|c cs IH]; intros first; simpl.
  { split_and!; [done| |done]. by intros p ?%elem_of_nil. }
  destruct (IH (S first)) as (Hps & Hdom & Hlow).
  destruct (fromCustomers cs (S first)) as [h ps]. simpl in *.
  split_and!.
  - by rewrite Hps.
  - intros p [->|Hp]%elem_of_cons.
    + by rewrite lookup_insert_eq.
    + destruct (decide (first = p)) as [->|Hne].
      * by rewrite lookup_insert_eq.
      * rewrite lookup_insert_ne by done. by apply Hdom.
  - intros p Hp. rewrite lookup_insert_ne by lia. apply Hlow. lia.
Qed.

(** The customers of a constructed problem are distinct objects, none of
    them the depot, and the distances stored are those [getDistance] gives
    for the coordinates: between two customers, and between a customer and
    the depot, where one call serves both directions. *)
Lemma construct_spec options :
  let pb := construct getDistance shuffle options in
  distinctPoints pb ∧
  ∃ c : pid → num * num,
    ∀ p, p ∈ CW.points pb →
         distance pb p (CW.depot pb) = getDistance (c p) (c (CW.depot pb)) ∧
         distance pb (CW.depot pb) p = getDistance (c p) (c (CW.depot pb)) ∧
         ∀ q, q ∈ CW.points pb → distance pb p q = getDistance (c p) (c q).
Proof.
  unfold construct.
  destruct (fromCustomers_spec (Options.customers options) 1)
    as (Hcreated & Hdom & Hlow).
  destruct (fromCustomers (Options.customers options) 1) as [h0 created].
  simpl in Hcreated, Hdom, Hlow.
  set (depotPoint := {| Point.x := (Options.depot options).1;
                        Point.y := (Options.depot options).2;
                        Point.demand := zero; Point.distances := ∅ |}).
  set (pts := shuffle created).
  set (h1 := <[0 := depotPoint]> h0).
  assert (Hpts : ∀ p, p ∈ pts ↔ p ∈ seq 1 (length (Options.customers options))).
  { intros p. unfold pts. by rewrite shuffle_perm, Hcreated. }
  assert (Hdepot : 0 ∉ pts).
  { intros [? _]%Hpts%elem_of_seq. lia. }
  assert (Hm : measuring (coordinates h1) (0 :: pts) h1).
  { split; [|done]. intros p [->|Hp%Hpts]%elem_of_cons.
    - unfold h1. by rewrite lookup_insert_eq.
    - unfold h1. destruct (decide (0 = p)) as [<-|Hne].
      + by rewrite lookup_insert_eq.
      + rewrite lookup_insert_ne by done. by apply Hdom. }
  destruct (measurePoint_fold (coordinates h1) pts 0 pts h1 NInf Hm)
    as (h & m & -> & Hm' & Hall & _); [done..|].
  unfold distinctPoints. cbn [CW.points CW.depot]. split.
  - split; [|done]. unfold pts. rewrite shuffle_perm, Hcreated. apply NoDup_seq.
  - exists (coordinates h1). intros p Hp.
    destruct (Hall p Hp) as (Hpq & Hpd & Hdp).
    assert (Hdist : ∀ a b d, stored h a b = Some d →
              default PInf (Point.distances (default depotPoint (h !! a)) !! b) = d).
    { intros a b d. unfold stored. destruct (h !! a); simpl; [|done].
      by intros ->. }
    unfold distance. cbn [CW.store]. split_and!.
    + by apply Hdist.
    + by apply Hdist.
    + intros q Hq. by apply Hdist, Hpq.
Qed.

(** With a distance function that is finite and symmetric, the depot and
    the customers of a constructed problem have populated distances. *)
Lemma construct_populated options :
  (∀ a b, ∃ x : R, getDistance a b = Fin x ∧ getDistance b a = Fin x) →
  let pb := construct getDistance shuffle options in
  populated pb (CW.depot pb :: CW.points pb).
Proof.
  intros Hsym pb. destruct (construct_spec options) as [_ [c Hc]].
  fold pb in Hc. intros p q Hp Hq Hne.
  apply elem_of_cons in Hp as [->|Hp]; apply elem_of_cons in Hq as [->|Hq].
  - done.
  - destruct (Hc q Hq) as (Hqd & Hdq & _).
    destruct (Hsym (c q) (c (CW.depot pb))) as (x & Hx & _).
    exists x. by rewrite Hqd, Hdq.
  - destruct (Hc p Hp) as (Hpd & Hdp & _).
    destruct (Hsym (c p) (c (CW.depot pb))) as (x & Hx & _).
    exists x. by rewrite Hpd, Hdp.
  - destruct (Hc p Hp) as (_ & _ & Hpq). destruct (Hc q Hq) as (_ & _ & Hqp).
    destruct (Hsym (c p) (c q)) as (x & Hx & Hx').
    exists x. by rewrite (Hpq q Hq), (Hqp p Hp).
Qed.
End ConstructorFacts.

(** ** The theorems at work on the problem [onDepot] *)

Lemma onDepot_distinctPoints : distinctPoints onDepot.
Proof.
  split; simpl.
  - apply NoDup_cons. split; [|apply NoDup_singleton].
    intros E%list_elem_of_singleton. discriminate.
  - intros [E|[E|E%elem_of_nil]%elem_of_cons]%elem_of_cons; done.
Qed.

Lemma onDepot_populated : populated onDepot [0; 1; 0; 2].
Proof.
  assert (Hin : ∀ p, p ∈ [0; 1; 0; 2] → p = 0 ∨ p = 1 ∨ p = 2).
  { intros p Hp. repeat (apply elem_of_cons in Hp as [->|Hp]); auto.
    by apply elem_of_nil in Hp. }
  intros p q Hp%Hin Hq%Hin Hne.
  destruct Hp as [->|[->| ->]], Hq as [->|[->| ->]]; try done;
    eexists; split; reflexivity.
Qed.

Lemma onDepot_shaped_1 : shaped onDepot (new_Route 1 0 0).
Proof.
  split; [done|]. exists 1, []. split; [done|].
  intros E%list_elem_of_singleton. discriminate.
Qed.

Lemma onDepot_shaped_2 : shaped onDepot (new_Route 2 0 1).
Proof.
  split; [done|]. exists 2, []. split; [done|].
  intros E%list_elem_of_singleton. discriminate.
Qed.

Lemma calculateSavings_onDepot_12 :
  calculateSavings onDepot (new_Route 1 0 0) (new_Route 2 0 1) unitWeights
  = Done NaN.
Proof. by apply (calculateSavings_NaN _ _ _ _ 1 2), angle_onDepot_12. Qed.

Lemma calculateSavings_onDepot_21 :
  calculateSavings onDepot (new_Route 2 0 1) (new_Route 1 0 0) unitWeights
  = Done NaN.
Proof. by apply (calculateSavings_NaN _ _ _ _ 2 1), angle_onDepot_21. Qed.

Lemma routes_partition_customers_witness :
  distinctPoints onDepot ∧
  (∀ st, visited onDepot unitWeights true 0 st →
         partitionsCustomers onDepot st ∧
         ∀ p, p ∈ CW.points onDepot → inOneActiveRoute st p) ∧
  (∃ st res,
     solve onDepot unitWeights true 0 = Done (st, res) ∧
     visited onDepot unitWeights true 0 st ∧
     NoDup (routesOf st res ≫= customersOf) ∧
     routesOf st res ≫= customersOf ⊆ CW.points onDepot).
Proof.
  split; [exact onDepot_distinctPoints|].
  exact (routes_partition_customers onDepot unitWeights true 0
           onDepot_distinctPoints).
Defined.

Lemma nan_score_passes_threshold_witness :
  max NaN NaN = NaN ∧
  verifyRouteJoin onDepot (new_Route 2 0 1) (new_Route 1 0 0) = Done true ∧
  lt (max NaN NaN) (CWWeights.minSavings unitWeights) = false ∧
  savingsPair onDepot unitWeights (initialState onDepot 0) 0 [] 1
  = Done [{| Savings.savings := NaN; Savings.routeA := 1; Savings.routeB := 0 |}].
Proof.
  split; [reflexivity|]. split; [exact verifyRouteJoin_onDepot_10|].
  exact (nan_score_passes_threshold onDepot unitWeights (initialState onDepot 0)
           0 1 (new_Route 1 0 0) (new_Route 2 0 1) [] NaN NaN true
           ltac:(discriminate) eq_refl eq_refl
           calculateSavings_onDepot_12 calculateSavings_onDepot_21
           eq_refl verifyRouteJoin_onDepot_10).
Defined.

Lemma verifyRouteJoin_iff_estimate_below_cap_witness :
  distance onDepot (CW.depot onDepot) 1 = distance onDepot 1 (CW.depot onDepot) ∧
  (verifyRouteJoin onDepot (new_Route 2 0 1) (new_Route 1 0 0) = Done true ↔
  ∃ e, feasibilityEstimate onDepot (new_Route 2 0 1) (new_Route 1 0 0) = Done e ∧
       lt e (CW.maxDistance onDepot) = true).
Proof.
  split; [reflexivity|].
  apply (verifyRouteJoin_iff_estimate_below_cap onDepot
           (new_Route 2 0 1) (new_Route 1 0 0) true).
  intros b Hb. injection Hb as <-. reflexivity.
Defined.

Lemma joined_distance_is_estimate_witness :
  shaped onDepot (new_Route 1 0 0) ∧ shaped onDepot (new_Route 2 0 1) ∧
  populated onDepot [0; 1; 0; 2] ∧
  getEnd (new_Route 1 0 0) ≠ getStart (new_Route 2 0 1) ∧
  ∃ e : R,
    feasibilityEstimate onDepot (new_Route 1 0 0) (new_Route 2 0 1) = Done (Fin e) ∧
    totalDistance onDepot (joinRoute (new_Route 1 0 0) (new_Route 2 0 1))
    = Done (Fin e).
Proof.
  split_and!;
    [exact onDepot_shaped_1|exact onDepot_shaped_2|exact onDepot_populated
    |discriminate|].
  apply (joined_distance_is_estimate onDepot (new_Route 1 0 0) (new_Route 2 0 1)
           onDepot_shaped_1 onDepot_shaped_2 onDepot_populated).
  discriminate.
Defined.

Lemma optimise_terminates_witness :
  Route.points bothCustomers ≠ [] ∧
  ∃ r' passes ds,
    optimise onDepot bothCustomers 100 = Done (r', passes) ∧
    passes ≤ 100 ∧
    twoOptPasses onDepot bothCustomers passes = Done (r', ds) ∧
    length ds = passes ∧
    (∀ i d, S i < passes → ds !! i = Some d →
            strict_eq d (previousDistance zero ds i) = false) ∧
    (passes < 100 →
     ∃ d, 0 < passes ∧ ds !! (passes - 1) = Some d ∧
          strict_eq d (previousDistance zero ds (passes - 1)) = true).
Proof.
  split; [discriminate|].
  apply (optimise_terminates onDepot bothCustomers 100). discriminate.
Defined.

Lemma joinRoute_mutates_only_receiver_witness :
  joinRoute_at (initialState onDepot 0) 0 1
  = Done (<[0 := joinRoute (new_Route 1 0 0) (new_Route 2 0 1)]>
            (heap (initialState onDepot 0))) ∧
  ∃ o o', heap (initialState onDepot 0) !! 1 = Some o ∧
          <[0 := joinRoute (new_Route 1 0 0) (new_Route 2 0 1)]>
            (heap (initialState onDepot 0)) !! 1 = Some o' ∧
          Route.points o' = Route.points o ∧ Route.id o' = Route.id o ∧
          Route.depot o' = Route.depot o ∧
          getStart o' = getStart o ∧ getEnd o' = getEnd o.
Proof.
  split; [reflexivity|].
  apply (joinRoute_mutates_only_receiver (initialState onDepot 0) 0 1);
    [reflexivity|discriminate].
Defined.

(** ** The definitions on small inputs *)

Example indexOf_found : indexOf [4; 7; 9; 7] 7 = 1%Z.
Proof. reflexivity. Qed.

Example indexOf_missing : indexOf [4; 7; 9] 5 = (-1)%Z.
Proof. reflexivity. Qed.

Example splice1_found : splice1 1 [4; 7; 9] = [4; 9].
Proof. reflexivity. Qed.

(** [splice(-1, 1)] removes the last element. *)
Example splice1_missing : splice1 (-1) [4; 7; 9] = [4; 7].
Proof. reflexivity. Qed.

Example slice_middle : slice 2 4 [0; 1; 2; 3; 4] = [2; 3].
Proof. reflexivity. Qed.

Example joinRoute_appends :
  Route.points (joinRoute (new_Route 1 0 0) (new_Route 2 0 1)) = [0; 1; 2].
Proof. reflexivity. Qed.

Example twoOptSwap_reverses :
  Route.points
    (twoOptSwap {| Route.points := [0; 1; 2; 3; 4]; Route.depot := 0;
                   Route.id := 0 |} 1 3)
  = [0; 1; 3; 2; 4].
Proof. reflexivity. Qed.

Example getStart_getEnd :
  getStart bothCustomers = Some 1 ∧ getEnd bothCustomers = Some 2.
Proof. split; reflexivity. Qed.

Example totalDemand_bothCustomers : totalDemand onDepot bothCustomers = Fin 2.
Proof.
  unfold totalDemand. simpl. unfold zero. rewrite !add_Fin. f_equal. lra.
Qed.

Example totalDistance_bothCustomers :
  totalDistance onDepot bothCustomers = Done (Fin 2).
Proof.
  assert (H01 : distance onDepot 0 1 = Fin 0) by reflexivity.
  assert (H12 : distance onDepot 1 2 = Fin 1) by reflexivity.
  assert (H20 : distance onDepot 2 0 = Fin 1) by reflexivity.
  erewrite totalDistance_cons by reflexivity. simpl.
  rewrite H01, H12, H20. unfold zero. rewrite !add_Fin. do 2 f_equal. lra.
Qed.

Lemma gt_Fin x y : gt (Fin x) (Fin y) = true ↔ (y < x)%R.
Proof. apply lt_Fin. Qed.

(** [twoOpt] uncrosses it at once: the distance drops from 5 to 4. *)
Example twoOpt_uncrosses :
  totalDistance square crossed = Done (Fin 5) ∧
  twoOpt square crossed
  = Done ({| Route.points := [0; 1; 2; 3]; Route.depot := 0; Route.id := 0 |},
          Fin 4).
Proof.
  assert (H02 : distance square 0 2 = Fin (3 / 2)) by reflexivity.
  assert (H13 : distance square 1 3 = Fin (3 / 2)) by reflexivity.
  assert (H01 : distance square 0 1 = Fin 1) by reflexivity.
  assert (H32 : distance square 3 2 = Fin 1) by reflexivity.
  assert (H21 : distance square 2 1 = Fin 1) by reflexivity.
  assert (H12 : distance square 1 2 = Fin 1) by reflexivity.
  assert (H23 : distance square 2 3 = Fin 1) by reflexivity.
  assert (H30 : distance square 3 0 = Fin 1) by reflexivity.
  split.
  - erewrite totalDistance_cons by reflexivity. simpl.
    rewrite H02, H21, H13, H30. unfold zero. rewrite !add_Fin.
    do 2 f_equal. lra.
  - assert (Htest : twoOpt_test square (Some 0) (Some 2) (Some 1) (Some 3)
                     = Done true).
    { rewrite twoOpt_test_Some, H02, H13, H01, H32, !add_Fin.
      f_equal. apply gt_Fin. lra. }
    unfold twoOpt, twoOpt_scan. cbn -[twoOpt_test]. rewrite Htest.
    cbn -[totalDistance]. rewrite decide_False by lia. cbn -[totalDistance].
    erewrite totalDistance_cons by reflexivity. simpl.
    rewrite H01, H12, H23, H30. unfold zero. rewrite !add_Fin.
    do 3 f_equal. lra.
Qed.

Lemma crossed_improving : improving square (Route.points crossed) 0 2.
Proof.
  exists 0, 2, 1, 3. split_and!; try reflexivity.
  assert (H02 : distance square 0 2 = Fin (3 / 2)) by reflexivity.
  assert (H13 : distance square 1 3 = Fin (3 / 2)) by reflexivity.
  assert (H01 : distance square 0 1 = Fin 1) by reflexivity.
  assert (H32 : distance square 3 2 = Fin 1) by reflexivity.
  rewrite H02, H13, H01, H32, !add_Fin. apply gt_Fin. lra.
Qed.

Lemma uncrossed_locallyOptimal : locallyOptimal square uncrossed.
Proof.
  assert (H01 : distance square 0 1 = Fin 1) by reflexivity.
  assert (H02 : distance square 0 2 = Fin (3 / 2)) by reflexivity.
  assert (H03 : distance square 0 3 = Fin 1) by reflexivity.
  assert (H12 : distance square 1 2 = Fin 1) by reflexivity.
  assert (H13 : distance square 1 3 = Fin (3 / 2)) by reflexivity.
  assert (H23 : distance square 2 3 = Fin 1) by reflexivity.
  assert (H30 : distance square 3 0 = Fin 1) by reflexivity.
  assert (H31 : distance square 3 1 = Fin (3 / 2)) by reflexivity.
  intros i j Hij Hj (a & b & c & d & Ha & Hb & Hc & Hd & Hgt).
  simpl in Hj.
  assert (Hcases : (i = 0 ∧ j = 2) ∨ (i = 0 ∧ j = 3) ∨ (i = 1 ∧ j = 3))
    by lia.
  destruct Hcases as [[-> ->]|[[-> ->]|[-> ->]]]; simpl in *;
    injection Ha as <-; injection Hb as <-;
    injection Hc as <-; injection Hd as <-;
    rewrite ?H01, ?H02, ?H03, ?H12, ?H13, ?H23, ?H30, ?H31, !add_Fin in Hgt;
    apply gt_Fin in Hgt; lra.
Qed.

Lemma optimise_fixes_local_optimum_witness :
  Route.points uncrossed ≠ [] ∧ locallyOptimal square uncrossed ∧
  (∃ passes, optimise square uncrossed 100 = Done (uncrossed, passes)) ∧
  Route.points crossed ≠ [] ∧
  improving square (Route.points crossed) 0 2 ∧
  ∃ r' d, twoOpt square crossed = Done (r', d) ∧
    totalDistance square r' = Done d ∧
    ((locallyOptimal square crossed ∧ r' = crossed) ∨
     ∃ i j, i + 2 ≤ j ∧ j < length (Route.points crossed) ∧
            improving square (Route.points crossed) i j ∧
            (∀ i' j', i' + 2 ≤ j' → j' < length (Route.points crossed) →
                      scannedBefore (i', j') (i, j) →
                      ¬ improving square (Route.points crossed) i' j') ∧
            Route.points r'
            = take (i + 1) (Route.points crossed)
              ++ reverse (take (j - i) (drop (i + 1) (Route.points crossed)))
              ++ drop (j + 1) (Route.points crossed) ∧
            Route.depot r' = Route.depot crossed ∧
            Route.id r' = Route.id crossed).
Proof.
  split; [discriminate|]. split; [exact uncrossed_locallyOptimal|].
  split.
  { apply (optimise_fixes_local_optimum square uncrossed 100).
    - discriminate.
    - exact uncrossed_locallyOptimal. }
  split; [discriminate|]. split; [exact crossed_improving|].
  apply (optimise_fixes_local_optimum square crossed 100). discriminate.
Defined.

(** ** The methods of [Route] over binary64 *)

Section Binary64Facts.
Import PrimFloat.











End Binary64Facts.

(** * Further properties of the code *)

(** ** The list of candidates *)

Lemma strict_eq_true a b : strict_eq a b = true → a = b.
Proof.
  destruct a, b; try done. intros H. apply strict_eq_Fin in H. by subst.
Qed.

Lemma deref_Done st r o : deref st r = Done o ↔ heap st !! r = Some o.
Proof. unfold deref. destruct (heap st !! r); naive_solver. Qed.

(** What one pair of routes adds to the list. *)
Lemma savingsPair_iff pb w st route arr other arr' :
  savingsPair pb w st route arr other = Done arr' →
  ∀ c, c ∈ arr' ↔ c ∈ arr ∨ proposes pb w st route other c.
Proof.
  unfold savingsPair. intros Hrun c.
  destruct (decide (other = route)) as [->|Hne].
  { injection Hrun as <-. split; [auto|]. intros [?|[? _]]; done. }
  inv_bind Hrun. inv_bind Hrun. inv_bind Hrun. inv_bind Hrun.
  rename v into r, v0 into o, v1 into sAB, v2 into sBA.
  apply deref_Done in Hrun_run, Hrun_run0.
  set (a := if gt sAB sBA then route else other) in *.
  set (b := if decide (a = route) then other else route) in *.
  assert (Hb : b = if gt sAB sBA then other else route).
  { unfold b, a. destruct (gt sAB sBA).
    - by rewrite decide_True.
    - by rewrite decide_False. }
  assert (Hprop : ∀ c, proposes pb w st route other c →
            Savings.savings c = max sAB sBA ∧ Savings.routeA c = a ∧
            Savings.routeB c = b ∧
            lt (max sAB sBA) (CWWeights.minSavings w) = false ∧
            ∃ ra rb, heap st !! a = Some ra ∧ heap st !! b = Some rb ∧
                     verifyRouteJoin pb ra rb = Done true).
  { intros c' (_ & r' & o' & sAB' & sBA' & ra & rb & Hr' & Ho' & HAB & HBA
               & Hs & HA & HB & Hlt & Hra & Hrb & Hok).
    assert (r' = r) as -> by congruence. assert (o' = o) as -> by congruence.
    assert (sAB' = sAB) as -> by congruence.
    assert (sBA' = sBA) as -> by congruence.
    fold a in HA. rewrite <- Hb in HB. rewrite HA in Hra. rewrite HB in Hrb.
    split_and!; try done. by exists ra, rb. }
  destruct (lt (max sAB sBA) (CWWeights.minSavings w)) eqn:Hlt.
  { injection Hrun as <-. split; [auto|]. intros [?|Hp]; [done|].
    apply Hprop in Hp. naive_solver. }
  inv_bind Hrun. inv_bind Hrun. inv_bind Hrun.
  rename v into ra, v0 into rb, v1 into ok.
  apply deref_Done in Hrun_run3, Hrun_run4.
  destruct ok.
  - injection Hrun as <-. rewrite elem_of_app, list_elem_of_singleton.
    split; (intros [?|Hc]; [by left|right]).
    + subst c. split; [done|]. exists r, o, sAB, sBA, ra, rb. simpl.
      rewrite <- Hb. by split_and!.
    + apply Hprop in Hc as (Hs & HA & HB & _).
      destruct c. simpl in *. by subst.
  - injection Hrun as <-. split; [auto|]. intros [?|Hp]; [done|].
    apply Hprop in Hp as (_ & _ & _ & _ & ra' & rb' & Hra' & Hrb' & Hok).
    congruence.
Qed.

Lemma foldM_collects {A B : Type} (f : list B → A → outcome (list B))
    (P : A → B → Prop) (l : list A) (s s' : list B) :
  (∀ s a s', a ∈ l → f s a = Done s' → ∀ c, c ∈ s' ↔ c ∈ s ∨ P a c) →
  foldM f s l = Done s' →
  ∀ c, c ∈ s' ↔ c ∈ s ∨ ∃ a, a ∈ l ∧ P a c.
Proof.
  revert s. induction l as [|a l IH]; intros s Hf Hrun c; simpl in Hrun.
  { injection Hrun as <-. split; [auto|]. intros [?|(a & Ha & _)]; [done|].
    by apply elem_of_nil in Ha. }
  inv_bind Hrun. rename v into s1.
  rewrite (IH s1); [|intros; eapply Hf; [by right|done]|done].
  rewrite (Hf s a s1 ltac:(by left) Hrun_run c).
  split.
  - intros [[?|?]|(x & Hx & HP)]; [by left|right..].
    + exists a. split; [by left|done].
    + exists x. split; [by right|done].
  - intros [?|(x & [->|Hx]%elem_of_cons & HP)]; [by left; left|by left; right|].
    right. by exists x.
Qed.

Lemma savingsPairs_iff pb w st arr :
  savingsPairs pb w st = Done arr →
  ∀ c, c ∈ arr ↔ ∃ route other, route ∈ solutions st ∧ other ∈ solutions st ∧
                                proposes pb w st route other c.
Proof.
  unfold savingsPairs. intros Hrun c.
  rewrite (foldM_collects
             (fun arr route =>
                foldM (savingsPair pb w st route) arr (solutions st))
             (fun route c => ∃ other, other ∈ solutions st ∧
                                      proposes pb w st route other c)
             (solutions st) [] arr); [| |done].
  - split; [|naive_solver]. intros [Hc|?]; [|naive_solver].
    by apply elem_of_nil in Hc.
  - intros s route s' _ Hinner c'.
    apply (foldM_collects (savingsPair pb w st route)
             (fun other c => proposes pb w st route other c)
             (solutions st) s s'); [|done].
    intros s0 other s0' _. apply savingsPair_iff.
Qed.

(** The candidates [findAllRouteSavingsPairs] lists. *)
Lemma findAllRouteSavingsPairs_iff pb w st st' :
  findAllRouteSavingsPairs pb w st = Done st' →
  heap st' = heap st ∧ solutions st' = solutions st ∧
  joinedRoutes st' = joinedRoutes st ∧
  ∀ c, c ∈ savings st' ↔
       ∃ route other, route ∈ solutions st ∧ other ∈ solutions st ∧
                      proposes pb w st route other c.
Proof.
  unfold findAllRouteSavingsPairs. intros Hrun.
  inv_bind Hrun. inv_bind Hrun. injection Hrun as <-. simpl.
  split_and!; try done. intros c.
  rewrite <- (savingsPairs_iff pb w st v Hrun_run).
  destruct (js_sort_perm
              (fun a b => Done (sub (Savings.savings b) (Savings.savings a))) v)
    as [sorted [Hs Hperm]]; [eauto|].
  assert (sorted = v0) as -> by congruence. by rewrite Hperm.
Qed.

(** X1.  [findAllRouteSavingsPairs] changes nothing but the candidate list,
    and the list holds exactly the candidates that the ordered pairs of two
    different active routes stand for: the larger of the two savings as
    score, a score for which [savings < minSavings] is false (a score that
    is NaN among them), the routes in the order of the larger savings,
    accepted by [verifyRouteJoin] in that order. *)
Theorem candidates_are_the_feasible_pairs pb w st st' :
  findAllRouteSavingsPairs pb w st = Done st' →
  heap st' = heap st ∧ solutions st' = solutions st ∧
  joinedRoutes st' = joinedRoutes st ∧
  ∀ c, c ∈ savings st' ↔
       ∃ route other, route ∈ solutions st ∧ other ∈ solutions st ∧
                      proposes pb w st route other c.
Proof. apply findAllRouteSavingsPairs_iff. Qed.

Lemma findAllRouteSavingsPairs_onDepot :
  findAllRouteSavingsPairs onDepot unitWeights (initialState onDepot 0)
  = Done {| heap := heap (initialState onDepot 0);
            solutions := [0; 1];
            savings :=
              [ {| Savings.savings := NaN; Savings.routeA := 1;
                   Savings.routeB := 0 |};
                {| Savings.savings := NaN; Savings.routeA := 0;
                   Savings.routeB := 1 |} ];
            joinedRoutes := ∅;
            next_id := 2 |}.
Proof.
  set (st0 := initialState onDepot 0).
  assert (H0 : heap st0 !! 0 = Some (new_Route 1 0 0)) by reflexivity.
  assert (H1 : heap st0 !! 1 = Some (new_Route 2 0 1)) by reflexivity.
  unfold findAllRouteSavingsPairs, savingsPairs.
  change (solutions st0) with [0; 1]. cbn [foldM].
  change (savingsPair onDepot unitWeights st0 0 [] 0) with (Done (@nil Savings.t)).
  cbn [mbind outcome_bind bind].
  rewrite (savingsPair_NaN onDepot unitWeights st0 0 1 _ _ [] NaN NaN true
             ltac:(done) H0 H1 calculateSavings_onDepot_12
             calculateSavings_onDepot_21 eq_refl verifyRouteJoin_onDepot_10).
  cbn [mbind outcome_bind bind app].
  rewrite (savingsPair_NaN onDepot unitWeights st0 1 0 _ _ _ NaN NaN true
             ltac:(done) H1 H0 calculateSavings_onDepot_21
             calculateSavings_onDepot_12 eq_refl verifyRouteJoin_onDepot_01).
  cbn [mbind outcome_bind bind app].
  reflexivity.
Qed.

Lemma candidates_are_the_feasible_pairs_witness :
  ∃ st',
    findAllRouteSavingsPairs onDepot unitWeights (initialState onDepot 0)
    = Done st' ∧
    heap st' = heap (initialState onDepot 0) ∧
    solutions st' = solutions (initialState onDepot 0) ∧
    joinedRoutes st' = joinedRoutes (initialState onDepot 0) ∧
    ∀ c, c ∈ savings st' ↔
         ∃ route other,
           route ∈ solutions (initialState onDepot 0) ∧
           other ∈ solutions (initialState onDepot 0) ∧
           proposes onDepot unitWeights (initialState onDepot 0) route other c.
Proof.
  eexists. split; [apply findAllRouteSavingsPairs_onDepot|].
  apply (candidates_are_the_feasible_pairs onDepot unitWeights
           (initialState onDepot 0)).
  apply findAllRouteSavingsPairs_onDepot.
Defined.

Lemma proposes_heap pb w st st' route other c :
  heap st' = heap st →
  proposes pb w st' route other c ↔ proposes pb w st route other c.
Proof. intros Hheap. unfold proposes. by rewrite Hheap. Qed.

Lemma atLoopTest_atTest pb w opt fresh st :
  atLoopTest pb w opt fresh st → atTest pb st.
Proof.
  induction 1 as [st Hrun|st st' _ Htest Hne Hrun].
  - destruct (firstTest_spec pb w fresh) as (st0 & Hrun0 & Htest0 & _).
    congruence.
  - destruct (solveRound_spec pb w opt st Htest Hne) as (st'' & Hrun' & Htest' & _).
    congruence.
Qed.

(** At every test of the loop the candidate list is the one of the state. *)
Lemma atLoopTest_candidates pb w opt fresh st :
  atLoopTest pb w opt fresh st →
  ∀ c, c ∈ savings st ↔
       ∃ route other, route ∈ solutions st ∧ other ∈ solutions st ∧
                      proposes pb w st route other c.
Proof.
  intros Hat.
  assert (∃ s, findAllRouteSavingsPairs pb w s = Done st) as [s Hrun].
  { destruct Hat as [st Hrun|st st' _ _ Hrun]; [eauto|].
    unfold solveRound in Hrun. inv_bind Hrun. inv_bind Hrun. eauto. }
  destruct (findAllRouteSavingsPairs_iff pb w s st Hrun)
    as (Hheap & Hsol & _ & Hiff).
  intros c. rewrite Hiff, Hsol.
  by setoid_rewrite (proposes_heap pb w s st _ _ c Hheap).
Qed.

(** X2.  [solve] stops only when no pair of active routes is left to
    merge: in the state it ends in the candidate list and the map of joined
    routes are empty, and no ordered pair of active routes stands for a
    candidate any more, be it for a score below [minSavings] or for a merged
    route that [verifyRouteJoin] refuses. *)
Theorem solve_stops_when_no_pair_is_left pb w opt fresh :
  ∃ st res,
    solve pb w opt fresh = Done (st, res) ∧
    savings st = [] ∧ joinedRoutes st = ∅ ∧
    ∀ route other c, route ∈ solutions st → other ∈ solutions st →
                     ¬ proposes pb w st route other c.
Proof.
  destruct (solve_returns pb w opt fresh)
    as (st0 & st & kept & res & Hrun0 & Hloop & Hsolve & Htest & Hsav & _).
  assert (Hat : atLoopTest pb w opt fresh st).
  { eapply solveLoop_atLoopTest; [|done]. by apply test_first. }
  exists st, res. split_and!; [done..|apply Htest|].
  intros route other c Hr Ho Hp.
  assert (Hc : c ∈ savings st).
  { apply (atLoopTest_candidates pb w opt fresh st Hat). eauto. }
  rewrite Hsav in Hc. by apply elem_of_nil in Hc.
Qed.

Lemma atTest_two_routes pb st :
  atTest pb st → savings st ≠ [] → 2 ≤ length (solutions st).
Proof.
  intros (_ & _ & Hver) Hne.
  destruct (savings st) as [|c l] eqn:Hsav; [done|].
  destruct (Hver c ltac:(by left)) as (HA & HB & Hdiff & _).
  destruct (solutions st) as [|x [|y l']]; simpl; [|exfalso|lia].
  - by apply elem_of_nil in HA.
  - apply list_elem_of_singleton in HA, HB. congruence.
Qed.

(** The loop needs no more turns than there are routes to retire. *)
Lemma solveLoop_bound pb w opt fuel st :
  atTest pb st → length (solutions st) ≤ S fuel →
  ∃ st', solveLoop pb w opt fuel st = Done st' ∧ atTest pb st' ∧
         savings st' = [].
Proof.
  revert st. induction fuel as [|fuel IH]; intros st Htest Hlen.
  - destruct (savings st) eqn:Hsav; simpl; rewrite Hsav; [by exists st|].
    pose proof (atTest_two_routes pb st Htest) as H2.
    rewrite Hsav in H2. specialize (H2 ltac:(done)). lia.
  - destruct (savings st) eqn:Hsav; simpl; rewrite Hsav; [by exists st|].
    destruct (solveRound_spec pb w opt st Htest) as (st1 & Hrun & Htest1 & Hlt).
    { by rewrite Hsav. }
    rewrite Hrun. cbn [mbind outcome_bind bind]. apply IH; [done|lia].
Qed.

Lemma solveLoop_more_fuel pb w opt fuel fuel' st st' :
  fuel ≤ fuel' →
  solveLoop pb w opt fuel st = Done st' →
  solveLoop pb w opt fuel' st = Done st'.
Proof.
  revert fuel' st. induction fuel as [|fuel IH]; intros fuel' st Hle Hrun.
  - simpl in Hrun. destruct (savings st) eqn:Hsav; [|done].
    destruct fuel'; simpl; by rewrite Hsav.
  - destruct fuel' as [|fuel']; [lia|]. simpl in *.
    destruct (savings st) eqn:Hsav; [done|].
    inv_bind Hrun. rewrite Hrun_run. cbn [mbind outcome_bind bind].
    apply IH; [lia|done].
Qed.

(** X3.  Every turn of the [while] loop of [solve] that starts with a
    non-empty candidate list retires at least one of at least two active
    routes, so that the loop ends within one turn less than there are
    customers: the state [solve] ends in is reached by then. *)
Theorem solve_merges_in_every_turn pb w opt fresh :
  (∀ st, atLoopTest pb w opt fresh st → savings st ≠ [] →
         ∃ st', solveRound pb w opt st = Done st' ∧
                2 ≤ length (solutions st) ∧
                length (solutions st') < length (solutions st)) ∧
  ∃ st0 st res,
    findAllRouteSavingsPairs pb w (initialState pb fresh) = Done st0 ∧
    solveLoop pb w opt (length (CW.points pb) - 1) st0 = Done st ∧
    solve pb w opt fresh = Done (st, res).
Proof.
  split.
  - intros st Hat Hne. pose proof (atLoopTest_atTest _ _ _ _ _ Hat) as Htest.
    destruct (solveRound_spec pb w opt st Htest Hne) as (st' & Hrun & _ & Hlt).
    exists st'. split_and!; [done| |done]. by apply (atTest_two_routes pb).
  - destruct (solve_returns pb w opt fresh)
      as (st0 & st & kept & res & Hrun0 & Hloop & Hsolve & _).
    destruct (firstTest_spec pb w fresh) as (st0' & Hrun0' & Htest0 & _ & Hsol).
    assert (st0' = st0) as -> by congruence.
    destruct (solveLoop_bound pb w opt (length (CW.points pb) - 1) st0 Htest0)
      as (st' & Hrun' & _).
    { rewrite Hsol. destruct (initialState_spec pb fresh) as (-> & _).
      rewrite length_seq. lia. }
    exists st0, st, res. split_and!; [done| |done].
    rewrite Hrun'. f_equal.
    apply (solveLoop_more_fuel _ _ _ _ (S (length (CW.points pb)))) in Hrun';
      [congruence|lia].
Qed.

(** ** The routes [solve] returns *)

Lemma splice1_sublist {A} (i : Z) (l : list A) : splice1 i l `sublist_of` l.
Proof.
  unfold splice1. cbv zeta.
  set (s := Z.to_nat _).
  rewrite <- (take_drop s l) at 3.
  apply sublist_app; [done|].
  replace (S s) with (s + 1) by lia. rewrite <- drop_drop. apply sublist_drop.
Qed.

Lemma joinRoutes_sublist pb st a b st' ok :
  joinRoutes pb st a b = Done (st', ok) →
  solutions st' `sublist_of` solutions st.
Proof.
  unfold joinRoutes. intros Hrun. inv_bind Hrun. inv_bind Hrun. inv_bind Hrun.
  destruct v1; simpl in Hrun.
  - inv_bind Hrun. injection Hrun as <- <-. apply splice1_sublist.
  - by injection Hrun as <- <-.
Qed.

Lemma mergeCandidate_sublist pb st c st' :
  mergeCandidate pb st c = Done st' →
  solutions st' `sublist_of` solutions st.
Proof.
  assert (Hjoin : ∀ x y s, ('(s', _) ← joinRoutes pb st x y; Done s') = Done s →
                           solutions s `sublist_of` solutions st).
  { intros x y s Hs. inv_bind Hs. destruct v as [s' ok]. injection Hs as ->.
    by eapply joinRoutes_sublist. }
  unfold mergeCandidate. intros Hrun.
  destruct (joined st (Savings.routeA c)), (joined st (Savings.routeB c));
    simpl in Hrun.
  - by injection Hrun as <-.
  - destruct (solutions st !! 0); [|by injection Hrun as <-].
    inv_bind Hrun. inv_bind Hrun.
    case_decide; [by eapply Hjoin|by injection Hrun as <-].
  - destruct (solutions st !! 0); [|by injection Hrun as <-].
    inv_bind Hrun. inv_bind Hrun.
    case_decide; [by eapply Hjoin|by injection Hrun as <-].
  - by eapply Hjoin.
Qed.

Lemma optimiseSolution_solutions pb st r st' :
  optimiseSolution pb st r = Done st' → solutions st' = solutions st.
Proof.
  unfold optimiseSolution. intros Hrun. inv_bind Hrun. inv_bind Hrun.
  destruct v0. by injection Hrun as <-.
Qed.

Lemma solveRound_sublist pb w opt st st' :
  solveRound pb w opt st = Done st' →
  solutions st' `sublist_of` solutions st.
Proof.
  unfold solveRound. intros Hrun. inv_bind Hrun. inv_bind Hrun.
  rename v into st1, v0 into st2.
  destruct (findAllRouteSavingsPairs_iff pb w _ st' Hrun) as (_ & -> & _).
  simpl.
  assert (H1 : solutions st1 `sublist_of` solutions st).
  { apply (foldM_preserved (mergeCandidate pb)
             (fun s => solutions s `sublist_of` solutions st)
             (savings st) st st1); [done| |done].
    intros s c s' _ Hs Hstep. etrans; [|done]. by eapply mergeCandidate_sublist. }
  assert (H2 : solutions st2 = solutions st1).
  { destruct opt; [|by injection Hrun_run0 as <-].
    apply (foldM_preserved (optimiseSolution pb)
             (fun s => solutions s = solutions st1)
             (solutions st1) st1 st2); [done| |done].
    intros s r s' _ Hs Hstep. rewrite <- Hs. by eapply optimiseSolution_solutions. }
  by rewrite H2.
Qed.

Lemma solveLoop_sublist pb w opt fuel st st' :
  solveLoop pb w opt fuel st = Done st' →
  solutions st' `sublist_of` solutions st.
Proof.
  revert st. induction fuel as [|fuel IH]; intros st Hrun; simpl in Hrun.
  - destruct (savings st); [by injection Hrun as <-|done].
  - destruct (savings st); [by injection Hrun as <-|].
    inv_bind Hrun. etrans; [by apply IH|]. by eapply solveRound_sublist.
Qed.

(** The routes returned are among those this call has created. *)
Lemma solve_result_created pb w opt fresh :
  ∃ st res,
    solve pb w opt fresh = Done (st, res) ∧
    NoDup res ∧
    (∀ r, r ∈ res →
          fresh ≤ r < fresh + length (CW.points pb) ∧ r ∈ solutions st ∧
          ∃ o, heap st !! r = Some o ∧ 2 ≤ length (Route.points o)) ∧
    length res ≤ length (CW.points pb).
Proof.
  destruct (solve_returns pb w opt fresh)
    as (st0 & st & kept & res & Hrun0 & Hloop & Hsolve & Htest & _ & Hkept
        & Hperm & Hres).
  destruct (firstTest_spec pb w fresh) as (st0' & Hrun0' & _ & _ & Hsol0).
  assert (st0' = st0) as -> by congruence.
  destruct (initialState_spec pb fresh) as (Hinit & _).
  assert (Hsub : solutions st `sublist_of` seq fresh (length (CW.points pb))).
  { rewrite <- Hinit, <- Hsol0. by eapply solveLoop_sublist. }
  assert (Hres_sub : kept `sublist_of` seq fresh (length (CW.points pb)))
    by (by etrans).
  exists st, res. split_and!; [done| | |].
  - rewrite Hperm. eapply sublist_NoDup; [apply NoDup_seq|done].
  - intros r Hr. apply Hres in Hr as Hr'. destruct Hr' as [Hact _].
    split_and!; [| |done|by apply (proj1 Htest)].
    + rewrite Hperm in Hr. eapply elem_of_sublist in Hr; [|done].
      apply elem_of_seq in Hr. lia.
    + rewrite Hperm in Hr. eapply elem_of_sublist in Hr; [|done].
      apply elem_of_seq in Hr. lia.
  - rewrite Hperm. apply sublist_length in Hres_sub.
    by rewrite length_seq in Hres_sub.
Qed.

(** X9.  [solve] returns references to routes it has created itself (the
    ids from the value of [Route.id] on entry on, one per customer), each at
    most once, each still active and leading to a route with a start and
    an end; hence never more routes than there are customers. *)
Theorem solve_returns_its_own_routes_once pb w opt fresh :
  ∃ st res,
    solve pb w opt fresh = Done (st, res) ∧
    NoDup res ∧
    (∀ r, r ∈ res →
          fresh ≤ r < fresh + length (CW.points pb) ∧ r ∈ solutions st ∧
          ∃ o, heap st !! r = Some o ∧ 2 ≤ length (Route.points o)) ∧
    length res ≤ length (CW.points pb).
Proof. apply solve_result_created. Qed.

(** ** The two sorts *)

(** The comparator [(a, b) => key(b) - key(a)] is positive exactly when the
    key of [a] is strictly below the key of [b]; a NaN is not positive. *)
Lemma gt_sub_zero a b : gt (sub b a) zero = lt a b.
Proof.
  unfold gt, sub, zero, neg, add, lt.
  destruct a as [x| | |], b as [y| | |]; try done;
    repeat (destruct (Rlt_dec _ _)); try done; lra.
Qed.

Lemma lt_asym a b : lt a b = true → lt b a = false.
Proof.
  unfold lt. destruct a as [x| | |], b as [y| | |]; try done.
  repeat (destruct (Rlt_dec _ _)); try done; lra.
Qed.

Lemma lt_false_trans a b c :
  b ≠ NaN → lt a b = false → lt b c = false → lt a c = false.
Proof.
  unfold lt. destruct a as [x| | |], b as [y| | |], c as [z| | |]; try done;
    repeat (destruct (Rlt_dec _ _)); try done; lra.
Qed.

Lemma descending_nil {A} (key : A → num) : descending key [].
Proof. intros i j x y _ Hx. by rewrite lookup_nil in Hx. Qed.

Lemma descending_cons {A} (key : A → num) (a : A) (l : list A) :
  descending key (a :: l) ↔
  (∀ y, y ∈ l → lt (key a) (key y) = false) ∧ descending key l.
Proof.
  split.
  - intros Hd. split.
    + intros y [j Hj]%list_elem_of_lookup_1. by apply (Hd 0 (S j) a y); [lia|..].
    + intros i j x y Hij Hx Hy. by apply (Hd (S i) (S j) x y); [lia|..].
  - intros [Ha Hd] i j x y Hij Hx Hy.
    destruct j as [|j]; [lia|]. simpl in Hy. destruct i as [|i].
    + simpl in Hx. injection Hx as <-. apply Ha. by eapply list_elem_of_lookup_2.
    + simpl in Hx. apply (Hd i j x y); [lia|done..].
Qed.

Lemma sort_insert_descending {A} (cmp : A → A → outcome num) (key : A → num)
    (a : A) (l l' : list A) :
  (∀ b, b ∈ l → cmp a b = Done (sub (key b) (key a))) →
  (∀ b, b ∈ l → key b ≠ NaN) →
  descending key l → sort_insert cmp a l = Done l' →
  descending key l' ∧ l' ≡ₚ a :: l.
Proof.
  revert l'. induction l as [|b l IH]; intros l' Hcmp Hnan Hd Hrun; simpl in Hrun.
  { injection Hrun as <-. split; [|done]. apply descending_cons.
    split; [|apply descending_nil]. intros y Hy. by apply elem_of_nil in Hy. }
  rewrite (Hcmp b) in Hrun by (by left). cbn [mbind outcome_bind bind] in Hrun.
  rewrite gt_sub_zero in Hrun.
  apply descending_cons in Hd as [Hb Hd].
  destruct (lt (key a) (key b)) eqn:Hlt.
  - inv_bind Hrun. injection Hrun as <-.
    destruct (IH v) as [Hdv Hperm]; try done.
    { intros; apply Hcmp; by right. }
    { intros; apply Hnan; by right. }
    split; [|rewrite Hperm; apply Permutation_swap].
    apply descending_cons. split; [|done]. intros y Hy. rewrite Hperm in Hy.
    apply elem_of_cons in Hy as [->|Hy]; [by apply lt_asym|by apply Hb].
  - injection Hrun as <-. split; [|done]. apply descending_cons. split.
    + intros y [->|Hy]%elem_of_cons; [done|].
      apply (lt_false_trans _ (key b)); [apply Hnan; by left|done|by apply Hb].
    + by apply descending_cons.
Qed.

Lemma js_sort_descending {A} (cmp : A → A → outcome num) (key : A → num)
    (l l' : list A) :
  (∀ a b, a ∈ l → b ∈ l → cmp a b = Done (sub (key b) (key a))) →
  (∀ a, a ∈ l → key a ≠ NaN) →
  js_sort cmp l = Done l' → descending key l' ∧ l' ≡ₚ l.
Proof.
  revert l'. induction l as [|a l IH]; intros l' Hcmp Hnan Hrun; simpl in Hrun.
  { injection Hrun as <-. split; [apply descending_nil|done]. }
  inv_bind Hrun. rename v into s.
  destruct (IH s) as [Hds Hperm]; try done.
  { intros; apply Hcmp; by right. }
  { intros; apply Hnan; by right. }
  destruct (sort_insert_descending cmp key a s l') as [Hd' Hperm']; try done.
  - intros b Hb. apply Hcmp; [by left|right; by rewrite <- Hperm].
  - intros b Hb. apply Hnan. right. by rewrite <- Hperm.
  - split; [done|]. by rewrite Hperm', Hperm.
Qed.

Lemma findAllRouteSavingsPairs_descending pb w st st' :
  findAllRouteSavingsPairs pb w st = Done st' →
  (∀ c, c ∈ savings st' → Savings.savings c ≠ NaN) →
  descending Savings.savings (savings st').
Proof.
  unfold findAllRouteSavingsPairs. intros Hrun Hnan.
  inv_bind Hrun. inv_bind Hrun. injection Hrun as <-. simpl in *.
  destruct (js_sort_perm
              (fun a b => Done (sub (Savings.savings b) (Savings.savings a))) v)
    as [sorted [Hs Hperm]]; [eauto|].
  assert (sorted = v0) as -> by congruence.
  eapply (js_sort_descending _ Savings.savings v v0); [done| |done].
  intros c Hc. apply Hnan. by rewrite Hperm.
Qed.

Lemma densityOrder_key pb st a b :
  usable st a → usable st b →
  densityOrder pb st a b
  = Done (sub (demandDensity pb st b) (demandDensity pb st a)).
Proof.
  intros (oa & Ha & Hla) (ob & Hb & Hlb).
  destruct (totalDistance_Done pb oa) as [da Hda];
    [intros E; rewrite E in Hla; simpl in Hla; lia|].
  destruct (totalDistance_Done pb ob) as [db Hdb];
    [intros E; rewrite E in Hlb; simpl in Hlb; lia|].
  unfold densityOrder, demandDensity, deref. rewrite Ha, Hb. simpl.
  by rewrite Hda, Hdb.
Qed.

(** X10.  The routes [solve] returns are in descending order of
    [totalDemand() / totalDistance()]: no route is followed, however far
    behind, by one of a strictly higher ratio, as long as none of the ratios
    is NaN. *)
Theorem solve_sorts_by_demand_density pb w opt fresh :
  ∃ st res,
    solve pb w opt fresh = Done (st, res) ∧
    ((∀ r, r ∈ res → demandDensity pb st r ≠ NaN) →
     descending (demandDensity pb st) res).
Proof.
  destruct (solve_returns pb w opt fresh)
    as (st0 & st & kept & res & Hrun0 & Hloop & Hsolve & Htest & _ & _
        & Hperm & Hres).
  exists st, res. split; [done|]. intros Hnan.
  pose proof Hsolve as Hrun. unfold solve in Hrun.
  rewrite Hrun0 in Hrun. cbn [mbind outcome_bind bind] in Hrun.
  rewrite Hloop in Hrun. cbn [mbind outcome_bind bind] in Hrun.
  inv_bind Hrun. inv_bind Hrun. injection Hrun as <-.
  assert (Hv : v0 ≡ₚ v).
  { destruct (js_sort_perm (densityOrder pb st) v) as [s [Hs Hp]];
      [|congruence].
    intros a b Ha Hb. apply densityOrder_Done; apply (proj1 Htest).
    - destruct (filterM_spec (withinCap pb st) (solutions st)) as (l & Hl & _ & Hin).
      { intros r Hr. destruct (withinCap_spec pb st r) as (? & ? & _ & _ & ->);
          [by apply (proj1 Htest)|eauto]. }
      assert (l = v) as -> by congruence. by apply Hin in Ha as [? _].
    - destruct (filterM_spec (withinCap pb st) (solutions st)) as (l & Hl & _ & Hin).
      { intros r Hr. destruct (withinCap_spec pb st r) as (? & ? & _ & _ & ->);
          [by apply (proj1 Htest)|eauto]. }
      assert (l = v) as -> by congruence. by apply Hin in Hb as [? _]. }
  assert (Husable : ∀ r, r ∈ v → usable st r).
  { intros r Hr. apply (proj1 Htest). rewrite <- Hv in Hr. by apply Hres in Hr as [? _]. }
  eapply (js_sort_descending (densityOrder pb st) (demandDensity pb st) v v0);
    [| |done].
  - intros a b Ha Hb. apply densityOrder_key; by apply Husable.
  - intros a Ha. apply Hnan. by rewrite Hv.
Qed.

(** ** The theorems at work on the problem [inLine] *)

Lemma div_Fin x y : y ≠ 0%R → div (Fin x) (Fin y) = Fin (x / y).
Proof. intros Hy. unfold div. by destruct (Req_dec_T y 0). Qed.

Lemma abs_Fin x : abs (Fin x) = Fin (Rabs x).
Proof. done. Qed.

Lemma sqrt_Fin_square x : (0 <= x)%R → sqrt (Fin (x * x)) = Fin x.
Proof.
  intros Hx. unfold sqrt. destruct (Rlt_dec (x * x) 0) as [H|_]; [nra|].
  by rewrite sqrt_square.
Qed.

Ltac num_eval :=
  repeat (rewrite add_Fin || rewrite sub_Fin || rewrite mul_Fin
          || rewrite pow2_Fin || rewrite abs_Fin
          || (rewrite div_Fin by lra)).

Lemma angle_inLine_12 : angle inLine (Some 1) (Some 0) (Some 2) = Done (Fin 1).
Proof.
  unfold angle. simpl. num_eval.
  match goal with |- context [sqrt (Fin ?e)] =>
    replace e with (4 * 4)%R by lra end.
  rewrite sqrt_Fin_square by lra. num_eval.
  match goal with |- context [acos (Fin ?e)] =>
    replace e with 1%R by lra end.
  by rewrite cos_acos_id by lra.
Qed.

Lemma angle_inLine_21 : angle inLine (Some 2) (Some 0) (Some 1) = Done (Fin 1).
Proof.
  unfold angle. simpl. num_eval.
  match goal with |- context [sqrt (Fin ?e)] =>
    replace e with (4 * 4)%R by lra end.
  rewrite sqrt_Fin_square by lra. num_eval.
  match goal with |- context [acos (Fin ?e)] =>
    replace e with 1%R by lra end.
  by rewrite cos_acos_id by lra.
Qed.

Lemma calculateSavings_inLine_12 :
  calculateSavings inLine (new_Route 1 0 0) (new_Route 2 0 1) unitWeights
  = Done (Fin (7 / 2)).
Proof.
  unfold calculateSavings.
  change (getEnd (new_Route 1 0 0)) with (Some 1).
  change (getStart (new_Route 2 0 1)) with (Some 2).
  change (CW.depot inLine) with 0.
  rewrite !getDistanceTo_Some, angle_inLine_12.
  change (distance inLine 0 1) with (Fin 1).
  change (distance inLine 0 2) with (Fin 2).
  change (distance inLine 1 2) with (Fin 1).
  cbn [mbind outcome_bind bind field inLine inLineStore CW.store CW.maxPointDistance
       CW.averageDemand CW.maxDemand Point.demand unitWeights
       CWWeights.adjacency CWWeights.asymmetry CWWeights.demand].
  num_eval.
  replace (Rabs (1 + - ((1 + 1) / 2))) with 0%R
    by (replace (1 + - ((1 + 1) / 2))%R with 0%R by lra; by rewrite Rabs_R0).
  replace (Rabs (1 + - ((1 + - (2)) / 2))) with (3 / 2)%R
    by (rewrite Rabs_pos_eq; lra).
  num_eval. do 2 f_equal. lra.
Qed.

Lemma calculateSavings_inLine_21 :
  calculateSavings inLine (new_Route 2 0 1) (new_Route 1 0 0) unitWeights
  = Done (Fin (5 / 2)).
Proof.
  unfold calculateSavings.
  change (getEnd (new_Route 2 0 1)) with (Some 2).
  change (getStart (new_Route 1 0 0)) with (Some 1).
  change (CW.depot inLine) with 0.
  rewrite !getDistanceTo_Some, angle_inLine_21.
  change (distance inLine 0 1) with (Fin 1).
  change (distance inLine 0 2) with (Fin 2).
  change (distance inLine 2 1) with (Fin 1).
  cbn [mbind outcome_bind bind field inLine inLineStore CW.store CW.maxPointDistance
       CW.averageDemand CW.maxDemand Point.demand unitWeights
       CWWeights.adjacency CWWeights.asymmetry CWWeights.demand].
  num_eval.
  replace (Rabs (1 + - ((1 + 1) / 2))) with 0%R
    by (replace (1 + - ((1 + 1) / 2))%R with 0%R by lra; by rewrite Rabs_R0).
  replace (Rabs (1 + - ((2 + - (1)) / 2))) with (1 / 2)%R
    by (rewrite Rabs_pos_eq; lra).
  num_eval. do 2 f_equal. lra.
Qed.

Lemma verifyRouteJoin_inLine_01 :
  verifyRouteJoin inLine (new_Route 1 0 0) (new_Route 2 0 1) = Done true.
Proof.
  unfold verifyRouteJoin.
  erewrite !totalDistance_cons by reflexivity. simpl.
  change (distance inLine 0 1) with (Fin 1).
  change (distance inLine 1 0) with (Fin 1).
  change (distance inLine 0 2) with (Fin 2).
  change (distance inLine 2 0) with (Fin 2).
  change (distance inLine 1 2) with (Fin 1).
  unfold zero. num_eval. f_equal. apply lt_Fin. lra.
Qed.

(** What a pair of routes pushes, given the values of its tests. *)
Lemma savingsPair_eval pb w st route other r o arr sAB sBA ra rb (g ok : bool) m :
  other ≠ route →
  heap st !! route = Some r → heap st !! other = Some o →
  calculateSavings pb r o w = Done sAB →
  calculateSavings pb o r w = Done sBA →
  gt sAB sBA = g → max sAB sBA = m →
  lt m (CWWeights.minSavings w) = false →
  heap st !! (if g then route else other) = Some ra →
  heap st !! (if g then other else route) = Some rb →
  verifyRouteJoin pb ra rb = Done ok →
  savingsPair pb w st route arr other
  = Done (if ok
          then arr ++ [{| Savings.savings := m;
                          Savings.routeA := if g then route else other;
                          Savings.routeB := if g then other else route |}]
          else arr).
Proof.
  intros Hne Hr Ho HAB HBA Hg Hm Hlt Hra Hrb Hok.
  unfold savingsPair, deref. rewrite decide_False by done.
  rewrite Hr, Ho. cbn [mbind outcome_bind bind].
  rewrite HAB, HBA. cbn [mbind outcome_bind bind].
  rewrite Hg, Hm, Hlt.
  assert (Hb : (if decide ((if g then route else other) = route)
                then other else route) = if g then other else route).
  { destruct g; [by rewrite decide_True|by rewrite decide_False]. }
  rewrite Hb, Hra, Hrb. cbn [mbind outcome_bind bind].
  rewrite Hok. by destruct ok.
Qed.

Lemma max_Fin_l x y : (y <= x)%R → max (Fin x) (Fin y) = Fin x.
Proof.
  intros Hle. unfold max.
  destruct (lt (Fin x) (Fin y)) eqn:E; [|done]. apply lt_Fin in E. lra.
Qed.

Lemma max_Fin_r x y : (x < y)%R → max (Fin x) (Fin y) = Fin y.
Proof.
  intros Hle. unfold max.
  destruct (lt (Fin x) (Fin y)) eqn:E; [done|].
  apply not_true_iff_false in E. exfalso. apply E. by apply lt_Fin.
Qed.

Lemma lt_Fin_false x y : (y <= x)%R → lt (Fin x) (Fin y) = false.
Proof.
  intros Hle. apply not_true_iff_false. intros E%lt_Fin. lra.
Qed.

Lemma findAllRouteSavingsPairs_inLine :
  findAllRouteSavingsPairs inLine unitWeights (initialState inLine 0)
  = Done {| heap := heap (initialState inLine 0);
            solutions := [0; 1];
            savings :=
              [ {| Savings.savings := Fin (7 / 2); Savings.routeA := 0;
                   Savings.routeB := 1 |};
                {| Savings.savings := Fin (7 / 2); Savings.routeA := 0;
                   Savings.routeB := 1 |} ];
            joinedRoutes := ∅;
            next_id := 2 |}.
Proof.
  set (st0 := initialState inLine 0).
  assert (H0 : heap st0 !! 0 = Some (new_Route 1 0 0)) by reflexivity.
  assert (H1 : heap st0 !! 1 = Some (new_Route 2 0 1)) by reflexivity.
  unfold findAllRouteSavingsPairs, savingsPairs.
  change (solutions st0) with [0; 1]. cbn [foldM].
  change (savingsPair inLine unitWeights st0 0 [] 0) with (Done (@nil Savings.t)).
  cbn [mbind outcome_bind bind].
  rewrite (savingsPair_eval inLine unitWeights st0 0 1 _ _ [] _ _
             (new_Route 1 0 0) (new_Route 2 0 1) true true
             (Fin (7 / 2)) ltac:(done) H0 H1 calculateSavings_inLine_12
             calculateSavings_inLine_21);
    [|apply gt_Fin; lra|apply max_Fin_l; lra|apply lt_Fin_false; lra
     |exact H0|exact H1|exact verifyRouteJoin_inLine_01].
  cbn [mbind outcome_bind bind app].
  change (savingsPair inLine unitWeights st0 1 ?arr 1) with (Done arr).
  rewrite (savingsPair_eval inLine unitWeights st0 1 0 _ _ _ _ _
             (new_Route 1 0 0) (new_Route 2 0 1) false true
             (Fin (7 / 2)) ltac:(done) H1 H0 calculateSavings_inLine_21
             calculateSavings_inLine_12);
    [|apply lt_Fin_false; lra|apply max_Fin_r; lra|apply lt_Fin_false; lra
     |exact H0|exact H1|exact verifyRouteJoin_inLine_01].
  cbn [mbind outcome_bind bind app js_sort sort_insert Savings.savings].
  rewrite gt_sub_zero, lt_Fin_false by lra.
  reflexivity.
Qed.

(** X11.  The candidate list [findAllRouteSavingsPairs] leaves behind is in
    descending order of score: no candidate is followed, however far behind,
    by one of a strictly higher score, as long as no score is NaN. *)
Theorem candidates_sorted_by_score pb w st st' :
  findAllRouteSavingsPairs pb w st = Done st' →
  (∀ c, c ∈ savings st' → Savings.savings c ≠ NaN) →
  descending Savings.savings (savings st').
Proof. apply findAllRouteSavingsPairs_descending. Qed.

Lemma candidates_sorted_by_score_witness :
  ∃ st',
    findAllRouteSavingsPairs inLine unitWeights (initialState inLine 0)
    = Done st' ∧
    (∀ c, c ∈ savings st' → Savings.savings c ≠ NaN) ∧
    descending Savings.savings (savings st').
Proof.
  eexists. split; [apply findAllRouteSavingsPairs_inLine|].
  assert (Hnan : ∀ c,
            c ∈ [ {| Savings.savings := Fin (7 / 2); Savings.routeA := 0;
                     Savings.routeB := 1 |};
                  {| Savings.savings := Fin (7 / 2); Savings.routeA := 0;
                     Savings.routeB := 1 |} ] →
            Savings.savings c ≠ NaN).
  { intros c Hc. repeat (apply elem_of_cons in Hc as [->|Hc]); try done.
    by apply elem_of_nil in Hc. }
  split; [exact Hnan|].
  apply (candidates_sorted_by_score inLine unitWeights (initialState inLine 0));
    [apply findAllRouteSavingsPairs_inLine|exact Hnan].
Defined.

(** ** Joining and reversing *)



Lemma swap_twice {A} (i k : nat) (l : list A) :
  i ≤ k →
  let l' := take (i + 1) l ++ reverse (take (k - i) (drop (i + 1) l))
            ++ drop (k + 1) l in
  take (i + 1) l' ++ reverse (take (k - i) (drop (i + 1) l'))
  ++ drop (k + 1) l' = l.
Proof.
  intros Hik. cbv zeta.
  set (A0 := take (i + 1) l). set (M := take (k - i) (drop (i + 1) l)).
  set (D := drop (k + 1) l).
  assert (Hl : l = A0 ++ M ++ D).
  { unfold A0, M, D. rewrite (assoc_L (++)), take_take_drop.
    replace (i + 1 + (k - i)) with (k + 1) by lia. by rewrite take_drop. }
  destruct (decide (i + 1 ≤ length l)) as [Hi|Hi].
  - assert (HA : length A0 = i + 1) by (unfold A0; rewrite length_take; lia).
    rewrite take_app_length' by done.
    rewrite drop_app_length' by done.
    destruct (decide (k + 1 ≤ length l)) as [Hk|Hk].
    + assert (HM : length (reverse M) = k - i).
      { rewrite length_reverse. unfold M. rewrite length_take, length_drop. lia. }
      rewrite take_app_length' by done.
      assert (Hdrop : drop (k + 1) (A0 ++ reverse M ++ D) = D).
      { rewrite (assoc_L (++)). apply drop_app_length'.
        rewrite length_app, HM. lia. }
      by rewrite Hdrop, reverse_involutive.
    + assert (HD : D = []) by (unfold D; apply drop_ge; lia).
      rewrite HD, !app_nil_r in *.
      rewrite take_ge.
      2:{ rewrite length_reverse. unfold M. rewrite length_take, length_drop. lia. }
      rewrite drop_ge.
      2:{ rewrite length_app, length_reverse, HA. unfold M.
          rewrite length_take, length_drop. lia. }
      by rewrite reverse_involutive, app_nil_r.
  - assert (HA : A0 = l) by (unfold A0; apply take_ge; lia).
    assert (HM : M = []).
    { unfold M. rewrite drop_ge by lia. by rewrite take_nil. }
    assert (HD : D = []) by (unfold D; apply drop_ge; lia).
    rewrite HM, HD, HA. simpl. rewrite !app_nil_r.
    rewrite (take_ge l) by lia. rewrite (drop_ge l (i + 1)) by lia.
    rewrite (drop_ge l (k + 1)) by lia. rewrite take_nil. simpl.
    by rewrite app_nil_r.
Qed.

Lemma route_eq (r r' : Route.t) :
  Route.points r = Route.points r' → Route.depot r = Route.depot r' →
  Route.id r = Route.id r' → r = r'.
Proof. destruct r, r'. simpl. congruence. Qed.

(** X14.  [twoOptSwap] undoes itself: swapping twice with the same
    arguments [i <= k] gives the route back, whatever its length. *)
Theorem twoOptSwap_twice_is_identity r i k :
  i ≤ k → twoOptSwap (twoOptSwap r i k) i k = r.
Proof.
  intros Hik. apply route_eq; [|done..].
  rewrite twoOptSwap_points, (twoOptSwap_points r).
  exact (swap_twice i k (Route.points r) Hik).
Qed.

Lemma twoOptSwap_twice_is_identity_witness :
  1 ≤ 3 ∧ twoOptSwap (twoOptSwap crossed 1 3) 1 3 = crossed.
Proof.
  split; [lia|]. apply (twoOptSwap_twice_is_identity crossed 1 3). lia.
Defined.

Lemma indexOf_app_first l1 l2 x :
  x ∉ l1 → indexOf (l1 ++ x :: l2) x = Z.of_nat (length l1).
Proof.
  induction l1 as [|y l1 IH]; intros Hx; simpl.
  { by rewrite decide_True. }
  rewrite decide_False by set_solver. rewrite IH by set_solver.
  destruct (Z.ltb_spec (Z.of_nat (length l1)) 0); lia.
Qed.

Lemma indexOf_absent l x : x ∉ l → indexOf l x = (-1)%Z.
Proof.
  induction l as [|y l IH]; intros Hx; simpl; [done|].
  rewrite decide_False by set_solver. by rewrite IH by set_solver.
Qed.

Lemma splice1_last {A} (l : list A) :
  splice1 (-1) l = take (length l - 1) l.
Proof.
  unfold splice1. cbv zeta. simpl.
  destruct l as [|a l]; [done|].
  replace (Z.to_nat (Z.max (Z.of_nat (length (a :: l)) + -1) 0))
    with (length (a :: l) - 1) by (simpl; lia).
  rewrite (drop_ge (a :: l)) by (simpl; lia). by rewrite app_nil_r.
Qed.

(** X15.  A successful [joinRoutes(routeA, routeB)] takes the first
    occurrence of [routeB] out of [solutions]; when [routeB] is not in
    [solutions], [indexOf] answers -1 and [splice(-1, 1)] takes out the last
    active route instead. *)
Theorem joinRoutes_removes_routeB_or_last pb st a b st' :
  joinRoutes pb st a b = Done (st', true) →
  (∀ l1 l2, solutions st = l1 ++ b :: l2 → b ∉ l1 →
            solutions st' = l1 ++ l2) ∧
  (b ∉ solutions st →
   solutions st' = take (length (solutions st) - 1) (solutions st)).
Proof.
  unfold joinRoutes. intros Hrun. inv_bind Hrun. inv_bind Hrun. inv_bind Hrun.
  destruct v1; simpl in Hrun; [|by injection Hrun].
  inv_bind Hrun. injection Hrun as <-. simpl. split.
  - intros l1 l2 -> Hb. by rewrite indexOf_app_first, splice1_at.
  - intros Hb. by rewrite indexOf_absent, splice1_last.
Qed.

Lemma joinRoutes_oneActive :
  joinRoutes onDepot oneActive 0 1
  = Done ({| heap := <[0 := joinRoute (new_Route 1 0 0) (new_Route 2 0 1)]>
                       (heap (initialState onDepot 0));
             solutions := [];
             savings := [];
             joinedRoutes := <[1 := true]> (<[0 := true]> ∅);
             next_id := 2 |}, true).
Proof.
  unfold joinRoutes, joinRoute_at, deref.
  change (heap oneActive !! 0) with (Some (new_Route 1 0 0)).
  change (heap oneActive !! 1) with (Some (new_Route 2 0 1)).
  cbn [mbind outcome_bind bind]. rewrite verifyRouteJoin_onDepot_01.
  reflexivity.
Qed.

Lemma joinRoutes_removes_routeB_or_last_witness :
  ∃ st', joinRoutes onDepot oneActive 0 1 = Done (st', true) ∧
         (1 ∉ solutions oneActive) ∧
         solutions st'
         = take (length (solutions oneActive) - 1) (solutions oneActive).
Proof.
  eexists. split; [apply joinRoutes_oneActive|].
  assert (Hout : 1 ∉ solutions oneActive).
  { intros E%list_elem_of_singleton. discriminate. }
  split; [exact Hout|].
  apply (joinRoutes_removes_routeB_or_last onDepot oneActive 0 1);
    [apply joinRoutes_oneActive|exact Hout].
Defined.

Lemma walk_foldl pb p c l :
  (∀ i a b, (p :: l) !! i = Some a → l !! i = Some b → a ≠ b) →
  walk pb p c l
  = (default p (last l), foldl add c (zip_with (distance pb) (p :: l) l)).
Proof.
  revert p c. induction l as [|q l IH]; intros p c Hstep; [done|].
  simpl. rewrite decide_False.
  2:{ intros ->. by apply (Hstep 0 p p). }
  rewrite IH.
  2:{ intros i a b Ha Hb. by apply (Hstep (S i) a b). }
  f_equal. rewrite last_cons. by destruct (last l).
Qed.

Lemma zip_with_closing {A B} (f : A → A → B) (p : A) (l : list A) (z : A) :
  zip_with f (p :: l) (l ++ [z])
  = zip_with f (p :: l) l ++ [f (default p (last l)) z].
Proof.
  revert p. induction l as [|q l IH]; intros p; [done|].
  change (zip_with f (p :: q :: l) ((q :: l) ++ [z]))
    with (f p q :: zip_with f (q :: l) (l ++ [z])).
  rewrite IH.
  change (zip_with f (p :: q :: l) (q :: l))
    with (f p q :: zip_with f (q :: l) l).
  rewrite <- app_comm_cons. do 4 f_equal.
  rewrite last_cons. by destruct (last l).
Qed.

(** X16.  [totalDistance()] of a route with a point at least, in which no
    point is directly followed by itself, never throws: it is the sum, from
    0 and from the left, of the stored distances between consecutive points
    and then from the last point back to the depot, a distance that is not
    stored counting as [Infinity]. *)
Theorem totalDistance_is_tour_length pb r :
  Route.points r ≠ [] →
  (∀ i a b, Route.points r !! i = Some a → Route.points r !! S i = Some b →
            a ≠ b) →
  totalDistance pb r
  = Done (foldl add zero
            (zip_with (distance pb) (Route.points r)
                      (drop 1 (Route.points r) ++ [Route.depot r]))).
Proof.
  intros Hne Hstep. destruct (Route.points r) as [|p l] eqn:Hpts; [done|].
  rewrite (totalDistance_cons pb r p l Hpts).
  rewrite walk_foldl by (intros i a b Ha Hb; by apply (Hstep i a b)).
  cbn [fst snd drop]. rewrite zip_with_closing, foldl_app. reflexivity.
Qed.

Lemma totalDistance_is_tour_length_witness :
  Route.points crossed ≠ [] ∧
  (∀ i a b, Route.points crossed !! i = Some a →
            Route.points crossed !! S i = Some b → a ≠ b) ∧
  totalDistance square crossed
  = Done (foldl add zero
            (zip_with (distance square) (Route.points crossed)
                      (drop 1 (Route.points crossed)
                       ++ [Route.depot crossed]))).
Proof.
  assert (Hstep : ∀ i a b, Route.points crossed !! i = Some a →
                           Route.points crossed !! S i = Some b → a ≠ b).
  { intros [|[|[|[|i]]]] a b Ha Hb; simpl in Ha, Hb; try done;
      injection Ha as <-; injection Hb as <-; lia. }
  split; [discriminate|]. split; [exact Hstep|].
  apply (totalDistance_is_tour_length square crossed); [discriminate|].
  exact Hstep.
Defined.

(** ** A cap that no route can meet *)

Lemma add_notNegative a b :
  lt a zero = false → lt b zero = false → lt (add a b) zero = false.
Proof.
  unfold lt, add, zero. destruct a as [x| | |], b as [y| | |]; try done.
  repeat (destruct (Rlt_dec _ _)); try done; lra.
Qed.

Lemma walk_notNegative pb p c l :
  (∀ p q, lt (distance pb p q) zero = false) → lt c zero = false →
  lt (walk pb p c l).2 zero = false.
Proof.
  intros Hd. revert p c. induction l as [|q l IH]; intros p c Hc; simpl; [done|].
  destruct (decide (q = p)); apply IH; [done|]. by apply add_notNegative.
Qed.

Lemma totalDistance_notNegative pb r d :
  (∀ p q, lt (distance pb p q) zero = false) →
  totalDistance pb r = Done d → lt d zero = false.
Proof.
  intros Hd Hrun. destruct (Route.points r) as [|p l] eqn:Hpts.
  { by rewrite totalDistance_nil in Hrun. }
  rewrite (totalDistance_cons _ _ _ _ Hpts) in Hrun. injection Hrun as <-.
  apply add_notNegative; [|done]. apply walk_notNegative; [done|].
  unfold lt, zero. destruct (Rlt_dec 0 0); [lra|done].
Qed.

(** X17.  With a distance cap of zero or less (or NaN) and no negative
    distance stored, [solve] returns no route at all. *)
Theorem solve_returns_nothing_without_range pb w opt fresh :
  (∀ p q, lt (distance pb p q) zero = false) →
  lt zero (CW.maxDistance pb) = false →
  ∃ st, solve pb w opt fresh = Done (st, []).
Proof.
  intros Hd Hcap.
  destruct (solve_returns pb w opt fresh)
    as (st0 & st & kept & res & _ & _ & Hsolve & Htest & _ & _ & _ & Hres).
  exists st. destruct res as [|r res]; [done|]. exfalso.
  destruct (proj1 (Hres r) ltac:(by left)) as [Hr Hin].
  destruct (withinCap_spec pb st r) as (o & d & _ & Hdist & Hw);
    [by apply (proj1 Htest)|].
  rewrite Hw in Hin. injection Hin as Hlt.
  pose proof (totalDistance_notNegative pb o d Hd Hdist) as Hpos.
  assert (lt d (CW.maxDistance pb) = false); [|congruence].
  by apply (lt_false_trans d zero).
Qed.

Lemma noRange_notNegative p q : lt (distance noRange p q) zero = false.
Proof.
  assert (H0 : lt (Fin 0) zero = false) by (apply lt_Fin_false; lra).
  assert (H1 : lt (Fin 1) zero = false) by (apply lt_Fin_false; lra).
  unfold distance. cbn [noRange CW.store].
  destruct p as [|[|p]]; cbn [onDepotStore Point.distances];
    destruct q as [|[|[|q]]];
    repeat (rewrite lookup_insert_eq || (rewrite lookup_insert_ne by lia)
            || rewrite lookup_singleton_eq
            || (rewrite lookup_singleton_ne by lia));
    done.
Qed.

Lemma solve_returns_nothing_without_range_witness :
  (∀ p q, lt (distance noRange p q) zero = false) ∧
  lt zero (CW.maxDistance noRange) = false ∧
  ∃ st, solve noRange unitWeights true 0 = Done (st, []).
Proof.
  assert (Hcap : lt zero (CW.maxDistance noRange) = false).
  { apply lt_Fin_false. lra. }
  split; [exact noRange_notNegative|]. split; [exact Hcap|].
  apply (solve_returns_nothing_without_range noRange unitWeights true 0);
    [exact noRange_notNegative|exact Hcap].
Defined.

(** ** More on what the constructor leaves behind *)
Section ConstructorMeasures.
Context (getDistance : num * num → num * num → num).
Context (shuffle : list pid → list pid).
Hypothesis shuffle_perm : ∀ l, shuffle l ≡ₚ l.

Lemma measurePair_closed (P : gmap nat Point.t → Prop) point l h m :
  (∀ h b d, P h → P (setDistanceTo h point b d)) → P h →
  P (foldl (measurePair getDistance point) (h, m) l).1.
Proof.
  intros Hset. revert h m. induction l as [|o l IH]; intros h m HP; [done|].
  simpl. apply IH. by apply Hset.
Qed.

Lemma measurePoint_closed (P : gmap nat Point.t → Prop) pts depot l h m :
  (∀ h a b d, a ∈ l → P h → P (setDistanceTo h a b d)) →
  (∀ h a d, a ∈ l → P h → P (setDistanceTo h depot a d)) → P h →
  P (foldl (measurePoint getDistance pts depot) (h, m) l).1.
Proof.
  revert h m. induction l as [|x l IH]; intros h m Hset Hdep HP; [done|].
  simpl. unfold measurePoint at 2.
  pose proof (measurePair_closed P x pts h m) as Hin.
  destruct (foldl (measurePair getDistance x) (h, m) pts) as [h1 m1].
  simpl in Hin. apply IH.
  - intros; apply Hset; [by right|done].
  - intros; apply Hdep; [by right|done].
  - apply Hdep; [by left|]. apply Hset; [by left|]. apply Hin; [|done].
    intros; apply Hset; [by left|done].
Qed.

Lemma fieldsOf_setDistanceTo h a b d p :
  fieldsOf (setDistanceTo h a b d) p = fieldsOf h p.
Proof.
  unfold fieldsOf, setDistanceTo. destruct (decide (p = a)) as [->|Hne].
  - rewrite lookup_alter_eq. by destruct (h !! a).
  - by rewrite lookup_alter_ne.
Qed.

Lemma stored_setDistanceTo_ne h a b d p q :
  p ≠ a ∨ q ≠ b → stored (setDistanceTo h a b d) p q = stored h p q.
Proof.
  intros Hne. unfold stored, setDistanceTo.
  destruct (decide (p = a)) as [->|Hpa].
  - rewrite lookup_alter_eq. destruct (h !! a); [|done]. simpl.
    rewrite lookup_insert_ne; [done|]. intros ->. by destruct Hne.
  - by rewrite lookup_alter_ne.
Qed.

Lemma fromCustomers_fields cs first i cu :
  cs !! i = Some cu →
  fieldsOf (fromCustomers cs first).1 (first + i)
  = Some (Customer.lon cu, Customer.lat cu, Customer.demand cu).
Proof.
  revert first i. induction cs as [|c cs IH]; intros first i Hi.
  { by rewrite lookup_nil in Hi. }
  simpl. specialize (IH (S first)).
  destruct (fromCustomers cs (S first)) as [h ps]. simpl in *.
  unfold fieldsOf in *. destruct i as [|i].
  - injection Hi as ->. rewrite Nat.add_0_r. by rewrite lookup_insert_eq.
  - rewrite lookup_insert_ne by lia.
    replace (first + S i) with (S first + i) by lia. by apply IH.
Qed.

(** The loops leave a largest distance behind. *)
Lemma upd_bounds (m d x : num) :
  gt x m = false → gt x (if gt d m then d else m) = false.
Proof.
  intros Hx. destruct (gt d m) eqn:E; [|done]. unfold gt, lt in *.
  destruct m as [a| | |], d as [b| | |], x as [c| | |]; try done;
    repeat (match goal with
            | H : context [Rlt_dec ?u ?v] |- _ => destruct (Rlt_dec u v)
            | |- context [Rlt_dec ?u ?v] => destruct (Rlt_dec u v)
            end); try done; lra.
Qed.

Lemma upd_bounds_self (m d : num) : gt d (if gt d m then d else m) = false.
Proof.
  destruct (gt d m) eqn:E; [|done]. unfold gt, lt.
  destruct d as [b| | |]; try done. destruct (Rlt_dec b b); [lra|done].
Qed.

Lemma measurePair_max c dom point l h m :
  measuring c dom h → point ∈ dom →
  ∃ h' m',
    foldl (measurePair getDistance point) (h, m) l = (h', m') ∧
    (∀ x, gt x m = false → gt x m' = false) ∧
    (∀ q, q ∈ l → gt (getDistance (c point) (c q)) m' = false) ∧
    (m' = m ∨ ∃ q, q ∈ l ∧ m' = getDistance (c point) (c q)).
Proof.
  revert h m. induction l as [|o l IH]; intros h m Hm Hpoint; simpl.
  { exists h, m. split_and!; [done..| |by left]. by intros q ?%elem_of_nil. }
  pose proof Hm as [Hdom Hc]. rewrite !Hc.
  set (d := getDistance (c point) (c o)).
  destruct (IH (setDistanceTo h point o d) (if gt d m then d else m))
    as (h' & m' & -> & Hmono & Hall & Hatt);
    [by apply measuring_setDistanceTo|done|].
  exists h', m'. split_and!; [done| | |].
  - intros x Hx. by apply Hmono, upd_bounds.
  - intros q [->|Hq]%elem_of_cons; [|by apply Hall].
    apply Hmono, upd_bounds_self.
  - destruct Hatt as [->|(q & Hq & ->)].
    + destruct (gt d m); [right|by left]. exists o. split; [by left|done].
    + right. exists q. split; [by right|done].
Qed.

Lemma measurePoint_max c pts depot l h m :
  measuring c (depot :: pts) h → l ⊆ pts → depot ∉ pts →
  ∃ h' m',
    foldl (measurePoint getDistance pts depot) (h, m) l = (h', m') ∧
    (∀ x, gt x m = false → gt x m' = false) ∧
    (∀ p q, p ∈ l → q ∈ pts → gt (getDistance (c p) (c q)) m' = false) ∧
    (m' = m ∨ ∃ p q, p ∈ l ∧ q ∈ pts ∧ m' = getDistance (c p) (c q)).
Proof.
  revert h m. induction l as [|x l IH]; intros h m Hm Hl Hdepot; simpl.
  { exists h, m. split_and!; [done..| |by left]. by intros p q ?%elem_of_nil. }
  assert (Hx : x ∈ pts) by (apply Hl; by left).
  destruct (measurePoint_spec getDistance c pts depot h m x Hm Hx Hdepot)
    as (h1 & m1 & Hstep & Hm1 & _).
  destruct (measurePair_max c (depot :: pts) x pts h m Hm)
    as (h0 & m0 & Hfold & Hmono0 & Hall0 & Hatt0); [by right|].
  assert (m1 = m0) as ->.
  { unfold measurePoint in Hstep. rewrite Hfold in Hstep. by injection Hstep. }
  rewrite Hstep.
  destruct (IH h1 m0 Hm1) as (h' & m' & -> & Hmono & Hall & Hatt);
    [intros y Hy; apply Hl; by right|done|].
  exists h', m'. split_and!; [done| | |].
  - intros y Hy. by apply Hmono, Hmono0.
  - intros p q [->|Hp]%elem_of_cons Hq; [|by apply Hall].
    by apply Hmono, Hall0.
  - destruct Hatt as [->|(p & q & Hp & Hq & ->)].
    + destruct Hatt0 as [->|(q & Hq & ->)]; [by left|right].
      exists x, q. split_and!; [by left|done..].
    + right. exists p, q. split_and!; [by right|done..].
Qed.

(** The store of a constructed problem, object by object. *)
Lemma construct_store options :
  let pb := construct getDistance shuffle options in
  let n := length (Options.customers options) in
  CW.depot pb = 0 ∧ CW.points pb = shuffle (seq 1 n) ∧
  CW.maxDistance pb = Options.maxDistance options ∧
  position pb 0 = Options.depot options ∧
  Point.demand (CW.store pb 0) = zero ∧
  (∀ i cu, Options.customers options !! i = Some cu →
           position pb (S i) = (Customer.lon cu, Customer.lat cu) ∧
           Point.demand (CW.store pb (S i)) = Customer.demand cu) ∧
  distance pb 0 0 = PInf ∧
  (∀ p, p ∈ CW.points pb →
        distance pb p 0 = getDistance (position pb p) (position pb 0) ∧
        distance pb 0 p = getDistance (position pb p) (position pb 0) ∧
        ∀ q, q ∈ CW.points pb →
             distance pb p q = getDistance (position pb p) (position pb q)) ∧
  (∀ p q, p ∈ CW.points pb → q ∈ CW.points pb →
          gt (distance pb p q) (CW.maxPointDistance pb) = false) ∧
  (CW.maxPointDistance pb = NInf ∨
   ∃ p q, p ∈ CW.points pb ∧ q ∈ CW.points pb ∧
          CW.maxPointDistance pb = distance pb p q).
Proof.
  unfold construct.
  destruct (fromCustomers_spec (Options.customers options) 1)
    as (Hcreated & Hdom & Hlow).
  pose proof (fromCustomers_fields (Options.customers options) 1) as Hfields.
  destruct (fromCustomers (Options.customers options) 1) as [h0 created].
  simpl in Hcreated, Hdom, Hlow, Hfields.
  set (depotPoint := {| Point.x := (Options.depot options).1;
                        Point.y := (Options.depot options).2;
                        Point.demand := zero; Point.distances := ∅ |}).
  set (pts := shuffle created).
  set (h1 := <[0 := depotPoint]> h0).
  assert (Hpts : ∀ p, p ∈ pts ↔ p ∈ seq 1 (length (Options.customers options))).
  { intros p. unfold pts. by rewrite shuffle_perm, Hcreated. }
  assert (Hdepot : 0 ∉ pts).
  { intros [? _]%Hpts%elem_of_seq. lia. }
  assert (Hm : measuring (coordinates h1) (0 :: pts) h1).
  { split; [|done]. intros p [->|Hp%Hpts]%elem_of_cons.
    - unfold h1. by rewrite lookup_insert_eq.
    - unfold h1. destruct (decide (0 = p)) as [<-|Hne].
      + by rewrite lookup_insert_eq.
      + rewrite lookup_insert_ne by done. by apply Hdom. }
  destruct (measurePoint_fold getDistance (coordinates h1) pts 0 pts h1 NInf Hm)
    as (h & m & Hfold & Hm' & Hall & _); [done..|].
  destruct (measurePoint_max (coordinates h1) pts 0 pts h1 NInf Hm)
    as (h' & m' & Hfold' & _ & Hbound & Hatt); [done..|].
  rewrite Hfold in Hfold'. injection Hfold' as <- <-.
  pose proof (measurePoint_closed (fun g => ∀ p, fieldsOf g p = fieldsOf h1 p)
                pts 0 pts h1 NInf) as Hkeep.
  rewrite Hfold in Hkeep. simpl in Hkeep.
  assert (Hf : ∀ p, fieldsOf h p = fieldsOf h1 p).
  { apply Hkeep; [| |done].
    - intros g a b d _ Hg p. by rewrite fieldsOf_setDistanceTo.
    - intros g a d _ Hg p. by rewrite fieldsOf_setDistanceTo. }
  pose proof (measurePoint_closed (fun g => stored g 0 0 = None)
                pts 0 pts h1 NInf) as Hself.
  rewrite Hfold in Hself. simpl in Hself.
  assert (H00 : stored h 0 0 = None).
  { apply Hself.
    - intros g a b d Ha Hg. rewrite stored_setDistanceTo_ne; [done|].
      left. intros <-. done.
    - intros g a d Ha Hg. rewrite stored_setDistanceTo_ne; [done|].
      right. intros <-. done.
    - unfold stored, h1. by rewrite lookup_insert_eq. }
  rewrite Hfold.
  set (store := fun p => default depotPoint (h !! p)).
  assert (Hstore : ∀ p x y dm, fieldsOf h p = Some (x, y, dm) →
            Point.x (store p) = x ∧ Point.y (store p) = y ∧
            Point.demand (store p) = dm).
  { intros p x y dm. unfold fieldsOf, store. destruct (h !! p); [|done].
    simpl. intros [= <- <- <-]. done. }
  assert (Hpos : ∀ p, p ∈ 0 :: pts →
            (Point.x (store p), Point.y (store p)) = coordinates h1 p).
  { intros p Hp. destruct Hm' as [Hdom' Hc']. rewrite <- Hc'.
    unfold coordinates, store. by destruct (Hdom' p Hp) as [o ->]. }
  assert (Hdist : ∀ a b d, stored h a b = Some d →
            default PInf (Point.distances (store a) !! b) = d).
  { intros a b d. unfold stored, store. destruct (h !! a); simpl; [|done].
    by intros ->. }
  assert (Hdist0 : ∀ a b, stored h a b = None →
            default PInf (Point.distances (store a) !! b) = PInf).
  { intros a b. unfold stored, store. destruct (h !! a); simpl; [|done].
    by intros ->. }
  unfold position, distance. cbn [CW.depot CW.points CW.maxDistance CW.store
                                  CW.maxPointDistance].
  assert (Hd0 : fieldsOf h 0
                = Some ((Options.depot options).1, (Options.depot options).2,
                        zero)).
  { rewrite Hf. unfold fieldsOf, h1. by rewrite lookup_insert_eq. }
  apply Hstore in Hd0 as (Hx0 & Hy0 & Hdm0). fold store.
  assert (Hgd : ∀ p q, p ∈ pts → q ∈ 0 :: pts →
            getDistance (coordinates h1 p) (coordinates h1 q)
            = getDistance (Point.x (store p), Point.y (store p))
                          (Point.x (store q), Point.y (store q))).
  { intros p q Hp Hq. rewrite (Hpos p), (Hpos q); [done|done|by right]. }
  split_and!.
  - done.
  - unfold pts. by rewrite Hcreated.
  - done.
  - rewrite Hx0, Hy0. by destruct (Options.depot options).
  - done.
  - intros i cu Hi. specialize (Hfields i cu Hi).
    assert (Hsi : fieldsOf h (S i)
                  = Some (Customer.lon cu, Customer.lat cu, Customer.demand cu)).
    { rewrite Hf. unfold fieldsOf, h1. rewrite lookup_insert_ne by lia.
      exact Hfields. }
    apply Hstore in Hsi as (-> & -> & ->). done.
  - by apply Hdist0.
  - intros p Hp. destruct (Hall p Hp) as (Hpq & Hpd & Hdp).
    split_and!.
    + rewrite <- Hgd by (try done; by left). by apply Hdist.
    + rewrite <- Hgd by (try done; by left). by apply Hdist.
    + intros q Hq. rewrite <- Hgd by (try done; by right).
      by apply Hdist, Hpq.
  - intros p q Hp Hq. destruct (Hall p Hp) as (Hpq & _).
    rewrite (Hdist p q _ (Hpq q Hq)). by apply Hbound.
  - destruct Hatt as [->|(p & q & Hp & Hq & ->)]; [by left|right].
    exists p, q. split_and!; [done..|].
    destruct (Hall p Hp) as (Hpq & _). by rewrite (Hdist p q _ (Hpq q Hq)).
Qed.
End ConstructorMeasures.

(** X18.  The constructor makes the depot the object [0] with demand 0 at
    [options.depot], and the customers the objects [1], [2], ... in the
    order of [options.customers], each with the longitude, latitude and
    demand of its customer; [points] holds the customers in the order the
    random sort leaves them in. *)
Theorem construct_creates_the_points getDistance shuffle options :
  (∀ l, shuffle l ≡ₚ l) →
  let pb := construct getDistance shuffle options in
  CW.depot pb = 0 ∧
  CW.points pb = shuffle (seq 1 (length (Options.customers options))) ∧
  CW.maxDistance pb = Options.maxDistance options ∧
  position pb 0 = Options.depot options ∧
  Point.demand (CW.store pb 0) = zero ∧
  ∀ i cu, Options.customers options !! i = Some cu →
          position pb (S i) = (Customer.lon cu, Customer.lat cu) ∧
          Point.demand (CW.store pb (S i)) = Customer.demand cu.
Proof.
  intros Hperm pb.
  destruct (construct_store getDistance shuffle Hperm options)
    as (H1 & H2 & H3 & H4 & H5 & H6 & _).
  by split_and!.
Qed.

Lemma unshuffled_perm l : unshuffled l ≡ₚ l.
Proof. done. Qed.

Lemma construct_creates_the_points_witness :
  (∀ l, unshuffled l ≡ₚ l) ∧
  CW.depot equatorProblem = 0 ∧
  CW.points equatorProblem
  = unshuffled (seq 1 (length (Options.customers twoCustomers))) ∧
  CW.maxDistance equatorProblem = Options.maxDistance twoCustomers ∧
  position equatorProblem 0 = Options.depot twoCustomers ∧
  Point.demand (CW.store equatorProblem 0) = zero ∧
  ∀ i cu, Options.customers twoCustomers !! i = Some cu →
          position equatorProblem (S i) = (Customer.lon cu, Customer.lat cu) ∧
          Point.demand (CW.store equatorProblem (S i)) = Customer.demand cu.
Proof.
  split; [exact unshuffled_perm|].
  exact (construct_creates_the_points alongEquator unshuffled twoCustomers
           unshuffled_perm).
Defined.

(** X19.  The constructor stores, for every customer, the [getDistance]
    from its position to the position of every customer (itself included)
    and to the depot; the depot stores that same customer-to-depot number
    for the way out, so that the two directions agree whatever
    [getDistance] is; and the distance from the depot to itself is never
    stored, so that [getDistanceTo] answers [Infinity] for it. *)
Theorem construct_measures_the_distances getDistance shuffle options :
  (∀ l, shuffle l ≡ₚ l) →
  let pb := construct getDistance shuffle options in
  distance pb (CW.depot pb) (CW.depot pb) = PInf ∧
  ∀ p, p ∈ CW.points pb →
       distance pb p (CW.depot pb)
       = getDistance (position pb p) (position pb (CW.depot pb)) ∧
       distance pb (CW.depot pb) p
       = getDistance (position pb p) (position pb (CW.depot pb)) ∧
       ∀ q, q ∈ CW.points pb →
            distance pb p q = getDistance (position pb p) (position pb q).
Proof.
  intros Hperm pb.
  destruct (construct_store getDistance shuffle Hperm options)
    as (H1 & _ & _ & _ & _ & _ & H7 & H8 & _).
  fold pb in H1, H7, H8. rewrite H1. by split.
Qed.

Lemma construct_measures_the_distances_witness :
  (∀ l, unshuffled l ≡ₚ l) ∧
  distance equatorProblem (CW.depot equatorProblem) (CW.depot equatorProblem)
  = PInf ∧
  ∀ p, p ∈ CW.points equatorProblem →
       distance equatorProblem p (CW.depot equatorProblem)
       = alongEquator (position equatorProblem p)
                      (position equatorProblem (CW.depot equatorProblem)) ∧
       distance equatorProblem (CW.depot equatorProblem) p
       = alongEquator (position equatorProblem p)
                      (position equatorProblem (CW.depot equatorProblem)) ∧
       ∀ q, q ∈ CW.points equatorProblem →
            distance equatorProblem p q
            = alongEquator (position equatorProblem p)
                           (position equatorProblem q).
Proof.
  split; [exact unshuffled_perm|].
  exact (construct_measures_the_distances alongEquator unshuffled twoCustomers
           unshuffled_perm).
Defined.

(** X20.  [maxPointDistance] is the largest distance between two customers
    (the legs to the depot are not counted): no stored customer-to-customer
    distance is above it, and it is one of them, or [-Infinity] when there
    is none that compares. *)
Theorem construct_maxPointDistance getDistance shuffle options :
  (∀ l, shuffle l ≡ₚ l) →
  let pb := construct getDistance shuffle options in
  (∀ p q, p ∈ CW.points pb → q ∈ CW.points pb →
          gt (distance pb p q) (CW.maxPointDistance pb) = false) ∧
  (CW.maxPointDistance pb = NInf ∨
   ∃ p q, p ∈ CW.points pb ∧ q ∈ CW.points pb ∧
          CW.maxPointDistance pb = distance pb p q).
Proof.
  intros Hperm pb.
  destruct (construct_store getDistance shuffle Hperm options)
    as (_ & _ & _ & _ & _ & _ & _ & _ & H9 & H10).
  by split.
Qed.

Lemma construct_maxPointDistance_witness :
  (∀ l, unshuffled l ≡ₚ l) ∧
  (∀ p q, p ∈ CW.points equatorProblem → q ∈ CW.points equatorProblem →
          gt (distance equatorProblem p q) (CW.maxPointDistance equatorProblem)
          = false) ∧
  (CW.maxPointDistance equatorProblem = NInf ∨
   ∃ p q, p ∈ CW.points equatorProblem ∧ q ∈ CW.points equatorProblem ∧
          CW.maxPointDistance equatorProblem = distance equatorProblem p q).
Proof.
  split; [exact unshuffled_perm|].
  exact (construct_maxPointDistance alongEquator unshuffled twoCustomers
           unshuffled_perm).
Defined.

Lemma places_of_points getDistance shuffle options p :
  (∀ l, shuffle l ≡ₚ l) →
  let pb := construct getDistance shuffle options in
  p ∈ CW.depot pb :: CW.points pb → position pb p ∈ places options.
Proof.
  intros Hperm pb Hp.
  destruct (construct_store getDistance shuffle Hperm options)
    as (H1 & H2 & _ & H4 & _ & H6 & _).
  fold pb in H1, H2, H4, H6. rewrite H1 in Hp.
  apply elem_of_cons in Hp as [->|Hp].
  - rewrite H4. by left.
  - rewrite H2, Hperm in Hp. apply elem_of_seq in Hp as [Hlo Hhi].
    destruct p as [|i]; [lia|].
    destruct (lookup_lt_is_Some_2 (Options.customers options) i ltac:(lia))
      as [cu Hcu].
    destruct (H6 i cu Hcu) as [-> _]. right.
    apply (list_elem_of_fmap_2 (fun cu => (Customer.lon cu, Customer.lat cu))).
    by eapply list_elem_of_lookup_2.
Qed.

(** X21.  A problem made by the constructor meets what the theorems on
    [solve] assume: its customers are distinct objects, none of them the
    depot, and, when [getDistance] is finite and the same in both directions
    between the places of the problem, every two of its points have a finite
    distance stored that is the same in both directions. *)
Theorem construct_meets_the_assumptions getDistance shuffle options :
  (∀ l, shuffle l ≡ₚ l) →
  (∀ a b, a ∈ places options → b ∈ places options →
          ∃ x : R, getDistance a b = Fin x ∧ getDistance b a = Fin x) →
  let pb := construct getDistance shuffle options in
  distinctPoints pb ∧ populated pb (CW.depot pb :: CW.points pb).
Proof.
  intros Hperm Hsym pb.
  destruct (construct_spec getDistance shuffle Hperm options) as [Hdist _].
  split; [done|].
  destruct (construct_store getDistance shuffle Hperm options)
    as (H1 & _ & _ & _ & _ & _ & _ & H8 & _).
  fold pb in H1, H8.
  pose proof (places_of_points getDistance shuffle options) as Hplace.
  cbv zeta in Hplace. fold pb in Hplace.
  intros p q Hp Hq Hne.
  destruct (Hsym _ _ (Hplace p Hperm Hp) (Hplace q Hperm Hq)) as (x & Hx & Hx').
  rewrite H1 in Hp, Hq.
  apply elem_of_cons in Hp as [->|Hp]; apply elem_of_cons in Hq as [->|Hq].
  - done.
  - destruct (H8 q Hq) as (Hqd & Hdq & _).
    exists x. by rewrite Hqd, Hdq.
  - destruct (H8 p Hp) as (Hpd & Hdp & _).
    exists x. by rewrite Hpd, Hdp.
  - destruct (H8 p Hp) as (_ & _ & Hpq). destruct (H8 q Hq) as (_ & _ & Hqp).
    exists x. by rewrite (Hpq q Hq), (Hqp p Hp).
Qed.

Lemma alongEquator_Fin x y u v :
  alongEquator (Fin x, u) (Fin y, v) = Fin (Rabs (x - y)).
Proof. unfold alongEquator. simpl. by rewrite sub_Fin, abs_Fin. Qed.

Lemma twoCustomers_places a b :
  a ∈ places twoCustomers → b ∈ places twoCustomers →
  ∃ x : R, alongEquator a b = Fin x ∧ alongEquator b a = Fin x.
Proof.
  assert (Hin : ∀ a, a ∈ places twoCustomers → ∃ x, a = (Fin x, Fin 0)).
  { intros c Hc. unfold places, twoCustomers in Hc. simpl in Hc.
    repeat (apply elem_of_cons in Hc as [->|Hc]); eauto.
    by apply elem_of_nil in Hc. }
  intros [x ->]%Hin [y ->]%Hin. exists (Rabs (x - y)).
  rewrite !alongEquator_Fin. split; [done|]. by rewrite Rabs_minus_sym.
Qed.

Lemma construct_meets_the_assumptions_witness :
  (∀ l, unshuffled l ≡ₚ l) ∧
  (∀ a b, a ∈ places twoCustomers → b ∈ places twoCustomers →
          ∃ x : R, alongEquator a b = Fin x ∧ alongEquator b a = Fin x) ∧
  distinctPoints equatorProblem ∧
  populated equatorProblem (CW.depot equatorProblem :: CW.points equatorProblem).
Proof.
  split; [exact unshuffled_perm|]. split; [exact twoCustomers_places|].
  exact (construct_meets_the_assumptions alongEquator unshuffled twoCustomers
           unshuffled_perm twoCustomers_places).
Defined.

(** X22.  Without customers the constructor leaves an empty [points], the
    average demand [NaN] (0 / 0), and [-Infinity] for both the largest
    demand and the largest distance; [solve] then returns no route. *)
Theorem construct_without_customers getDistance shuffle options :
  (∀ l, shuffle l ≡ₚ l) →
  Options.customers options = [] →
  let pb := construct getDistance shuffle options in
  CW.points pb = [] ∧ CW.averageDemand pb = NaN ∧
  CW.maxDemand pb = NInf ∧ CW.maxPointDistance pb = NInf ∧
  ∀ w opt fresh, ∃ st, solve pb w opt fresh = Done (st, []).
Proof.
  intros Hperm Hnone pb.
  assert (Hnil : shuffle [] = []) by (apply Permutation_nil_r; by rewrite Hperm).
  assert (Hpts : CW.points pb = []).
  { unfold pb, construct. rewrite Hnone. simpl. rewrite Hnil. done. }
  split_and!; [done| | | |].
  - unfold pb, construct. rewrite Hnone. simpl. rewrite Hnil. simpl.
    apply div_zero_zero; [done|]. done.
  - unfold pb, construct. rewrite Hnone. simpl. by rewrite Hnil.
  - unfold pb, construct. rewrite Hnone. simpl. by rewrite Hnil.
  - intros w opt fresh.
    destruct (solve_result_created pb w opt fresh) as (st & res & Hrun & _ & _ & Hlen).
    exists st. rewrite Hpts in Hlen. by destruct res; [|simpl in Hlen; lia].
Qed.

Lemma construct_without_customers_witness :
  (∀ l, unshuffled l ≡ₚ l) ∧ Options.customers noCustomers = [] ∧
  CW.points emptyProblem = [] ∧ CW.averageDemand emptyProblem = NaN ∧
  CW.maxDemand emptyProblem = NInf ∧ CW.maxPointDistance emptyProblem = NInf ∧
  ∀ w opt fresh, ∃ st, solve emptyProblem w opt fresh = Done (st, []).
Proof.
  split; [exact unshuffled_perm|]. split; [reflexivity|].
  exact (construct_without_customers alongEquator unshuffled noCustomers
           unshuffled_perm eq_refl).
Defined.

(** ** The permutations [PredictiveSolver.solve] tries *)

Lemma foldl_app_bind {A B} (g : A → list B) (l : list A) (ps : list B) :
  foldl (fun ps i => ps ++ g i) ps l = ps ++ (l ≫= g).
Proof.
  revert ps. induction l as [|i l IH]; intros ps.
  { simpl. by rewrite app_nil_r. }
  rewrite bind_cons, (assoc_L (++)). simpl. apply IH.
Qed.

Lemma foldl_ext_in {A B} (f g : B → A → B) (l : list A) (b : B) :
  (∀ b a, a ∈ l → f b a = g b a) → foldl f b l = foldl g b l.
Proof.
  revert b. induction l as [|a l IH]; intros b Hfg; simpl; [done|].
  rewrite Hfg by (by left). apply IH. intros; apply Hfg. by right.
Qed.

Lemma length_bind_const {A B} (g : A → list B) (l : list A) (c : nat) :
  (∀ i, i ∈ l → length (g i) = c) → length (l ≫= g) = length l * c.
Proof.
  induction l as [|i l IH]; intros Hg; [done|].
  rewrite bind_cons, length_app, Hg, IH by set_solver. simpl. lia.
Qed.

Lemma fmap_bind_list {A B C} (f : B → C) (g : A → list B) (l : list A) :
  f <$> (l ≫= g) = l ≫= fun i => f <$> g i.
Proof.
  induction l as [|i l IH]; [done|]. by rewrite !bind_cons, fmap_app, IH.
Qed.

Lemma bind_ext_in {A B} (f g : A → list B) (l : list A) :
  (∀ i, i ∈ l → f i = g i) → l ≫= f = l ≫= g.
Proof.
  induction l as [|i l IH]; intros Hfg; [done|].
  rewrite !bind_cons, Hfg, IH; [done| |by left].
  intros; apply Hfg; by right.
Qed.

Lemma permute_at_spec {A} (depth : nat) (arr : list A) :
  length arr ≤ depth →
  orderings_of arr (permute_at depth arr [] []) ∧
  ∀ m ps, permute_at depth arr m ps
          = ps ++ ((m ++.) <$> permute_at depth arr [] []).
Proof.
  revert arr. induction depth as [|depth IH]; intros arr Hlen.
  { destruct arr; [|simpl in Hlen; lia]. simpl. split.
    - split_and!; [|done..|].
      + intros t. rewrite list_elem_of_singleton. split; [by intros ->|].
        by intros ->%Permutation_nil_r.
      + intros _. apply NoDup_singleton.
    - intros m ps. by rewrite app_nil_r. }
  destruct arr as [|a arr'] eqn:Harr.
  { simpl. split.
    - split_and!; [|done..|].
      + intros t. rewrite list_elem_of_singleton. split; [by intros ->|].
        by intros ->%Permutation_nil_r.
      + intros _. apply NoDup_singleton.
    - intros m ps. by rewrite app_nil_r. }
  rewrite <- Harr in *.
  set (n := length arr).
  set (N := fun i => permute_at depth (delete i arr) [] []).
  set (nxt := fun i => take 1 (drop i arr)).
  assert (Hi : ∀ i, i ∈ seq 0 n →
            ∃ x, arr !! i = Some x ∧ nxt i = [x] ∧
                 orderings_of (delete i arr) (N i) ∧
                 ∀ m ps, permute_at depth (delete i arr) m ps
                         = ps ++ ((m ++.) <$> N i)).
  { intros i [_ Hi]%elem_of_seq.
    destruct (lookup_lt_is_Some_2 arr i ltac:(lia)) as [x Hx].
    exists x. split; [done|]. split.
    { unfold nxt. rewrite (drop_S arr x i Hx). done. }
    apply IH. rewrite length_delete by eauto. unfold n in Hi. lia. }
  assert (Hrun : ∀ m ps,
            permute_at (S depth) arr m ps
            = ps ++ (seq 0 n ≫= fun i => ((m ++ nxt i) ++.) <$> N i)).
  { intros m ps. rewrite <- foldl_app_bind.
    rewrite Harr at 1. cbn [permute_at]. rewrite <- Harr. fold n.
    apply foldl_ext_in. intros qs i Hin. cbv zeta.
    destruct (Hi i Hin) as (x & _ & _ & _ & Heq). by rewrite Heq. }
  assert (Hnew : permute_at (S depth) arr [] []
                 = seq 0 n ≫= fun i => (nxt i ++.) <$> N i).
  { by rewrite Hrun. }
  split.
  - rewrite Hnew. split_and!.
    + intros t. rewrite list_elem_of_bind. split.
      * intros (i & Ht & Hin). destruct (Hi i Hin) as (x & Hx & Hnx & HQ & _).
        cbv beta in Ht. rewrite Hnx in Ht.
        apply list_elem_of_fmap in Ht as (t' & -> & Ht').
        apply (proj1 HQ) in Ht'. simpl. rewrite Ht'.
        symmetry. by apply delete_Permutation.
      * intros Ht. destruct t as [|y t'].
        { apply Permutation_nil_l in Ht. congruence. }
        assert (Hy : y ∈ arr) by (rewrite <- Ht; by left).
        apply list_elem_of_lookup_1 in Hy as [i Hy].
        assert (Hin : i ∈ seq 0 n).
        { apply elem_of_seq. apply lookup_lt_Some in Hy. unfold n. lia. }
        exists i. split; [|done].
        destruct (Hi i Hin) as (x & Hx & Hnx & HQ & _).
        cbv beta. rewrite Hnx.
        assert (x = y) as -> by congruence.
        apply list_elem_of_fmap. exists t'. split; [done|].
        apply (proj1 HQ). apply (Permutation_cons_inv (a := y)).
        rewrite Ht. by apply delete_Permutation.
    + rewrite (length_bind_const _ _ (fact (n - 1))).
      * rewrite length_seq. unfold n. rewrite Harr. simpl.
        rewrite Nat.sub_0_r. lia.
      * intros i Hin. destruct (Hi i Hin) as (x & Hx & _ & HQ & _).
        rewrite length_fmap, (proj1 (proj2 HQ)).
        rewrite length_delete by eauto. done.
    + assert (H0 : 0 ∈ seq 0 n).
      { apply elem_of_seq. unfold n. rewrite Harr. simpl. lia. }
      destruct (Hi 0 H0) as (x & Hx & Hn & HQ & _).
      unfold n. rewrite Harr at 1. cbn [length seq]. rewrite bind_cons.
      rewrite Hn. destruct HQ as (_ & _ & Hhead & _).
      destruct (N 0) as [|t0 T]; [done|]. simpl in *.
      injection Hhead as ->. rewrite Harr in Hx. simpl in Hx.
      injection Hx as <-. by rewrite Harr.
    + intros Hnd. apply NoDup_bind; [| |apply NoDup_seq].
      * intros i j t Hi' Hj' Hti Htj.
        destruct (Hi i Hi') as (x & Hx & Hnx & _).
        destruct (Hi j Hj') as (y & Hy & Hny & _).
        cbv beta in Hti, Htj. rewrite Hnx in Hti. rewrite Hny in Htj.
        apply list_elem_of_fmap in Hti as (ti & -> & _).
        apply list_elem_of_fmap in Htj as (tj & Heq & _).
        simpl in Heq. injection Heq as -> _.
        by apply (NoDup_lookup arr i j y).
      * intros i Hin. destruct (Hi i Hin) as (x & Hx & Hnx & HQ & _).
        cbv beta. rewrite Hnx.
        apply (NoDup_fmap_2 _). apply HQ.
        apply (sublist_NoDup _ arr); [done|apply sublist_delete].
  - intros m ps. rewrite Hrun, Hnew. f_equal.
    rewrite fmap_bind_list. apply bind_ext_in. intros i _.
    rewrite <- list_fmap_compose. apply list_fmap_ext.
    intros j t _. simpl. by rewrite (assoc_L (++)).
Qed.

(** X23.  [permute(futurePaths)] leaves in [permutations] every ordering of
    the paths: an array is listed exactly when it is a rearrangement of
    [futurePaths], there are [n!] of them for [n] paths, the first is
    [futurePaths] in its own order, and none is listed twice when the paths
    differ from one another. *)
Theorem permute_lists_every_ordering {A} (futurePaths : list A) :
  (∀ t, t ∈ permute futurePaths ↔ t ≡ₚ futurePaths) ∧
  length (permute futurePaths) = fact (length futurePaths) ∧
  head (permute futurePaths) = Some futurePaths ∧
  (NoDup futurePaths → NoDup (permute futurePaths)).
Proof. by apply permute_at_spec. Qed.

(** ** Feasible routes *)
Section FeasibleRoutesFacts.
Context (getDistance : place → place → num).

Lemma hops_cons a b t :
  hops getDistance (a :: b :: t)
  = getDistance a b :: hops getDistance (b :: t).
Proof. done. Qed.

Lemma routeDistance_steps route k rest s :
  drop k route = rest →
  foldM (routeDistance_step getDistance route) (s, k) rest
  = Done (foldl add s (hops getDistance rest), k + length rest).
Proof.
  revert k s. induction rest as [|p rest IH]; intros k s Hdrop; simpl.
  { by rewrite Nat.add_0_r. }
  assert (Hlen : length route = k + S (length rest)).
  { rewrite <- (take_drop k route) at 1. rewrite length_app, Hdrop.
    rewrite length_take. simpl.
    assert (k < length route); [|lia].
    apply lookup_lt_is_Some. exists p.
    by rewrite <- (Nat.add_0_r k), <- lookup_drop, Hdrop. }
  assert (Hrest : drop (S k) route = rest).
  { replace (S k) with (k + 1) by lia. by rewrite <- drop_drop, Hdrop. }
  destruct rest as [|q rest'].
  - rewrite decide_True by (simpl in Hlen; lia). simpl.
    by replace (k + 1) with (S k) by lia.
  - rewrite decide_False by (simpl in Hlen; lia).
    assert (Hq : route !! (k + 1) = Some q).
    { rewrite <- (Nat.add_0_r (k + 1)), <- lookup_drop.
      replace (k + 1) with (S k) by lia. by rewrite Hrest. }
    rewrite Hq. cbn [mbind outcome_bind bind].
    rewrite (IH (S k)) by done. rewrite hops_cons. simpl.
    do 2 f_equal. lia.
Qed.

Lemma routeDistance_hopSum route :
  routeDistance getDistance route = Done (hopSum getDistance route).
Proof.
  unfold routeDistance. by rewrite (routeDistance_steps route 0 route zero).
Qed.

Lemma feasibleRoute_spec max route :
  feasibleRoute getDistance max route
  = Done (bool_decide (2 < length route)
          && lt (hopSum getDistance route) max).
Proof.
  unfold feasibleRoute. case_decide as Hlen.
  - by rewrite bool_decide_eq_false_2 by lia.
  - rewrite routeDistance_hopSum. simpl.
    by rewrite bool_decide_eq_true_2 by lia.
Qed.

(** X24.  [filterFeasibleRoutes] never throws; it keeps, in their order,
    exactly the routes with more than two points whose distances between
    consecutive points add up to less than [maxRouteDistanceDeg] (none when
    that is NaN), and filtering what it kept again changes nothing. *)
Theorem filterFeasibleRoutes_keeps_the_feasible paths max :
  ∃ kept,
    filterFeasibleRoutes getDistance paths max = Done kept ∧
    kept `sublist_of` paths ∧
    (∀ route, route ∈ kept ↔
              route ∈ paths ∧ 2 < length route ∧
              lt (hopSum getDistance route) max = true) ∧
    filterFeasibleRoutes getDistance kept max = Done kept.
Proof.
  unfold filterFeasibleRoutes.
  destruct (filterM_spec (feasibleRoute getDistance max) paths)
    as (kept & Hrun & Hsub & Hin).
  { intros route _. rewrite feasibleRoute_spec. eauto. }
  exists kept. split_and!; [done..| |].
  - intros route. rewrite Hin, feasibleRoute_spec.
    split; intros [Hr H]; (split; [done|]).
    + injection H as H. apply andb_true_iff in H as [H1 H2].
      by apply bool_decide_eq_true in H1.
    + destruct H as [H1 H2]. by rewrite bool_decide_eq_true_2, H2.
  - assert (Hall : ∀ route, route ∈ kept →
              feasibleRoute getDistance max route = Done true).
    { intros route Hr. by apply Hin in Hr as [_ ?]. }
    clear Hrun Hsub Hin. induction kept as [|r kept IH]; [done|].
    simpl. rewrite Hall by (by left). cbn [mbind outcome_bind bind].
    rewrite IH; [done|]. intros; apply Hall. by right.
Qed.
End FeasibleRoutesFacts.

(** ** The line of point pairs *)

Lemma pairUp_steps points k rest acc :
  drop k points = rest →
  foldM (pairUp_step points) (acc, k) rest
  = Done (acc ++ zip rest (drop 1 rest), k + length rest).
Proof.
  revert k acc. induction rest as [|p rest IH]; intros k acc Hdrop; simpl.
  { by rewrite Nat.add_0_r, app_nil_r. }
  assert (Hlen : length points = k + S (length rest)).
  { rewrite <- (take_drop k points) at 1. rewrite length_app, Hdrop.
    rewrite length_take. simpl.
    assert (k < length points); [|lia].
    apply lookup_lt_is_Some. exists p.
    by rewrite <- (Nat.add_0_r k), <- lookup_drop, Hdrop. }
  assert (Hrest : drop (S k) points = rest).
  { replace (S k) with (k + 1) by lia. by rewrite <- drop_drop, Hdrop. }
  destruct rest as [|q rest'].
  - rewrite decide_True by (simpl in Hlen; lia). simpl.
    rewrite app_nil_r. by replace (k + 1) with (S k) by lia.
  - rewrite decide_False by (simpl in Hlen; lia).
    assert (Hq : points !! (k + 1) = Some q).
    { rewrite <- (Nat.add_0_r (k + 1)), <- lookup_drop.
      replace (k + 1) with (S k) by lia. by rewrite Hrest. }
    rewrite Hq. cbn [mbind outcome_bind bind].
    rewrite (IH (S k)) by done. simpl.
    rewrite <- (assoc_L (++)). do 2 f_equal. lia.
Qed.

Lemma pairUp_zip points : pairUp points = Done (zip points (drop 1 points)).
Proof. unfold pairUp. by rewrite (pairUp_steps points 0 points []). Qed.

(** X25.  The reduction at the end of [trimTargetPath] never throws and
    turns [n] points into the [n - 1] segments between consecutive points,
    in order: segment [i] runs from point [i] to point [i + 1]. *)
Theorem pairUp_links_consecutive_points points :
  ∃ lines,
    pairUp points = Done lines ∧
    length lines = length points - 1 ∧
    ∀ i a b, lines !! i = Some (a, b) ↔
             points !! i = Some a ∧ points !! (i + 1) = Some b.
Proof.
  exists (zip points (drop 1 points)). split_and!.
  - unfold pairUp. by rewrite (pairUp_steps points 0 points []).
  - rewrite length_zip_with, length_drop. lia.
  - intros i a b. rewrite lookup_zip_with_Some.
    rewrite lookup_drop, (Nat.add_comm 1 i). naive_solver.
Qed.

(** ** The interception *)

Lemma solveQuadratic_zero_a b c m t : solveQuadratic (Fin 0) b c m ≠ Fin t.
Proof.
  unfold solveQuadratic. rewrite (mul_Fin 2 0).
  replace (2 * 0)%R with 0%R by lra.
  destruct (add _ _) as [x| | |]; unfold div, signed_inf; intros E.
  - destruct (Req_dec_T 0 0) as [_|?]; [|lra].
    destruct (Rlt_dec 0 x); [simpl in E; discriminate|].
    destruct (Rlt_dec x 0); simpl in E; discriminate.
  - destruct (Rlt_dec 0 0); simpl in E; discriminate.
  - destruct (Rlt_dec 0 0); simpl in E; discriminate.
  - discriminate.
Qed.

Lemma solveQuadratic_negative a b c m :
  lt (sub (mul b b) (mul (mul (Fin 4) a) c)) zero = true →
  solveQuadratic a b c m = NaN.
Proof.
  intros Hneg. unfold solveQuadratic.
  assert (Hsqrt : sqrt (sub (mul b b) (mul (mul (Fin 4) a) c)) = NaN).
  { destruct (sub _ _) as [x| | |]; try done.
    apply lt_Fin in Hneg. unfold sqrt. by destruct (Rlt_dec x 0). }
  by rewrite Hsqrt, mul_NaN_r, add_NaN_r, div_NaN_l.
Qed.

(** X27.  [solveQuadratic] has no finite answer when [a] is zero (the
    vehicle and the target are equally fast), whatever the other arguments:
    the division by [2 * a] gives an infinity or NaN.  Its answer is NaN
    whenever the discriminant [b * b - 4 * a * c], as the function computes
    it, is below zero. *)
Theorem solveQuadratic_without_finite_answer :
  (∀ b c m t, solveQuadratic (Fin 0) b c m ≠ Fin t) ∧
  (∀ a b c m,
     lt (sub (mul b b) (mul (mul (Fin 4) a) c)) zero = true →
     solveQuadratic a b c m = NaN).
Proof.
  split; [apply solveQuadratic_zero_a | apply solveQuadratic_negative].
Qed.

Lemma solveQuadratic_without_finite_answer_witness :
  lt (sub (mul (Fin 0) (Fin 0)) (mul (mul (Fin 4) (Fin 1)) (Fin 1))) zero
  = true ∧
  solveQuadratic (Fin 1) (Fin 0) (Fin 1) (Fin 1) = NaN.
Proof.
  assert (Hneg : lt (sub (mul (Fin 0) (Fin 0))
                         (mul (mul (Fin 4) (Fin 1)) (Fin 1))) zero = true).
  { rewrite !mul_Fin, sub_Fin. apply lt_Fin. lra. }
  split; [exact Hneg|].
  exact (proj2 solveQuadratic_without_finite_answer
           (Fin 1) (Fin 0) (Fin 1) (Fin 1) Hneg).
Defined.

(** X28.  When the discriminant [b * b - 4 * a * c] that
    [findTargetLineInterception] computes is below zero (the interceptor
    cannot catch the target on this line), the function does not throw and
    gives no sign of it: with [mulScalar] and [add] of [vecta] working on the
    coordinates, both coordinates of the point it returns are NaN. *)
Theorem interception_out_of_reach_is_NaN
    (Vecta_angleToRad : place → place → num)
    (Vecta_mulScalar : place → num → place) (Vecta_invert : place → place)
    (Vecta_add Vecta_sub : place → place → place)
    (Vecta_dotProduct : place → place → num)
    (line : place * place) (targetSpeed : num) (interceptorPosition : place)
    (interceptorSpeed timeDelay : num) :
  (∀ v k, Vecta_mulScalar v k = (mul v.1 k, mul v.2 k)) →
  (∀ v w, Vecta_add v w = (add v.1 w.1, add v.2 w.2)) →
  let bearing := Vecta_angleToRad line.1 line.2 in
  let lineGradientVector := (cos bearing, Math.sin bearing) in
  let targetMovementVector := Vecta_mulScalar lineGradientVector targetSpeed in
  let targetStart :=
    Vecta_add line.1 (Vecta_mulScalar (Vecta_invert lineGradientVector)
                                      (mul timeDelay targetSpeed)) in
  let a := sub (Vecta_dotProduct targetMovementVector targetMovementVector)
               (mul interceptorSpeed interceptorSpeed) in
  let b := mul (Fin 2)
               (Vecta_dotProduct (Vecta_sub targetStart interceptorPosition)
                                 targetMovementVector) in
  let c := Vecta_dotProduct (Vecta_sub targetStart interceptorPosition)
                            (Vecta_sub targetStart interceptorPosition) in
  lt (sub (mul b b) (mul (mul (Fin 4) a) c)) zero = true →
  TargetInterception.findTargetLineInterception
    Vecta_angleToRad Vecta_mulScalar Vecta_invert Vecta_add Vecta_sub
    Vecta_dotProduct line targetSpeed interceptorPosition interceptorSpeed
    timeDelay
  = (NaN, NaN).
Proof.
  intros HmulScalar Hadd bearing lineGradientVector targetMovementVector
         targetStart a b c Hneg.
  unfold TargetInterception.findTargetLineInterception.
  fold bearing. fold lineGradientVector. fold targetMovementVector.
  fold targetStart. fold a. fold b. fold c.
  rewrite !(solveQuadratic_negative a b c) by exact Hneg.
  rewrite max_NaN_r, (HmulScalar targetMovementVector NaN), Hadd.
  cbn [fst snd]. by rewrite !mul_NaN_r, !add_NaN_r.
Qed.

Lemma interception_out_of_reach_is_NaN_witness :
  (let bearing := Vecta.eastward (Fin 0, Fin 0) (Fin 1, Fin 0) in
   let lineGradientVector := (cos bearing, Math.sin bearing) in
   let targetMovementVector := Vecta.mulScalar lineGradientVector (Fin 2) in
   let targetStart :=
     Vecta.add (Fin 0, Fin 0)
               (Vecta.mulScalar (Vecta.invert lineGradientVector)
                                (mul (Fin 0) (Fin 2))) in
   let a := sub (Vecta.dotProduct targetMovementVector targetMovementVector)
                (mul (Fin 1) (Fin 1)) in
   let b := mul (Fin 2)
                (Vecta.dotProduct (Vecta.sub targetStart (Fin 0, Fin 3))
                                  targetMovementVector) in
   let c := Vecta.dotProduct (Vecta.sub targetStart (Fin 0, Fin 3))
                             (Vecta.sub targetStart (Fin 0, Fin 3)) in
   lt (sub (mul b b) (mul (mul (Fin 4) a) c)) zero = true) ∧
  TargetInterception.findTargetLineInterception
    Vecta.eastward Vecta.mulScalar Vecta.invert Vecta.add Vecta.sub
    Vecta.dotProduct ((Fin 0, Fin 0), (Fin 1, Fin 0)) (Fin 2) (Fin 0, Fin 3)
    (Fin 1) (Fin 0)
  = (NaN, NaN).
Proof.
  assert (Hneg :
    let bearing := Vecta.eastward (Fin 0, Fin 0) (Fin 1, Fin 0) in
    let lineGradientVector := (cos bearing, Math.sin bearing) in
    let targetMovementVector := Vecta.mulScalar lineGradientVector (Fin 2) in
    let targetStart :=
      Vecta.add (Fin 0, Fin 0)
                (Vecta.mulScalar (Vecta.invert lineGradientVector)
                                 (mul (Fin 0) (Fin 2))) in
    let a := sub (Vecta.dotProduct targetMovementVector targetMovementVector)
                 (mul (Fin 1) (Fin 1)) in
    let b := mul (Fin 2)
                 (Vecta.dotProduct (Vecta.sub targetStart (Fin 0, Fin 3))
                                   targetMovementVector) in
    let c := Vecta.dotProduct (Vecta.sub targetStart (Fin 0, Fin 3))
                              (Vecta.sub targetStart (Fin 0, Fin 3)) in
    lt (sub (mul b b) (mul (mul (Fin 4) a) c)) zero = true).
  { cbv [Vecta.eastward Vecta.mulScalar Vecta.invert Vecta.add Vecta.sub
         Vecta.dotProduct fst snd cos Math.sin neg].
    rewrite cos_0, sin_0.
    repeat (rewrite mul_Fin || rewrite add_Fin || rewrite sub_Fin).
    apply lt_Fin. lra. }
  split; [exact Hneg|].
  exact (interception_out_of_reach_is_NaN Vecta.eastward Vecta.mulScalar
           Vecta.invert Vecta.add Vecta.sub Vecta.dotProduct
           ((Fin 0, Fin 0), (Fin 1, Fin 0)) (Fin 2) (Fin 0, Fin 3)
           (Fin 1) (Fin 0) (fun v k => eq_refl) (fun v w => eq_refl) Hneg).
Defined.

(** ** What [PredictiveSolver.solve] returns *)
Section SolverFacts.
Context (getDistance : place → place → num).
Context (lineSliceAlong : list place → num → num → option (option (list place))).
Context (findTargetLineInterception :
           place * place → num → place → num → num → place).

Lemma findLineIntercept_Done vehiclePosition timeElapsed speed targetPath :
  ∃ r, PredictiveSolver.findLineIntercept getDistance lineSliceAlong
         findTargetLineInterception vehiclePosition timeElapsed speed
         targetPath = Done r.
Proof.
  unfold PredictiveSolver.findLineIntercept, PredictiveSolver.trimTargetPath.
  destruct (lineSliceAlong _ _ _) as [[points|]|]; simpl; eauto.
  rewrite pairUp_zip. simpl. eauto.
Qed.

Lemma push_heads depot arrays r x :
  (∀ a, a ∈ arrays → head a = Some depot) →
  ∀ a, a ∈ PredictiveSolver.push arrays r x → head a = Some depot.
Proof.
  intros Hall a [i Hi]%list_elem_of_lookup_1. unfold PredictiveSolver.push in Hi.
  destruct (decide (i = r)) as [->|Hne].
  - rewrite list_lookup_alter_eq in Hi.
    destruct (arrays !! r) as [a0|] eqn:Ha; [|done]. simpl in Hi.
    injection Hi as <-. rewrite head_app.
    by rewrite (Hall a0) by (by eapply list_elem_of_lookup_2).
  - rewrite list_lookup_alter_ne in Hi by done.
    apply Hall. by eapply list_elem_of_lookup_2.
Qed.

Lemma push_length arrays r x :
  length (PredictiveSolver.push arrays r x) = length arrays.
Proof. apply length_alter. Qed.

Lemma visit_spec speed max depot st predictedPath :
  built depot st →
  ∃ st', PredictiveSolver.visit getDistance lineSliceAlong
           findTargetLineInterception speed max depot st predictedPath
         = Done st' ∧ built depot st'.
Proof.
  intros Hb. pose proof Hb as (Hheads & Hactive & Hpaths).
  unfold PredictiveSolver.visit.
  destruct (findLineIntercept_Done (PredictiveSolver.lastPosition st)
              (div (PredictiveSolver.distanceElapsed st) speed) speed
              predictedPath) as [[ip|] ->]; simpl; [|by exists st].
  destruct (gt _ max); [|].
  - destruct (findLineIntercept_Done depot zero speed predictedPath)
      as [[nip|] ->]; simpl.
    + eexists. split; [done|]. split_and!; simpl.
      * intros a [Ha|Ha%list_elem_of_singleton]%elem_of_app.
        -- by eapply push_heads.
        -- by subst.
      * rewrite length_app, push_length. simpl. lia.
      * intros r [Hr|Hr%list_elem_of_singleton]%elem_of_app;
          rewrite length_app, push_length; simpl.
        -- apply Hpaths in Hr. lia.
        -- subst. lia.
    + eexists. split; [done|]. split_and!; simpl.
      * by apply push_heads.
      * by rewrite push_length.
      * intros r [Hr|Hr%list_elem_of_singleton]%elem_of_app;
          rewrite push_length; [by apply Hpaths|by subst].
  - eexists. split; [done|]. split_and!; simpl.
    + by apply push_heads.
    + by rewrite push_length.
    + intros r Hr. rewrite push_length. by apply Hpaths.
Qed.

Lemma buildPaths_spec speed max depot permutation :
  ∃ st, PredictiveSolver.buildPaths getDistance lineSliceAlong
          findTargetLineInterception speed max depot permutation = Done st ∧
        built depot st.
Proof.
  unfold PredictiveSolver.buildPaths.
  destruct (foldM_invariant
              (PredictiveSolver.visit getDistance lineSliceAlong
                 findTargetLineInterception speed max depot)
              (built depot) permutation
              {| PredictiveSolver.arrays := [[depot]];
                 PredictiveSolver.paths := [];
                 PredictiveSolver.totalDistance := zero;
                 PredictiveSolver.distanceElapsed := zero;
                 PredictiveSolver.activePath := 0;
                 PredictiveSolver.lastPosition := depot |})
    as (st & -> & (Hheads & Hactive & Hpaths)).
  { split_and!; simpl.
    - by intros a ->%list_elem_of_singleton.
    - lia.
    - by intros r ?%elem_of_nil. }
  { intros s p _ Hs. by apply visit_spec. }
  simpl. destruct (_ && _).
  - eexists. split; [done|]. split_and!; simpl.
    + by apply push_heads.
    + by rewrite push_length.
    + intros r [Hr|Hr%list_elem_of_singleton]%elem_of_app;
        rewrite push_length; [by apply Hpaths|by subst].
  - by exists st.
Qed.

Lemma pathsOf_heads depot st route :
  built depot st → route ∈ PredictiveSolver.pathsOf st →
  head route = Some depot.
Proof.
  intros (Hheads & _) Hr. unfold PredictiveSolver.pathsOf in Hr.
  apply list_elem_of_omap in Hr as (r & _ & Hr).
  apply Hheads. by eapply list_elem_of_lookup_2.
Qed.

Lemma filterFeasibleRoutes_spec paths max :
  ∃ kept,
    filterFeasibleRoutes getDistance paths max = Done kept ∧
    ∀ route, route ∈ kept ↔
             route ∈ paths ∧ 2 < length route ∧
             lt (hopSum getDistance route) max = true.
Proof.
  unfold filterFeasibleRoutes.
  destruct (filterM_spec (feasibleRoute getDistance max) paths)
    as (kept & Hrun & _ & Hin).
  { intros route _. rewrite feasibleRoute_spec. eauto. }
  exists kept. split; [done|].
  intros route. rewrite Hin, feasibleRoute_spec.
  split; intros [Hr H]; (split; [done|]).
  - injection H as H. apply andb_true_iff in H as [H1 H2].
    by apply bool_decide_eq_true in H1.
  - destruct H as [H1 H2]. by rewrite bool_decide_eq_true_2, H2.
Qed.

Lemma planned_routes speed max depot permutation routes total route :
  planned getDistance lineSliceAlong findTargetLineInterception
          speed max depot permutation routes total →
  route ∈ routes →
  head route = Some depot ∧ 2 < length route ∧
  lt (hopSum getDistance route) max = true.
Proof.
  intros (st & Hst & Hroutes & _) Hr.
  destruct (buildPaths_spec speed max depot permutation) as (st' & Hst' & Hb).
  assert (st' = st) as -> by congruence.
  destruct (filterFeasibleRoutes_spec (PredictiveSolver.pathsOf st) max)
    as (routes' & Hroutes' & Hin).
  assert (routes' = routes) as -> by congruence.
  apply Hin in Hr as (Hr & Hlen & Hlt). split_and!; [|done..].
  by eapply pathsOf_heads.
Qed.
Lemma planned_unique speed max depot permutation routes total routes' total' :
  planned getDistance lineSliceAlong findTargetLineInterception
          speed max depot permutation routes total →
  planned getDistance lineSliceAlong findTargetLineInterception
          speed max depot permutation routes' total' →
  routes' = routes ∧ total' = total.
Proof.
  intros (st & Hst & Hroutes & ->) (st' & Hst' & Hroutes' & ->).
  assert (st' = st) as -> by congruence. split; congruence.
Qed.

Lemma gt_irrefl a : gt a a = false.
Proof.
  unfold gt, lt. destruct a as [x| | |]; try done.
  destruct (Rlt_dec x x); [lra|done].
Qed.

Lemma bestOf_snoc speed max depot seen permutation best :
  bestOf getDistance lineSliceAlong findTargetLineInterception
         speed max depot (seen ++ [permutation]) best ↔
  ∃ chosen routes,
    chosen ∈ seen ++ [permutation] ∧
    planned getDistance lineSliceAlong findTargetLineInterception
            speed max depot chosen routes
            (PredictiveSolver.bestDistance best) ∧
    PredictiveSolver.bestPath best = Some routes ∧
    PredictiveSolver.bestNumPointsReached best
    = PredictiveSolver.numPointsReached routes ∧
    ∀ permutation' routes' total',
      permutation' ∈ seen ++ [permutation] →
      planned getDistance lineSliceAlong findTargetLineInterception
              speed max depot permutation' routes' total' →
      gt (PredictiveSolver.numPointsReached routes')
         (PredictiveSolver.bestNumPointsReached best) = false.
Proof. by destruct seen. Qed.

Lemma consider_spec speed max depot seen best permutation :
  bestOf getDistance lineSliceAlong findTargetLineInterception
         speed max depot seen best →
  ∃ best',
    PredictiveSolver.consider getDistance lineSliceAlong
      findTargetLineInterception speed max depot best permutation
    = Done best' ∧
    bestOf getDistance lineSliceAlong findTargetLineInterception
           speed max depot (seen ++ [permutation]) best'.
Proof.
  intros Hbest. unfold PredictiveSolver.consider.
  destruct (buildPaths_spec speed max depot permutation) as (st & Hst & _).
  destruct (filterFeasibleRoutes_spec (PredictiveSolver.pathsOf st) max)
    as (routes & Hroutes & _).
  rewrite Hst. cbn [mbind outcome_bind bind].
  rewrite Hroutes. cbn [mbind outcome_bind bind].
  set (n := PredictiveSolver.numPointsReached routes).
  assert (Hplan : planned getDistance lineSliceAlong findTargetLineInterception
                    speed max depot permutation routes
                    (PredictiveSolver.totalDistance st)).
  { exists st. by split_and!. }
  assert (Hself : ∀ routes' total',
            planned getDistance lineSliceAlong findTargetLineInterception
                    speed max depot permutation routes' total' →
            PredictiveSolver.numPointsReached routes' = n).
  { intros routes' total' Hp.
    by destruct (planned_unique _ _ _ _ _ _ _ _ Hplan Hp) as [-> _]. }
  destruct seen as [|p0 seen'].
  { simpl in Hbest. subst best. simpl.
    eexists. split; [done|]. apply (bestOf_snoc _ _ _ []).
    exists permutation, routes. simpl. split_and!; try done; [by left|].
    intros p' routes' total' ->%list_elem_of_singleton Hp.
    rewrite (Hself _ _ Hp). apply gt_irrefl. }
  destruct Hbest as (chosen & routes0 & Hchosen & Hplan0 & Hpath & Hnum & Hbound).
  rewrite Hpath. cbn [orb].
  destruct (gt n (PredictiveSolver.bestNumPointsReached best)) eqn:Hgt;
    cbn [orb].
  - eexists. split; [done|]. apply bestOf_snoc.
    exists permutation, routes.
    cbn [PredictiveSolver.bestPath PredictiveSolver.bestNumPointsReached
         PredictiveSolver.bestDistance].
    split_and!; try done.
    { apply elem_of_app. right. by left. }
    intros p' routes' total' [Hp' | ->%list_elem_of_singleton]%elem_of_app Hp.
    + pose proof (upd_bounds (PredictiveSolver.bestNumPointsReached best) n
                    (PredictiveSolver.numPointsReached routes')
                    (Hbound _ _ _ Hp' Hp)) as Hb.
      fold n. by rewrite Hgt in Hb.
    + rewrite (Hself _ _ Hp). apply gt_irrefl.
  - destruct (strict_eq n (PredictiveSolver.bestNumPointsReached best)
              && lt (PredictiveSolver.totalDistance st)
                    (PredictiveSolver.bestDistance best)) eqn:Htie.
    + apply andb_true_iff in Htie as [Heq%strict_eq_true _].
      eexists. split; [done|]. apply bestOf_snoc.
      exists permutation, routes.
      cbn [PredictiveSolver.bestPath PredictiveSolver.bestNumPointsReached
           PredictiveSolver.bestDistance].
      split_and!; try done.
      { apply elem_of_app. right. by left. }
      intros p' routes' total' [Hp' | ->%list_elem_of_singleton]%elem_of_app Hp.
      * fold n. rewrite Heq. by eapply Hbound.
      * rewrite (Hself _ _ Hp). apply gt_irrefl.
    + exists best. split; [done|]. apply bestOf_snoc.
      exists chosen, routes0. split_and!; try done.
      { apply elem_of_app. by left. }
      intros p' routes' total' [Hp' | ->%list_elem_of_singleton]%elem_of_app Hp.
      * by eapply Hbound.
      * by rewrite (Hself _ _ Hp).
Qed.

Lemma considerAll_spec speed max depot seen best permutations :
  bestOf getDistance lineSliceAlong findTargetLineInterception
         speed max depot seen best →
  ∃ best',
    foldM (PredictiveSolver.consider getDistance lineSliceAlong
             findTargetLineInterception speed max depot) best permutations
    = Done best' ∧
    bestOf getDistance lineSliceAlong findTargetLineInterception
           speed max depot (seen ++ permutations) best'.
Proof.
  revert seen best. induction permutations as [|p l IH]; intros seen best Hbest.
  { exists best. by rewrite app_nil_r. }
  destruct (consider_spec speed max depot seen best p Hbest)
    as (best1 & Hrun & Hbest1).
  destruct (IH _ _ Hbest1) as (best' & Hrun' & Hbest').
  exists best'. simpl. rewrite Hrun. cbn [mbind outcome_bind bind].
  split; [done|]. by rewrite <- (assoc_L (++)) in Hbest'.
Qed.

(** What [solve] returns when the vehicle moves. *)
Lemma solve_spec speed max depotLon depotLat futurePaths :
  lte speed zero = false →
  ∃ routes permutation total,
    PredictiveSolver.solve getDistance lineSliceAlong
      findTargetLineInterception speed max depotLon depotLat futurePaths
    = Done (Some routes) ∧
    permutation ≡ₚ futurePaths ∧
    planned getDistance lineSliceAlong findTargetLineInterception
            speed max (depotLon, depotLat) permutation routes total ∧
    ∀ permutation' routes' total',
      permutation' ≡ₚ futurePaths →
      planned getDistance lineSliceAlong findTargetLineInterception
              speed max (depotLon, depotLat) permutation' routes' total' →
      gt (PredictiveSolver.numPointsReached routes')
         (PredictiveSolver.numPointsReached routes) = false.
Proof.
  intros Hspeed. unfold PredictiveSolver.solve. rewrite Hspeed.
  destruct (permute_at_spec (length futurePaths) futurePaths ltac:(done))
    as [(Hin & Hlen & _) _].
  fold (permute futurePaths) in Hin, Hlen.
  destruct (considerAll_spec speed max (depotLon, depotLat) []
              {| PredictiveSolver.bestNumPointsReached := NInf;
                 PredictiveSolver.bestDistance := PInf;
                 PredictiveSolver.bestPath := None |}
              (permute futurePaths)) as (best & Hrun & Hbest); [done|].
  cbv zeta. rewrite Hrun. cbn [mbind outcome_bind bind].
  rewrite app_nil_l in Hbest.
  destruct (permute futurePaths) as [|p l] eqn:Hperms.
  { simpl in Hlen. pose proof (lt_O_fact (length futurePaths)). lia. }
  destruct Hbest as (chosen & routes & Hchosen & Hplan & Hpath & Hnum & Hbound).
  exists routes, chosen, (PredictiveSolver.bestDistance best).
  split_and!; [by rewrite Hpath|by apply Hin|done|].
  intros p' routes' total' Hp' Hplan'. rewrite <- Hnum.
  eapply Hbound; [|done]. by apply Hin.
Qed.
End SolverFacts.

(** X29.  Whatever the library functions [getDistance], [lineSliceAlong]
    and [findTargetLineInterception] answer, [PredictiveSolver.solve] never
    throws of its own and never returns [null]: it returns an array of
    routes, empty when the vehicle speed is zero or less, and every route
    in it starts at the depot, has more than two points and is shorter, leg
    by leg summed up, than [maxRouteDistanceDeg]. *)
Theorem predictive_solve_returns_feasible_routes
    (getDistance : place → place → num)
    (lineSliceAlong : list place → num → num → option (option (list place)))
    (findTargetLineInterception :
       place * place → num → place → num → num → place)
    (vehicleSpeedDeg maxRouteDistanceDeg depotLon depotLat : num)
    (futurePaths : list TargetPath.t) :
  ∃ routes,
    PredictiveSolver.solve getDistance lineSliceAlong
      findTargetLineInterception vehicleSpeedDeg maxRouteDistanceDeg
      depotLon depotLat futurePaths
    = Done (Some routes) ∧
    (lte vehicleSpeedDeg zero = true → routes = []) ∧
    ∀ route, route ∈ routes →
             head route = Some (depotLon, depotLat) ∧ 2 < length route ∧
             lt (hopSum getDistance route) maxRouteDistanceDeg = true.
Proof.
  destruct (lte vehicleSpeedDeg zero) eqn:Hspeed.
  - exists []. unfold PredictiveSolver.solve. rewrite Hspeed.
    split_and!; [done..|]. by intros route ?%elem_of_nil.
  - destruct (solve_spec getDistance lineSliceAlong findTargetLineInterception
                vehicleSpeedDeg maxRouteDistanceDeg depotLon depotLat
                futurePaths Hspeed)
      as (routes & permutation & total & Hrun & _ & Hplan & _).
    exists routes. split_and!; [done..|].
    intros route Hroute. by eapply planned_routes.
Qed.

(** X30.  When the vehicle moves, the routes [PredictiveSolver.solve]
    returns are the feasible paths it builds for one ordering of the target
    paths, and no ordering gives feasible paths that reach more points. *)
Theorem predictive_solve_reaches_the_most_points
    (getDistance : place → place → num)
    (lineSliceAlong : list place → num → num → option (option (list place)))
    (findTargetLineInterception :
       place * place → num → place → num → num → place)
    (vehicleSpeedDeg maxRouteDistanceDeg depotLon depotLat : num)
    (futurePaths : list TargetPath.t) :
  lte vehicleSpeedDeg zero = false →
  ∃ routes permutation total,
    PredictiveSolver.solve getDistance lineSliceAlong
      findTargetLineInterception vehicleSpeedDeg maxRouteDistanceDeg
      depotLon depotLat futurePaths
    = Done (Some routes) ∧
    permutation ≡ₚ futurePaths ∧
    planned getDistance lineSliceAlong findTargetLineInterception
            vehicleSpeedDeg maxRouteDistanceDeg (depotLon, depotLat)
            permutation routes total ∧
    ∀ permutation' routes' total',
      permutation' ≡ₚ futurePaths →
      planned getDistance lineSliceAlong findTargetLineInterception
              vehicleSpeedDeg maxRouteDistanceDeg (depotLon, depotLat)
              permutation' routes' total' →
      gt (PredictiveSolver.numPointsReached routes')
         (PredictiveSolver.numPointsReached routes) = false.
Proof. apply solve_spec. Qed.

Lemma lte_one_zero : lte (Fin 1) zero = false.
Proof.
  unfold lte, zero. rewrite lt_Fin_false by lra.
  apply not_true_iff_false. intros E%strict_eq_Fin. lra.
Qed.

Lemma predictive_solve_reaches_the_most_points_witness :
  lte (Fin 1) zero = false ∧
  ∃ routes permutation total,
    PredictiveSolver.solve alongEquator untrimmed atLineStart
      (Fin 1) (Fin 10) (Fin 0) (Fin 0) oneTarget
    = Done (Some routes) ∧
    permutation ≡ₚ oneTarget ∧
    planned alongEquator untrimmed atLineStart
            (Fin 1) (Fin 10) (Fin 0, Fin 0) permutation routes total ∧
    ∀ permutation' routes' total',
      permutation' ≡ₚ oneTarget →
      planned alongEquator untrimmed atLineStart
              (Fin 1) (Fin 10) (Fin 0, Fin 0) permutation' routes' total' →
      gt (PredictiveSolver.numPointsReached routes')
         (PredictiveSolver.numPointsReached routes) = false.
Proof.
  split; [exact lte_one_zero|].
  exact (predictive_solve_reaches_the_most_points alongEquator untrimmed
           atLineStart (Fin 1) (Fin 10) (Fin 0) (Fin 0) oneTarget
           lte_one_zero).
Defined.
